(** * providers/aws/aws_provider.py : identity bootstrap, regional clients and
      Security Hub reconciliation, as a shallow embedding.

    Python values are embedded as Rocq data (records for the dataclasses and
    for the JSON objects the code reads field by field), Python control flow
    as a state-and-outcome monad: a computation threads the log written
    through [logger], the trace of the calls made to AWS and the state of
    the finding store, and ends by returning, by raising an exception or by
    [sys.exit()]. *)

From Stdlib Require Import ZArith Lia Ascii String List DecimalString.
From stdpp Require Import base option list sorting strings gmap sets.

Local Open Scope string_scope.

(** ** Python runtime: exceptions, outcomes, logging *)

(** An exception, as the handlers of this file print it:
    [error.__class__.__name__] and [str(error)]. *)
Record PyExc : Type := mkExc { exc_class : string; exc_msg : string }.

(** What an API call of a collaborator gives back: a value, or an exception
    derived from [Exception]. *)
Definition Result (A : Type) : Type := (PyExc + A)%type.

(** How a computation ends: [return], an exception that is still
    propagating, or [sys.exit()], which no [except Exception] catches. *)
Inductive Outcome (A : Type) : Type :=
| Return (a : A)
| Raise (e : PyExc)
| SysExit.
Arguments Return {A} a.
Arguments Raise {A} e.
Arguments SysExit {A}.

Inductive Level : Type := INFO | ERROR | CRITICAL.

Record LogRecord : Type := mkLog { levelname : Level; message : string }.

#[global] Instance PyExc_eq_dec : EqDecision PyExc.
Proof. solve_decision. Defined.
#[global] Instance Level_eq_dec : EqDecision Level.
Proof. solve_decision. Defined.
#[global] Instance LogRecord_eq_dec : EqDecision LogRecord.
Proof. solve_decision. Defined.

(** ** Python helpers used by the source *)

(** [s.split(sep)] for a one-character separator. *)
Fixpoint split (sep : ascii) (s : string) : list string :=
  match s with
  | EmptyString => [""]
  | String c s' =>
      if Ascii.eqb c sep then "" :: split sep s'
      else match split sep s' with
           | w :: ws => String c w :: ws
           | [] => [String c ""]
           end
  end.

(** [needle in haystack] on strings. *)
Definition str_contains (needle haystack : string) : bool :=
  match String.index 0 needle haystack with Some _ => true | None => false end.

(** [str(n)] for a natural number, as an f-string prints [len(...)]. *)
Definition str_of_nat (n : nat) : string :=
  NilEmpty.string_of_uint (Nat.to_uint n).

(** Truthiness of a value that is [None] or a [str]. *)
Definition truthy_str (o : option string) : bool :=
  match o with
  | Some s => negb (String.eqb s "")
  | None => false
  end.

(** Truthiness of a value that is [None] or a list. *)
Definition truthy_list {A} (o : option (list A)) : bool :=
  match o with
  | Some (_ :: _) => true
  | _ => false
  end.

(** [range(0, stop, step)] for a positive step: [ceil(stop / step)] values
    [0, step, 2*step, ...]. *)
Definition py_range (stop step : nat) : list nat :=
  map (fun k => k * step) (seq 0 ((stop + step - 1) / step)).

(** The slice [l[i:j]] for [0 <= i <= j]. *)
Definition py_slice {A} (l : list A) (i j : nat) : list A :=
  take (j - i) (drop i l).

(** Lines 387-390: [[l[i : i + 100] for i in range(0, len(l), 100)]]. *)
Definition list_chunked {A} (findings_to_archive : list A) : list (list A) :=
  map (fun i => py_slice findings_to_archive i (i + 100))
      (py_range (length findings_to_archive) 100).

(** ** Data model *)

(** Modelled from the spec: [providers.aws.models.AWS_Assume_Role], whose
    declaration is not part of the sources at hand: "target role identifier,
    requested session duration, optional external id", the three keywords of
    its constructor call at lines 112-116. Every field starts as [None]. *)
Record AWS_Assume_Role : Type := mkAssumeRole {
  role_arn : option string;
  session_duration : option Z;
  external_id : option string
}.

(** Modelled from the spec: [providers.aws.models.AWS_Credentials], with the
    keywords of its constructor call at lines 182-189. [expiration] is the
    [datetime] of the token service, as seconds since the epoch. *)
Record AWS_Credentials : Type := mkCredentials {
  aws_access_key_id : string;
  aws_session_token : string;
  aws_secret_access_key : string;
  expiration : Z
}.

(** The bound method [self.refresh] handed to botocore as [refresh_using]:
    a closure over the provider, of which [refresh] reads [self.role_info]
    only. *)
Inductive BoundMethod : Type :=
| AWS_Provider_refresh (role_info : AWS_Assume_Role).

(** [botocore.credentials.RefreshableCredentials] as built at lines 42-49. *)
Record RefreshableCredentials : Type := mkRefreshable {
  access_key : string;
  secret_key : string;
  token : string;
  expiry_time : Z;
  refresh_using : BoundMethod;
  method : string
}.

(** A [boto3.session.Session]: the profile it was built from, the
    credentials object installed in its botocore session (if any) and the
    region its configuration resolves to. *)
Record Session : Type := mkSession {
  profile_name : option string;
  botocore_credentials : option RefreshableCredentials;
  region_name : option string
}.

(** Modelled from the spec: [providers.aws.models.AWS_Organizations_Info]
    ("email, display name, arn, org id, tag string"), with the keywords of
    its constructor call at lines 272-278. *)
Record AWS_Organizations_Info : Type := mkOrgInfo {
  account_details_email : string;
  account_details_name : string;
  account_details_arn : string;
  account_details_org : string;
  account_details_tags : string
}.

(** Modelled from the spec: [providers.aws.models.AWS_Audit_Info], the
    Audit Identity Context, with the keywords of its constructor call at
    lines 104-119. *)
Record AWS_Audit_Info : Type := mkAuditInfo {
  original_session : option Session;
  audit_session : option Session;
  audited_account : option string;
  audited_partition : option string;
  profile : option string;
  profile_region : option string;
  credentials : option AWS_Credentials;
  assumed_role_info : AWS_Assume_Role;
  audited_regions : option (list string);
  organizations_metadata : option AWS_Organizations_Info
}.

(** The two kinds of object the source passes to [assume_role]: the audit
    info (lines 153 and 179) and the bare role description (line 75). *)
Inductive PyObject : Type :=
| Obj_Audit_Info (o : AWS_Audit_Info)
| Obj_Assume_Role (o : AWS_Assume_Role).

(** A keyword argument value of a boto3 call. *)
Inductive PyVal : Type :=
| VNone
| VStr (s : string)
| VInt (z : Z).

Definition kwargs : Type := list (string * PyVal).

Definition val_of_str (o : option string) : PyVal :=
  match o with Some s => VStr s | None => VNone end.

Definition val_of_int (o : option Z) : PyVal :=
  match o with Some z => VInt z | None => VNone end.

(** The keyword [k] of a call, when it was passed. *)
Fixpoint kwarg (k : string) (kw : kwargs) : option PyVal :=
  match kw with
  | [] => None
  | (k', v) :: kw' => if String.eqb k k' then Some v else kwarg k kw'
  end.

(** Responses of the token service, the identity endpoint and the
    organizations endpoints, with the keys the source reads. *)
Record StsCredentials : Type := mkStsCredentials {
  AccessKeyId : string;
  SecretAccessKey : string;
  SessionToken : string;
  Expiration : Z
}.

Record AssumeRoleResponse : Type := mkAssumeRoleResponse {
  Credentials : StsCredentials
}.

Record CallerIdentity : Type := mkCallerIdentity {
  UserId : string;
  Account : string;
  Arn : string
}.

Record OrgAccount : Type := mkOrgAccount {
  Email : string;
  Name : string;
  OrgArn : string
}.

Record Tag : Type := mkTag { Key : string; Value : string }.

(** What [arnparse] and [arn_parsing] give: the fields the source reads. *)
Record ParsedArn : Type := mkParsedArn {
  partition : string;
  account_id : string
}.

(** An ASFF finding: the keys the source and the store's filter read, and
    the rest of the record as an opaque payload. *)
Record Finding : Type := mkFinding {
  Id : string;
  ProductArn : string;
  ProductName : string;
  RecordState : string;
  AwsAccountId : string;
  Region : string;
  UpdatedAt : string;
  Payload : string
}.

(** [finding["RecordState"] = v] and [finding["UpdatedAt"] = v]. *)
Definition set_RecordState (v : string) (f : Finding) : Finding :=
  mkFinding (Id f) (ProductArn f) (ProductName f) v (AwsAccountId f)
            (Region f) (UpdatedAt f) (Payload f).

Definition set_UpdatedAt (v : string) (f : Finding) : Finding :=
  mkFinding (Id f) (ProductArn f) (ProductName f) (RecordState f)
            (AwsAccountId f) (Region f) v (Payload f).

(** One condition of a [get_findings] filter, and the filter of lines
    365-372. *)
Record StringFilter : Type := mkStringFilter {
  FValue : PyVal;
  Comparison : string
}.

Record FindingsFilter : Type := mkFilter {
  FProductName : list StringFilter;
  FRecordState : list StringFilter;
  FAwsAccountId : list StringFilter;
  FRegion : list StringFilter
}.

(** The response of [batch_import_findings]. *)
Record FailedFinding : Type := mkFailed {
  FailedId : string;
  ErrorCode : string;
  ErrorMessage : string
}.

Record BatchImportResponse : Type := mkBatchResponse {
  FailedCount : Z;
  SuccessCount : Z;
  FailedFindings : list FailedFinding
}.

(** A regional client, tagged with its region (line 296). *)
Record Client : Type := mkClient {
  client_service : string;
  client_session : Session;
  client_region : string
}.

#[global] Instance AWS_Assume_Role_eq_dec : EqDecision AWS_Assume_Role.
Proof. solve_decision. Defined.
#[global] Instance BoundMethod_eq_dec : EqDecision BoundMethod.
Proof. solve_decision. Defined.
#[global] Instance RefreshableCredentials_eq_dec :
  EqDecision RefreshableCredentials.
Proof. solve_decision. Defined.
#[global] Instance Session_eq_dec : EqDecision Session.
Proof. solve_decision. Defined.
#[global] Instance StsCredentials_eq_dec : EqDecision StsCredentials.
Proof. solve_decision. Defined.
#[global] Instance PyVal_eq_dec : EqDecision PyVal.
Proof. solve_decision. Defined.
#[global] Instance Finding_eq_dec : EqDecision Finding.
Proof. solve_decision. Defined.
#[global] Instance StringFilter_eq_dec : EqDecision StringFilter.
Proof. solve_decision. Defined.
#[global] Instance FindingsFilter_eq_dec : EqDecision FindingsFilter.
Proof. solve_decision. Defined.

(** ** The calls made to the collaborators, and the world a run acts on *)

Inductive ApiCall : Type :=
| Call_Session (profile : option string) (creds : option RefreshableCredentials)
| Call_client (service : string) (region : option string)
| Call_get_caller_identity (s : Session)
| Call_assume_role (s : Session) (kw : kwargs)
| Call_describe_account (creds : StsCredentials) (account : option string)
| Call_list_tags_for_resource (creds : StsCredentials) (account : option string)
| Call_describe_hub (region : string)
| Call_list_enabled_products_for_import (region : string)
| Call_get_findings (region : string) (filters : FindingsFilter)
| Call_batch_import_findings (region : string) (findings : list Finding).

#[global] Instance ApiCall_eq_dec : EqDecision ApiCall.
Proof. solve_decision. Defined.

(** The world: the records written through [logger], the calls made so far
    (oldest first) and the state of the finding store. *)
Record World (St : Type) : Type := mkWorld {
  logs : list LogRecord;
  calls : list ApiCall;
  hub : St
}.
Arguments mkWorld {St} logs calls hub.
Arguments logs {St} w.
Arguments calls {St} w.
Arguments hub {St} w.

Definition Run (St A : Type) : Type := World St -> Outcome A * World St.

Definition ret {St A} (a : A) : Run St A := fun w => (Return a, w).

Definition bind {St A B} (m : Run St A) (k : A -> Run St B) : Run St B :=
  fun w =>
    match m w with
    | (Return a, w') => k a w'
    | (Raise e, w') => (Raise e, w')
    | (SysExit, w') => (SysExit, w')
    end.

Notation "x <- m ;; k" := (bind m (fun x => k))
  (at level 63, m at next level, right associativity).
Notation "m ;;; k" := (bind m (fun _ => k))
  (at level 63, right associativity).

Definition raise {St A} (e : PyExc) : Run St A := fun w => (Raise e, w).

(** [sys.exit()]. *)
Definition sys_exit {St A} : Run St A := fun w => (SysExit, w).

(** [try: body / except Exception as error: handler error]. [SystemExit] is
    not an [Exception] and passes through. *)
Definition try_except {St A} (body : Run St A) (handler : PyExc -> Run St A)
  : Run St A :=
  fun w =>
    match body w with
    | (Raise e, w') => handler e w'
    | r => r
    end.

Definition logger {St} (lvl : Level) (m : string) : Run St unit :=
  fun w => (Return tt, mkWorld (logs w ++ [mkLog lvl m]) (calls w) (hub w)).

Definition logger_info {St} := @logger St INFO.
Definition logger_error {St} := @logger St ERROR.
Definition logger_critical {St} := @logger St CRITICAL.

(** Recording a call to a collaborator. *)
Definition record {St} (c : ApiCall) : Run St unit :=
  fun w => (Return tt, mkWorld (logs w) (calls w ++ [c]) (hub w)).

(** A call whose answer does not depend on the store. *)
Definition api {St A} (c : ApiCall) (r : Result A) : Run St A :=
  record c ;;;
  match r with
  | inl e => raise e
  | inr a => ret a
  end.

(** The handler every fatal path of the source shares:
    [logger.critical(f"{error.__class__.__name__} -- {error}"); sys.exit()]. *)
Definition critical_exit {St A} (error : PyExc) : Run St A :=
  logger_critical (exc_class error ++ " -- " ++ exc_msg error) ;;; sys_exit.

(** [for x in l: body x]. *)
Fixpoint for_each {St A} (l : list A) (body : A -> Run St unit) : Run St unit :=
  match l with
  | [] => ret tt
  | x :: l' => body x ;;; for_each l' body
  end.

(** ** Identity and session lifecycle (lines 25-279) *)

(** The collaborators of the bootstrap: boto3, the token service, the
    organizations endpoints, and the two ARN parsers ([arnparse], and
    [lib.arn.arn.arn_parsing], which is not part of the sources at hand and
    is taken as a parameter). Their answers do not depend on the run. *)
Record AwsEnv : Type := mkEnv {
  (** [session.Session(profile_name=..., botocore_session=...)]: the region
      the new session resolves to, or the exception raised. *)
  boto3_Session :
    option string -> option RefreshableCredentials -> Result (option string);
  (** [client(service, region_name=...)]: the exception raised, if any. *)
  boto3_client : string -> option string -> option PyExc;
  sts_get_caller_identity : Session -> Result CallerIdentity;
  sts_assume_role : Session -> kwargs -> Result AssumeRoleResponse;
  organizations_describe_account :
    StsCredentials -> option string -> Result OrgAccount;
  organizations_list_tags_for_resource :
    StsCredentials -> option string -> Result (list Tag);
  arnparse : string -> Result ParsedArn;
  arn_parsing : string -> Result ParsedArn;
  (** [datetime.isoformat()]. *)
  isoformat : Z -> string
}.

(** The exception with which the environment answers a call of the
    bootstrap, if it fails it. *)
Definition call_failure (env : AwsEnv) (c : ApiCall) : option PyExc :=
  match c with
  | Call_Session p cr =>
      match boto3_Session env p cr with inl e => Some e | inr _ => None end
  | Call_client s r => boto3_client env s r
  | Call_get_caller_identity s =>
      match sts_get_caller_identity env s with inl e => Some e | inr _ => None end
  | Call_assume_role s kw =>
      match sts_assume_role env s kw with inl e => Some e | inr _ => None end
  | Call_describe_account cr a =>
      match organizations_describe_account env cr a with
      | inl e => Some e | inr _ => None end
  | Call_list_tags_for_resource cr a =>
      match organizations_list_tags_for_resource env cr a with
      | inl e => Some e | inr _ => None end
  | _ => None
  end.

Definition new_client {St} (env : AwsEnv) (service : string)
  (region : option string) : Run St unit :=
  api (Call_client service region)
      (match boto3_client env service region with
       | Some e => inl e
       | None => inr tt
       end).

(** [audit_info.original_session]: the attribute exists on the audit info
    only. *)
Definition getattr_original_session {St} (o : PyObject)
  : Run St (option Session) :=
  match o with
  | Obj_Audit_Info a => ret (original_session a)
  | Obj_Assume_Role _ =>
      raise (mkExc "AttributeError"
        "'AWS_Assume_Role' object has no attribute 'original_session'")
  end.

Definition getattr_assumed_role_info {St} (o : PyObject)
  : Run St AWS_Assume_Role :=
  match o with
  | Obj_Audit_Info a => ret (assumed_role_info a)
  | Obj_Assume_Role _ =>
      raise (mkExc "AttributeError"
        "'AWS_Assume_Role' object has no attribute 'assumed_role_info'")
  end.

(** [session.client("sts")] on a value that may be [None]. *)
Definition session_client {St} (env : AwsEnv) (s : option Session)
  (service : string) : Run St Session :=
  match s with
  | Some s' => new_client env service None ;;; ret s'
  | None =>
      raise (mkExc "AttributeError"
        "'NoneType' object has no attribute 'client'")
  end.

(** Lines 221-245. *)
Definition assume_role {St} (env : AwsEnv) (audit_info : PyObject)
  : Run St AssumeRoleResponse :=
  try_except
    (original_session <- getattr_original_session audit_info ;;
     sts_client <- session_client env original_session "sts" ;;
     role_info <- getattr_assumed_role_info audit_info ;;
     if truthy_str (external_id role_info) then
       let kw := [("RoleArn", val_of_str (role_arn role_info));
                  ("RoleSessionName", VStr "ProwlerProAsessmentSession");
                  ("DurationSeconds", val_of_int (session_duration role_info));
                  ("ExternalId", val_of_str (external_id role_info))] in
       api (Call_assume_role sts_client kw) (sts_assume_role env sts_client kw)
     else
       let kw := [("RoleArn", val_of_str (role_arn role_info));
                  ("RoleSessionName", VStr "ProwlerProAsessmentSession");
                  ("DurationSeconds", val_of_int (session_duration role_info))] in
       api (Call_assume_role sts_client kw) (sts_assume_role env sts_client kw))
    critical_exit.

(** The dictionary [refresh] returns to botocore. *)
Record RefreshedCredentials : Type := mkRefreshed {
  r_access_key : string;
  r_secret_key : string;
  r_token : string;
  r_expiry_time : string
}.

Definition str_of_refreshed (d : RefreshedCredentials) : string :=
  "{'access_key': '" ++ r_access_key d ++ "', 'secret_key': '"
  ++ r_secret_key d ++ "', 'token': '" ++ r_token d
  ++ "', 'expiry_time': '" ++ r_expiry_time d ++ "'}".

(** Lines 72-86, [AWS_Provider.refresh], on [self.role_info]. *)
Definition refresh {St} (env : AwsEnv) (self_role_info : AWS_Assume_Role)
  : Run St RefreshedCredentials :=
  logger_info "Refreshing assumed credentials..." ;;;
  response <- assume_role env (Obj_Assume_Role self_role_info) ;;
  let refreshed_credentials :=
    mkRefreshed (AccessKeyId (Credentials response))
                (SecretAccessKey (Credentials response))
                (SessionToken (Credentials response))
                (isoformat env (Expiration (Credentials response))) in
  logger_info "Refreshed Credentials:" ;;;
  logger_info (str_of_refreshed refreshed_credentials) ;;;
  ret refreshed_credentials.

(** Calling the callback botocore holds. *)
Definition call_refresh_using {St} (env : AwsEnv) (m : BoundMethod)
  : Run St RefreshedCredentials :=
  match m with
  | AWS_Provider_refresh role_info => refresh env role_info
  end.

(** Lines 34-67, [AWS_Provider.set_session]; [self_refresh] is the bound
    method [self.refresh]. *)
Definition set_session {St} (env : AwsEnv) (self_refresh : BoundMethod)
  (audit_info : AWS_Audit_Info) : Run St Session :=
  try_except
    (match credentials audit_info with
     | Some c =>
         logger_info "Creating session for assumed role ..." ;;;
         let assumed_refreshable_credentials :=
           mkRefreshable (aws_access_key_id c) (aws_secret_access_key c)
                         (aws_session_token c) (expiration c)
                         self_refresh "sts-assume-role" in
         region <- api (Call_Session (profile audit_info)
                          (Some assumed_refreshable_credentials))
                       (boto3_Session env (profile audit_info)
                          (Some assumed_refreshable_credentials)) ;;
         ret (mkSession (profile audit_info)
                        (Some assumed_refreshable_credentials) region)
     | None =>
         logger_info "Creating session for not assumed identity ..." ;;;
         region <- api (Call_Session (profile audit_info) None)
                       (boto3_Session env (profile audit_info) None) ;;
         ret (mkSession (profile audit_info) None region)
     end)
    critical_exit.

(** The provider object: [self.aws_session] and [self.role_info]. *)
Record AWS_Provider : Type := mkProvider {
  aws_session : Session;
  role_info : AWS_Assume_Role
}.

(** Lines 26-29, [AWS_Provider.__init__]. *)
Definition AWS_Provider_init {St} (env : AwsEnv) (audit_info : AWS_Audit_Info)
  : Run St AWS_Provider :=
  logger_info "Instantiating aws provider ..." ;;;
  s <- set_session env (AWS_Provider_refresh (assumed_role_info audit_info))
         audit_info ;;
  ret (mkProvider s (assumed_role_info audit_info)).

Definition get_session (self : AWS_Provider) : Session := aws_session self.

(** Lines 210-218. *)
Definition validate_credentials {St} (env : AwsEnv)
  (validate_session : option Session) : Run St CallerIdentity :=
  try_except
    (validate_credentials_client <- session_client env validate_session "sts" ;;
     api (Call_get_caller_identity validate_credentials_client)
         (sts_get_caller_identity env validate_credentials_client))
    critical_exit.

(** Lines 248-279. *)
Definition get_organizations_metadata {St} (env : AwsEnv)
  (metadata_account : option string) (assumed_credentials : AssumeRoleResponse)
  : Run St AWS_Organizations_Info :=
  r <- try_except
         (new_client env "organizations" None ;;;
          organizations_metadata <-
            api (Call_describe_account (Credentials assumed_credentials)
                   metadata_account)
                (organizations_describe_account env
                   (Credentials assumed_credentials) metadata_account) ;;
          list_tags_for_resource <-
            api (Call_list_tags_for_resource (Credentials assumed_credentials)
                   metadata_account)
                (organizations_list_tags_for_resource env
                   (Credentials assumed_credentials) metadata_account) ;;
          ret (organizations_metadata, list_tags_for_resource))
         critical_exit ;;
  let '(organizations_metadata, list_tags_for_resource) := r in
  let account_details_tags :=
    fold_left (fun acc tag => acc ++ Key tag ++ ":" ++ Value tag ++ ",")
              list_tags_for_resource "" in
  match split "/" (OrgArn organizations_metadata) !! 1%nat with
  | Some org =>
      ret (mkOrgInfo (Email organizations_metadata)
                     (Name organizations_metadata)
                     (OrgArn organizations_metadata)
                     org account_details_tags)
  | None => raise (mkExc "IndexError" "list index out of range")
  end.

(** Assignments to the attributes of [current_audit_info]. *)
Definition set_original_session (v : option Session) (a : AWS_Audit_Info) :=
  mkAuditInfo v (audit_session a) (audited_account a) (audited_partition a)
    (profile a) (profile_region a) (credentials a) (assumed_role_info a)
    (audited_regions a) (organizations_metadata a).

Definition set_audit_session (v : option Session) (a : AWS_Audit_Info) :=
  mkAuditInfo (original_session a) v (audited_account a) (audited_partition a)
    (profile a) (profile_region a) (credentials a) (assumed_role_info a)
    (audited_regions a) (organizations_metadata a).

Definition set_audited_account (v : option string) (a : AWS_Audit_Info) :=
  mkAuditInfo (original_session a) (audit_session a) v (audited_partition a)
    (profile a) (profile_region a) (credentials a) (assumed_role_info a)
    (audited_regions a) (organizations_metadata a).

Definition set_audited_partition (v : option string) (a : AWS_Audit_Info) :=
  mkAuditInfo (original_session a) (audit_session a) (audited_account a) v
    (profile a) (profile_region a) (credentials a) (assumed_role_info a)
    (audited_regions a) (organizations_metadata a).

Definition set_profile_region (v : option string) (a : AWS_Audit_Info) :=
  mkAuditInfo (original_session a) (audit_session a) (audited_account a)
    (audited_partition a) (profile a) v (credentials a) (assumed_role_info a)
    (audited_regions a) (organizations_metadata a).

Definition set_credentials (v : option AWS_Credentials) (a : AWS_Audit_Info) :=
  mkAuditInfo (original_session a) (audit_session a) (audited_account a)
    (audited_partition a) (profile a) (profile_region a) v
    (assumed_role_info a) (audited_regions a) (organizations_metadata a).

Definition set_assumed_role_info (v : AWS_Assume_Role) (a : AWS_Audit_Info) :=
  mkAuditInfo (original_session a) (audit_session a) (audited_account a)
    (audited_partition a) (profile a) (profile_region a) (credentials a) v
    (audited_regions a) (organizations_metadata a).

Definition set_organizations_metadata (v : option AWS_Organizations_Info)
  (a : AWS_Audit_Info) :=
  mkAuditInfo (original_session a) (audit_session a) (audited_account a)
    (audited_partition a) (profile a) (profile_region a) (credentials a)
    (assumed_role_info a) (audited_regions a) v.

Definition set_audited_regions (v : option (list string))
  (a : AWS_Audit_Info) :=
  mkAuditInfo (original_session a) (audit_session a) (audited_account a)
    (audited_partition a) (profile a) (profile_region a) (credentials a)
    (assumed_role_info a) v (organizations_metadata a).

(** [str(x)] inside an f-string, for a value that may be [None]. *)
Definition str_of_opt (o : option string) : string :=
  match o with Some s => s | None => "None" end.

(** Lines 135-157: the organizations link. Gives the audit info and the
    local [role_arn_parsed] as the block leaves them. *)
Definition organizations_link {St} (env : AwsEnv)
  (input_session_duration : option Z) (organizations_role_arn : option string)
  (current_audit_info : AWS_Audit_Info)
  : Run St (AWS_Audit_Info * option ParsedArn) :=
  logger_info "Checking if organizations role assumption is needed ..." ;;;
  if truthy_str organizations_role_arn then
    let current_audit_info :=
      set_assumed_role_info
        (mkAssumeRole organizations_role_arn input_session_duration
           (external_id (assumed_role_info current_audit_info)))
        current_audit_info in
    role_arn_parsed <-
      try_except
        (match arn_parsing env (str_of_opt organizations_role_arn) with
         | inl e => raise e
         | inr p => ret p
         end)
        critical_exit ;;
    logger_info ("Getting organizations metadata for account "
                 ++ str_of_opt organizations_role_arn) ;;;
    assumed_credentials <- assume_role env (Obj_Audit_Info current_audit_info) ;;
    md <- get_organizations_metadata env (audited_account current_audit_info)
            assumed_credentials ;;
    logger_info "Organizations metadata retrieved" ;;;
    ret (set_organizations_metadata (Some md) current_audit_info,
         Some role_arn_parsed)
  else ret (current_audit_info, None).

(** Lines 159-190: the workload link. Gives the audit info, the local
    [role_arn_parsed] and the local [assumed_session]. *)
Definition workload_link {St} (env : AwsEnv)
  (input_role : option string) (input_session_duration : option Z)
  (input_external_id : option string)
  (current_audit_info : AWS_Audit_Info) (role_arn_parsed : option ParsedArn)
  : Run St (AWS_Audit_Info * option ParsedArn * option Session) :=
  logger_info "Checking if role assumption is needed ..." ;;;
  if truthy_str input_role then
    let current_audit_info :=
      set_assumed_role_info
        (mkAssumeRole input_role input_session_duration input_external_id)
        current_audit_info in
    role_arn_parsed <-
      try_except
        (match arn_parsing env (str_of_opt input_role) with
         | inl e => raise e
         | inr p => ret p
         end)
        critical_exit ;;
    logger_info ("Assuming role "
                 ++ str_of_opt (role_arn (assumed_role_info current_audit_info))) ;;;
    assumed_role_response <-
      assume_role env (Obj_Audit_Info current_audit_info) ;;
    logger_info "Role assumed" ;;;
    let current_audit_info :=
      set_credentials
        (Some (mkCredentials
                 (AccessKeyId (Credentials assumed_role_response))
                 (SessionToken (Credentials assumed_role_response))
                 (SecretAccessKey (Credentials assumed_role_response))
                 (Expiration (Credentials assumed_role_response))))
        current_audit_info in
    p <- AWS_Provider_init env current_audit_info ;;
    ret (current_audit_info, Some role_arn_parsed, Some (get_session p))
  else ret (current_audit_info, role_arn_parsed, None).

(** Lines 89-207. The global [current_audit_info] is threaded through and
    returned. *)
Definition provider_set_session {St} (env : AwsEnv)
  (input_profile : option string) (input_role : option string)
  (input_session_duration : option Z) (input_external_id : option string)
  (input_regions : option (list string))
  (organizations_role_arn : option string) : Run St AWS_Audit_Info :=
  let current_audit_info :=
    mkAuditInfo None None None None input_profile None None
      (mkAssumeRole None None None) input_regions None in
  logger_info "Generating original session ..." ;;;
  p <- AWS_Provider_init env current_audit_info ;;
  let current_audit_info :=
    set_original_session (Some (get_session p)) current_audit_info in
  logger_info "Validating credentials ..." ;;;
  caller_identity <-
    validate_credentials env (original_session current_audit_info) ;;
  logger_info "Credentials validated" ;;;
  logger_info ("Original caller identity UserId : " ++ UserId caller_identity) ;;;
  logger_info ("Original caller identity ARN : " ++ Arn caller_identity) ;;;
  let current_audit_info :=
    set_audited_account (Some (Account caller_identity)) current_audit_info in
  caller_arn <- match arnparse env (Arn caller_identity) with
                | inl e => raise e
                | inr p => ret p
                end ;;
  let current_audit_info :=
    set_audited_partition (Some (partition caller_arn)) current_audit_info in
  r1 <- organizations_link env input_session_duration organizations_role_arn
          current_audit_info ;;
  let '(current_audit_info, role_arn_parsed) := r1 in
  r2 <- workload_link env input_role input_session_duration input_external_id
          current_audit_info role_arn_parsed ;;
  let '(current_audit_info, role_arn_parsed, assumed_session) := r2 in
  current_audit_info <-
    match assumed_session with
    | Some s =>
        logger_info "Audit session is the new session created assuming role" ;;;
        match role_arn_parsed with
        | Some parsed =>
            ret (set_audited_partition (Some (partition parsed))
                   (set_audited_account (Some (account_id parsed))
                      (set_audit_session (Some s) current_audit_info)))
        | None =>
            raise (mkExc "UnboundLocalError"
              "local variable 'role_arn_parsed' referenced before assignment")
        end
    | None =>
        logger_info "Audit session is the original one" ;;;
        ret (set_audit_session (original_session current_audit_info)
               current_audit_info)
    end ;;
  match audit_session current_audit_info with
  | Some s =>
      if truthy_str (region_name s) then
        ret (set_profile_region (region_name s) current_audit_info)
      else ret (set_profile_region (Some "us-east-1") current_audit_info)
  | None =>
      raise (mkExc "AttributeError"
        "'NoneType' object has no attribute 'region_name'")
  end.

(** ** Regional client fan-out (lines 282-299) *)

(** Lines 294-297: the loop over the regions, from the clients built so
    far. *)
Fixpoint regional_clients_loop {St} (env : AwsEnv) (service : string)
  (audit_info : AWS_Audit_Info) (regions : list string)
  (regional_clients : list Client) : Run St (list Client) :=
  match regions with
  | [] => ret regional_clients
  | region :: regions' =>
      match audit_session audit_info with
      | None =>
          raise (mkExc "AttributeError"
            "'NoneType' object has no attribute 'client'")
      | Some s =>
          new_client env service (Some region) ;;;
          regional_clients_loop env service audit_info regions'
            (regional_clients ++ [mkClient service s region])%list
      end
  end.

(** Lines 287-293: the regions of the service in the audited partition,
    narrowed to the requested ones when there are any. The order in which
    Python lists a set is unspecified; here it is the order of [elements]. *)
Definition regions_for (json_regions : list string)
  (audited_regions : option (list string)) : list string :=
  if truthy_list audited_regions then
    elements ((list_to_set json_regions : gset string)
                ∩ list_to_set (default [] audited_regions))
  else json_regions.

(** [data["services"][service]["regions"][partition]] on the parsed
    capability table, which is taken as a parameter. *)
Definition json_regions_of {St}
  (data : gmap string (gmap string (list string)))
  (service : string) (partition : option string) : Run St (list string) :=
  match data !! service with
  | None => raise (mkExc "KeyError" service)
  | Some regions_of_service =>
      match partition with
      | None => raise (mkExc "KeyError" "None")
      | Some p =>
          match regions_of_service !! p with
          | None => raise (mkExc "KeyError" p)
          | Some l => ret l
          end
      end
  end.

(** Lines 287-299, [generate_regional_clients] from the parsed table:
    [data] is what [parse_json_file] returned at line 286. *)
Definition generate_regional_clients {St} (env : AwsEnv)
  (data : gmap string (gmap string (list string)))
  (service : string) (audit_info : AWS_Audit_Info) : Run St (list Client) :=
  json_regions <- json_regions_of data service (audited_partition audit_info) ;;
  let regions := regions_for json_regions (audited_regions audit_info) in
  regional_clients_loop env service audit_info regions [].

(** Lines 282-299, with the reading of the table at lines 285-286.
    [open_file] and [parse_json_file] belong to [lib.utils.utils], which is
    not part of the sources at hand: what the two calls do is taken as a
    parameter, [read_catalog], a computation that gives the parsed table,
    raises, or ends the process, and that may write to the log. *)
Definition generate_regional_clients_reading {St} (env : AwsEnv)
  (read_catalog : Run St (gmap string (gmap string (list string))))
  (service : string) (audit_info : AWS_Audit_Info) : Run St (list Client) :=
  data <- read_catalog ;;
  generate_regional_clients env data service audit_info.

(** ** Security Hub (lines 302-401) *)

(** The finding store, over its state [St]: each call answers from the
    current state; a batch import also changes it. *)
Record SecurityHubApi (St : Type) : Type := mkHubApi {
  securityhub_client : St -> string -> option PyExc;
  describe_hub : St -> string -> option PyExc;
  (** [str(list_enabled_products_for_import())]. *)
  list_enabled_products_for_import : St -> string -> Result string;
  (** The pages of [get_paginator("get_findings").paginate(Filters=...)],
      or the exception raised while they are listed. *)
  get_findings : St -> string -> FindingsFilter -> Result (list (list Finding));
  batch_import_findings :
    St -> string -> list Finding -> Result (St * BatchImportResponse)
}.
Arguments securityhub_client {St} s.
Arguments describe_hub {St} s.
Arguments list_enabled_products_for_import {St} s.
Arguments get_findings {St} s.
Arguments batch_import_findings {St} s.

(** A call answered from the state of the store. *)
Definition hub_call {St A} (c : ApiCall) (f : St -> Result A) : Run St A :=
  fun w =>
    let w' := mkWorld (logs w) (calls w ++ [c])%list (hub w) in
    match f (hub w) with
    | inl e => (Raise e, w')
    | inr a => (Return a, w')
    end.

(** A call that also updates the store. *)
Definition hub_update {St A} (c : ApiCall) (f : St -> Result (St * A))
  : Run St A :=
  fun w =>
    match f (hub w) with
    | inl e => (Raise e, mkWorld (logs w) (calls w ++ [c]) (hub w))
    | inr (st, a) => (Return a, mkWorld (logs w) (calls w ++ [c]) st)
    end.

Definition unit_result (o : option PyExc) : Result unit :=
  match o with Some e => inl e | None => inr tt end.

(** [session.client("securityhub", region_name=region)]. *)
Definition session_hub_client {St} (sh : SecurityHubApi St)
  (session : option Session) (region : string) : Run St unit :=
  match session with
  | None =>
      raise (mkExc "AttributeError"
        "'NoneType' object has no attribute 'client'")
  | Some _ =>
      hub_call (Call_client "securityhub" (Some region))
               (fun st => unit_result (securityhub_client sh st region))
  end.

(** Lines 323-327 and again lines 395-399: what follows a batch import. *)
Definition report_failed_import {St} (batch_import : BatchImportResponse)
  : Run St unit :=
  if (0 <? FailedCount batch_import)%Z then
    match FailedFindings batch_import !! 0%nat with
    | Some failed_import =>
        logger_error
          ("Failed to send archived findings to AWS Security Hub -- "
           ++ ErrorCode failed_import ++ " -- " ++ ErrorMessage failed_import)
    | None => raise (mkExc "IndexError" "list index out of range")
    end
  else ret tt.

(** Lines 302-330. *)
Definition send_to_security_hub {St} (sh : SecurityHubApi St)
  (region : string) (finding_output : Finding) (session : option Session)
  : Run St unit :=
  try_except
    (logger_info "Sending findings to Security Hub." ;;;
     session_hub_client sh session region ;;;
     hub_call (Call_describe_hub region)
              (fun st => unit_result (describe_hub sh st region)) ;;;
     products <- hub_call (Call_list_enabled_products_for_import region)
                   (fun st => list_enabled_products_for_import sh st region) ;;
     (if negb (str_contains "prowler/prowler" products) then
        logger_error
          ("Security Hub is enabled in " ++ region
           ++ " but Prowler integration does not accept findings. More info: https://github.com/prowler-cloud/prowler/#security-hub-integration")
      else ret tt) ;;;
     batch_import <-
       hub_update (Call_batch_import_findings region [finding_output])
         (fun st => batch_import_findings sh st region [finding_output]) ;;
     report_failed_import batch_import)
    (fun error =>
       logger_error (exc_class error ++ " -- " ++ exc_msg error
                     ++ " in region " ++ region)).

(** [sorted(json_asff_file, key=itemgetter("ProductArn"))]: a stable sort
    on the product ARN. *)
Fixpoint insert_by_ProductArn (x : Finding) (l : list Finding) : list Finding :=
  match l with
  | [] => [x]
  | y :: l' =>
      if String.leb (ProductArn x) (ProductArn y) then x :: y :: l'
      else y :: insert_by_ProductArn x l'
  end.

Definition sorted (json_asff_file : list Finding) : list Finding :=
  foldr insert_by_ProductArn [] json_asff_file.

(** [groupby(json_asff_file, key=itemgetter("ProductArn"))]: the maximal
    runs of consecutive findings with the same product ARN, each with its
    key. *)
Fixpoint groupby (l : list Finding) : list (string * list Finding) :=
  match l with
  | [] => []
  | x :: l' =>
      match groupby l' with
      | (k, g) :: gs =>
          if String.eqb (ProductArn x) k then (k, x :: g) :: gs
          else (ProductArn x, [x]) :: (k, g) :: gs
      | [] => [(ProductArn x, [x])]
      end
  end.

(** Lines 358-360. *)
Definition current_findings_ids (current_findings : list Finding)
  : list string :=
  fold_left (fun ids finding => (ids ++ [Id finding])%list) current_findings [].

(** Lines 365-372. *)
Definition findings_filter (audited_account : option string) (region : string)
  : FindingsFilter :=
  mkFilter [mkStringFilter (VStr "Prowler") "EQUALS"]
           [mkStringFilter (VStr "ACTIVE") "EQUALS"]
           [mkStringFilter (val_of_str audited_account) "EQUALS"]
           [mkStringFilter (VStr region) "EQUALS"].

(** [x not in ids]. *)
Definition not_in (x : string) (ids : list string) : bool :=
  negb (existsb (String.eqb x) ids).

(** [finding["RecordState"] = "ARCHIVED"] and the new [UpdatedAt] of lines
    379-382. *)
Definition archived (timestamp : string) (finding : Finding) : Finding :=
  set_UpdatedAt timestamp (set_RecordState "ARCHIVED" finding).

(** Lines 374-384: the two nested loops over the pages and their findings.
    [timestamp] is [timestamp_utc.strftime("%Y-%m-%dT%H:%M:%SZ")]. *)
Definition findings_to_archive (timestamp : string) (ids : list string)
  (pages : list (list Finding)) : list Finding :=
  fold_left
    (fun acc page =>
       fold_left
         (fun acc finding =>
            if not_in (Id finding) ids then
              (acc ++ [archived timestamp finding])%list
            else acc)
         page acc)
    pages [].

(** Lines 392-399: the body of the loop over the batches. *)
Definition submit_findings {St} (sh : SecurityHubApi St) (region : string)
  (findings : list Finding) : Run St unit :=
  batch_import <-
    hub_update (Call_batch_import_findings region findings)
      (fun st => batch_import_findings sh st region findings) ;;
  report_failed_import batch_import.

(** Lines 352-399: the body of the [try] for one group. *)
Definition archive_previous_findings {St} (sh : SecurityHubApi St)
  (audit_info : AWS_Audit_Info) (timestamp : string)
  (region : string) (current_findings : list Finding) : Run St unit :=
  session_hub_client sh (audit_session audit_info) region ;;;
  hub_call (Call_describe_hub region)
           (fun st => unit_result (describe_hub sh st region)) ;;;
  let ids := current_findings_ids current_findings in
  session_hub_client sh (audit_session audit_info) region ;;;
  let filters := findings_filter (audited_account audit_info) region in
  pages <- hub_call (Call_get_findings region filters)
             (fun st => get_findings sh st region filters) ;;
  let to_archive := findings_to_archive timestamp ids pages in
  logger_info ("Archiving " ++ str_of_nat (length to_archive) ++ " findings.") ;;;
  for_each (list_chunked to_archive) (submit_findings sh region).

(** Line 350, [product_arn.split(":")[3]]: the region a product ARN
    encodes, its 4th colon-delimited segment, when it has one. *)
Definition region_of (product_arn : string) : option string :=
  split ":" product_arn !! 3%nat.

(** Lines 350-401: one turn of the loop over the groups. *)
Definition resolve_group {St} (sh : SecurityHubApi St)
  (audit_info : AWS_Audit_Info) (timestamp : string)
  (group : string * list Finding) : Run St unit :=
  let '(product_arn, current_findings) := group in
  match region_of product_arn with
  | None => raise (mkExc "IndexError" "list index out of range")
  | Some region =>
      try_except
        (archive_previous_findings sh audit_info timestamp region
           current_findings)
        (fun error =>
           logger_error (exc_class error ++ " -- " ++ exc_msg error
                         ++ " in region " ++ region))
  end.

(** Lines 334-401. [json_asff_file] is the content of the findings file of
    the run. *)
Definition resolve_security_hub_previous_findings {St}
  (sh : SecurityHubApi St) (json_asff_file : list Finding)
  (audit_info : AWS_Audit_Info) (timestamp : string) : Run St unit :=
  logger_info "Checking previous findings in Security Hub to archive them." ;;;
  let json_asff_file := sorted json_asff_file in
  for_each (groupby json_asff_file) (resolve_group sh audit_info timestamp).

(** ** A model of the finding store

    The store of the spec's external interfaces: a list of findings.
    [queryActiveFindings] lists, page by page, the stored findings a filter
    selects; [submitFindings] takes a batch of 1 to 100 findings, reports
    the ones the store rejects and, for each of the others, replaces the
    stored finding with the same [Id] and [ProductArn], or adds it. What the
    store rejects, and where the hub is not enabled, is left to an oracle. *)
Record StoreOracle : Type := mkOracle {
  (** the exception of [describe_hub] in a region where the hub is not
      enabled *)
  hub_not_enabled : string -> option PyExc;
  (** error code and message for a finding the store rejects *)
  rejected : Finding -> option (string * string);
  (** the enabled product subscriptions of a region, printed *)
  enabled_products : string -> string
}.

Definition condition_holds (v : string) (c : StringFilter) : bool :=
  String.eqb (Comparison c) "EQUALS" && bool_decide (FValue c = VStr v).

Definition field_matches (conditions : list StringFilter) (v : string) : bool :=
  match conditions with
  | [] => true
  | _ => existsb (condition_holds v) conditions
  end.

Definition finding_matches (flt : FindingsFilter) (f : Finding) : bool :=
  field_matches (FProductName flt) (ProductName f)
  && field_matches (FRecordState flt) (RecordState f)
  && field_matches (FAwsAccountId flt) (AwsAccountId f)
  && field_matches (FRegion flt) (Region f).

Definition same_finding (g f : Finding) : bool :=
  String.eqb (Id g) (Id f) && String.eqb (ProductArn g) (ProductArn f).

Definition upsert (store : list Finding) (g : Finding) : list Finding :=
  if existsb (same_finding g) store
  then map (fun f => if same_finding g f then g else f) store
  else (store ++ [g])%list.

Definition is_rejected (o : StoreOracle) (f : Finding) : bool :=
  match rejected o f with Some _ => true | None => false end.

Definition failed_finding (o : StoreOracle) (f : Finding)
  : option FailedFinding :=
  match rejected o f with
  | Some (code, msg) => Some (mkFailed (Id f) code msg)
  | None => None
  end.

Definition store_batch_import (o : StoreOracle) (store : list Finding)
  (batch : list Finding) : Result (list Finding * BatchImportResponse) :=
  if (length batch =? 0)%nat || (100 <? length batch)%nat then
    inl (mkExc "ParamValidationError" "Invalid length for parameter Findings")
  else
    let failed := omap (failed_finding o) batch in
    let accepted := filter (fun f => is_rejected o f = false) batch in
    inr (fold_left upsert accepted store,
         mkBatchResponse (Z.of_nat (length failed))
                         (Z.of_nat (length accepted)) failed).

Definition ListStore (o : StoreOracle) : SecurityHubApi (list Finding) :=
  mkHubApi (list Finding)
    (fun _ _ => None)
    (fun _ region => hub_not_enabled o region)
    (fun _ region => inr (enabled_products o region))
    (fun store _ flt =>
       inr (list_chunked (filter (fun f => finding_matches flt f = true) store)))
    (fun store _ batch => store_batch_import o store batch).

(** ** Observations on a run *)

(** The [ERROR] records of a log. *)
Definition errors (l : list LogRecord) : list LogRecord :=
  filter (fun r => levelname r = ERROR) l.

(** The store queries of a trace: region and filter. *)
Definition queries (cs : list ApiCall) : list (string * FindingsFilter) :=
  omap (fun c => match c with
                 | Call_get_findings r flt => Some (r, flt)
                 | _ => None
                 end) cs.

(** The batches submitted in a trace: region and findings. *)
Definition submissions (cs : list ApiCall) : list (string * list Finding) :=
  omap (fun c => match c with
                 | Call_batch_import_findings r b => Some (r, b)
                 | _ => None
                 end) cs.

(** The assume-role requests of a trace. *)
Definition assume_role_requests (cs : list ApiCall) : list kwargs :=
  omap (fun c => match c with
                 | Call_assume_role _ kw => Some kw
                 | _ => None
                 end) cs.

(** The regions for which a trace constructs a client of a service. *)
Definition client_regions (service : string) (cs : list ApiCall) : list string :=
  omap (fun c => match c with
                 | Call_client s (Some r) =>
                     if String.eqb s service then Some r else None
                 | _ => None
                 end) cs.

Definition world0 {St} (st : St) : World St := mkWorld [] [] st.

(** The calls and the log records a run adds to a world. *)
Definition new_calls {St} (w w' : World St) : list ApiCall :=
  drop (length (calls w)) (calls w').

Definition new_logs {St} (w w' : World St) : list LogRecord :=
  drop (length (logs w)) (logs w').

(** ** Sample data *)

Module Sample.

Definition prowler_arn (region : string) : string :=
  "arn:aws:securityhub:" ++ region ++ "::product/prowler/prowler".

Definition finding (id product_arn region state : string) : Finding :=
  mkFinding id product_arn "Prowler" state "111111111111" region
            "2022-11-01T00:00:00Z" "".

Definition f1 : Finding :=
  finding "f1" (prowler_arn "us-east-1") "us-east-1" "ACTIVE".
Definition f2 : Finding :=
  finding "f2" (prowler_arn "us-east-1") "us-east-1" "ACTIVE".

(** Two findings of one region whose product ARNs differ. *)
Definition g1 : Finding :=
  finding "g1" "arn:aws:securityhub:eu-west-1::product/prowler/prowler"
          "eu-west-1" "ACTIVE".
Definition g2 : Finding :=
  finding "g2" "arn:aws:securityhub:eu-west-1:111111111111:product/111111111111/default"
          "eu-west-1" "ACTIVE".

Definition accepting : StoreOracle :=
  mkOracle (fun _ => None) (fun _ => None) (fun _ => "prowler/prowler").

(** A store that rejects the finding [f2], and whose hub is not enabled
    in [ap-south-1]. *)
Definition picky : StoreOracle :=
  mkOracle
    (fun r => if String.eqb r "ap-south-1"
              then Some (mkExc "InvalidAccessException"
                               "Account is not subscribed to AWS Security Hub")
              else None)
    (fun f => if String.eqb (Id f) "f2"
              then Some ("InvalidInput", "Finding rejected")
              else None)
    (fun _ => "prowler/prowler").

Definition base_session : Session := mkSession None None (Some "eu-west-1").

Definition audit_info : AWS_Audit_Info :=
  mkAuditInfo (Some base_session) (Some base_session) (Some "111111111111")
    (Some "aws") None (Some "eu-west-1") None (mkAssumeRole None None None)
    None None.

(** An ARN parser for the sample environment: partition and account are
    the 2nd and 5th colon-delimited segments. *)
Definition parse_arn (arn : string) : Result ParsedArn :=
  match split ":" arn with
  | _ :: p :: _ :: _ :: a :: _ => inr (mkParsedArn p a)
  | _ => inl (mkExc "MalformedArnError" arn)
  end.

Definition sts_credentials : StsCredentials :=
  mkStsCredentials "ASIAEXAMPLE" "secret" "token" 1700000000.

(** An environment in which every call succeeds. *)
Definition env : AwsEnv :=
  mkEnv (fun _ _ => inr (Some "eu-west-1"))
        (fun _ _ => None)
        (fun _ => inr (mkCallerIdentity "AIDAEXAMPLE" "111111111111"
                         "arn:aws:iam::111111111111:user/auditor"))
        (fun _ _ => inr (mkAssumeRoleResponse sts_credentials))
        (fun _ _ => inr (mkOrgAccount "a@example.com" "audit"
                           "arn:aws:organizations::999999999999:account/o-abc/111111111111"))
        (fun _ _ => inr [mkTag "env" "prod"])
        parse_arn parse_arn
        (fun _ => "2023-11-14T22:13:20+00:00").


Definition workload_role : string :=
  "arn:aws:iam::222222222222:role/audit".

Definition services_json : gmap string (gmap string (list string)) :=
  {[ "ec2" := {[ "aws" := ["eu-west-1"; "us-east-1"; "ap-south-1"];
                 "aws-cn" := ["cn-north-1"] ]} ]}.

End Sample.

(** The order of [sorted]: by product ARN. *)
Definition le_ProductArn (f g : Finding) : Prop :=
  String.le (ProductArn f) (ProductArn g).

(** The calls of one group up to its query: two client constructions, the
    hub check and the query (lines 353-375). *)
Definition group_prelude (ai : AWS_Audit_Info) (region : string)
  : list ApiCall :=
  [Call_client "securityhub" (Some region); Call_describe_hub region;
   Call_client "securityhub" (Some region);
   Call_get_findings region (findings_filter (audited_account ai) region)].

(** The query of a group, when its product ARN encodes a region. *)
Definition group_query (ai : AWS_Audit_Info) (group : string * list Finding)
  : option (string * FindingsFilter) :=
  match region_of group.1 with
  | Some region => Some (region, findings_filter (audited_account ai) region)
  | None => None
  end.

(** ** Shapes of runs *)

(** A computation only appends to the log and to the trace. *)
Definition extends {St A} (m : Run St A) : Prop :=
  forall w, exists dl dc,
    logs (m w).2 = (logs w ++ dl)%list /\ calls (m w).2 = (calls w ++ dc)%list.

(** A computation never ends the process by [sys.exit()]. *)
Definition no_exit {St A} (m : Run St A) : Prop :=
  forall w, (m w).1 <> SysExit.

(** ** Sample runs *)

Module SampleRuns.
Import Sample.

(** A store holding 250 active findings of [us-east-1]. *)
Definition store250 : list Finding :=
  map (fun n => finding ("stale-" ++ str_of_nat n) (prowler_arn "us-east-1")
                  "us-east-1" "ACTIVE")
      (seq 0 250).

(** The current run found [f1] only. *)
Definition run250 : Outcome unit * World (list Finding) :=
  archive_previous_findings (ListStore accepting) audit_info
    "2022-11-02T00:00:00Z" "us-east-1" [f1] (world0 store250).

(** The scenario of the spec: [f1] is found again, [f2] is not. *)
Definition run_f1 : Outcome unit * World (list Finding) :=
  resolve_security_hub_previous_findings (ListStore accepting) [f1]
    audit_info "2022-11-02T00:00:00Z" (world0 [f1; f2]).

(** The same run a second time, on the store the first run left. *)
Definition run_f1_again : Outcome unit * World (list Finding) :=
  resolve_security_hub_previous_findings (ListStore accepting) [f1]
    audit_info "2022-11-03T00:00:00Z" (world0 (hub run_f1.2)).


End SampleRuns.

Module SampleFailures.
Import Sample.

(** A finding of the region whose hub is not enabled. *)
Definition h1 : Finding :=
  finding "h1" (prowler_arn "ap-south-1") "ap-south-1" "ACTIVE".

(** The record logged for the rejected finding [f2]. *)
Definition f2_rejected : LogRecord :=
  mkLog ERROR
    "Failed to send archived findings to AWS Security Hub -- InvalidInput -- Finding rejected".

(** A response that reports two failed findings. *)
Definition two_failed : BatchImportResponse :=
  mkBatchResponse 2 0
    [mkFailed "f2" "InvalidInput" "Finding rejected";
     mkFailed "f3" "LimitExceeded" "Too many requests"].

(** A store that answers every import with [two_failed]. *)
Definition failing_hub : SecurityHubApi unit :=
  mkHubApi unit (fun _ _ => None) (fun _ _ => None)
    (fun _ _ => inr "prowler/prowler")
    (fun _ _ _ => inr [])
    (fun _ _ _ => inr (tt, two_failed)).

End SampleFailures.

(** ** Failures of the collaborators *)

(** A computation that lets the exception of a failed call propagate: the
    failed call is the last one it makes. *)
Definition raises_on_failure {St A} (env : AwsEnv) (m : Run St A) : Prop :=
  forall w c e,
    c ∈ new_calls w (m w).2 -> call_failure env c = Some e ->
    (m w).1 = Raise e /\ last (new_calls w (m w).2) = Some c.

(** A computation for which a failed call is fatal: the failed call is the
    last one it makes, the process exits, and the last record of the log is
    the critical record of the exception. *)
Definition fatal_on_failure {St A} (env : AwsEnv) (m : Run St A) : Prop :=
  forall w c e,
    c ∈ new_calls w (m w).2 -> call_failure env c = Some e ->
    (m w).1 = SysExit
    /\ last (new_calls w (m w).2) = Some c
    /\ last (logs (m w).2)
       = Some (mkLog CRITICAL (exc_class e ++ " -- " ++ exc_msg e)).

(** ** Invariants of the store model *)

(** No stored finding that the query of a group selects is missing from the
    group's current findings: the group has nothing to archive. *)
Definition nothing_to_archive (ai : AWS_Audit_Info) (store : list Finding)
  (group : string * list Finding) : Prop :=
  forall region f,
    region_of group.1 = Some region ->
    f ∈ store ->
    finding_matches (findings_filter (audited_account ai) region) f = true ->
    Id f ∈ map Id group.2.

(** Every ACTIVE finding of [store'] was already in [store]. *)
Definition active_within (store store' : list Finding) : Prop :=
  forall f, f ∈ store' -> RecordState f = "ACTIVE" -> f ∈ store.

(** Every stored version of the finding [a] is ARCHIVED. *)
Definition archived_in (a : Finding) (store : list Finding) : Prop :=
  forall e, e ∈ store -> same_finding a e = true -> RecordState e = "ARCHIVED".

Module SampleBootstrap.
Import Sample.


(** The bootstrap with no role, and with the workload role. *)
Definition run_base : Outcome AWS_Audit_Info * World unit :=
  provider_set_session env None None None None None None (world0 tt).

Definition run_workload : Outcome AWS_Audit_Info * World unit :=
  provider_set_session env None (Some workload_role) (Some 3600%Z)
    (Some "shared-secret") None None (world0 tt).

(** The audit info of a role assumption whose external id is the empty
    string, and of one whose external id is not empty. *)
Definition info_with_external_id (x : option string) : AWS_Audit_Info :=
  set_assumed_role_info
    (mkAssumeRole (Some workload_role) (Some 3600%Z) x) audit_info.

(** The audit info from which the session of the assumed role is built. *)
Definition assumed_info : AWS_Audit_Info :=
  set_credentials
    (Some (mkCredentials "ASIAEXAMPLE" "token" "secret" 1000%Z))
    (info_with_external_id None).

End SampleBootstrap.

(** ** Further observations on runs *)

(** Every call a computation adds to the trace satisfies [P]. *)
Definition calls_all {St A} (P : ApiCall -> Prop) (m : Run St A) : Prop :=
  forall w, Forall P (new_calls w (m w).2).

(** What one group of the reconciliation may call: the Security Hub client
    of its region, the hub check, the query with the filter of lines
    365-372, and batches of findings marked ARCHIVED at [ts] whose
    identifier is not one of the group's current findings. *)
Definition group_call_ok (ai : AWS_Audit_Info) (ts region : string)
  (cur : list Finding) (c : ApiCall) : Prop :=
  match c with
  | Call_client s (Some r) => s = "securityhub" /\ r = region
  | Call_describe_hub r => r = region
  | Call_get_findings r flt =>
      r = region /\ flt = findings_filter (audited_account ai) region
  | Call_batch_import_findings r b =>
      r = region /\ b <> []
      /\ Forall (fun f => RecordState f = "ARCHIVED" /\ UpdatedAt f = ts
                          /\ Id f ∉ map Id cur) b
  | _ => False
  end.

(** The same for a whole run on the findings [json]: the call belongs to
    the group of some product ARN of the run. *)
Definition run_call_ok (json : list Finding) (ai : AWS_Audit_Info)
  (ts : string) (c : ApiCall) : Prop :=
  exists arn region,
    arn ∈ map ProductArn json
    /\ region_of arn = Some region
    /\ group_call_ok ai ts region
         (filter (fun f => ProductArn f = arn) json) c.

(** A string in which the character [sep] does not occur. *)
Fixpoint free_of (sep : ascii) (s : string) : bool :=
  match s with
  | EmptyString => true
  | String c s' => negb (Ascii.eqb c sep) && free_of sep s'
  end.

(** ** A store that fails on a batch *)

Module SampleThrottled.
Import Sample.

(** The findings the run of [SampleRuns.run250] archives. *)
Definition archived250 : list Finding :=
  map (archived "2022-11-02T00:00:00Z") SampleRuns.store250.

(** A store that lists [SampleRuns.store250] and raises on the batch that
    starts with the finding [stale-100]. *)
Definition throttled_hub : SecurityHubApi unit :=
  mkHubApi unit (fun _ _ => None) (fun _ _ => None)
    (fun _ _ => inr "prowler/prowler")
    (fun _ _ _ => inr (list_chunked SampleRuns.store250))
    (fun _ _ batch =>
       match batch with
       | f :: _ =>
           if String.eqb (Id f) "stale-100"
           then inl (mkExc "ClientError" "ThrottlingException")
           else inr (tt, mkBatchResponse 0 (Z.of_nat (length batch)) [])
       | [] => inl (mkExc "ParamValidationError"
                      "Invalid length for parameter Findings")
       end).

End SampleThrottled.

(** ** Environments whose answers cannot be read *)

Module SampleMalformed.
Import Sample.

(** An identity endpoint that answers with an ARN [arnparse] rejects. *)
Definition env_bad_caller : AwsEnv :=
  mkEnv (boto3_Session env) (boto3_client env)
        (fun _ => inr (mkCallerIdentity "AIDAEXAMPLE" "111111111111" "auditor"))
        (sts_assume_role env)
        (organizations_describe_account env)
        (organizations_list_tags_for_resource env)
        parse_arn parse_arn (isoformat env).

End SampleMalformed.

(** The number of occurrences of the character [sep] in a string. *)
Fixpoint occurrences (sep : ascii) (s : string) : nat :=
  match s with
  | EmptyString => 0
  | String c s' => (if Ascii.eqb c sep then 1 else 0) + occurrences sep s'
  end.

(** A computation that lets no exception through: it returns, or it ends
    the process after a CRITICAL record that names an exception. *)
Definition returns_or_exits {St A} (m : Run St A) : Prop :=
  forall w,
    match (m w).1 with
    | Return _ => True
    | Raise _ => False
    | SysExit =>
        exists e,
          last (logs (m w).2)
          = Some (mkLog CRITICAL (exc_class e ++ " -- " ++ exc_msg e))
    end.

(** * Properties *)

(** ** Chunking (lines 387-390) *)

Section Chunking.
Context {A : Type}.
Implicit Types l : list A.

Lemma list_chunked_nil : list_chunked (@nil A) = [].
Proof. reflexivity. Qed.

Lemma chunk_count_succ n :
  (0 < n)%nat -> ((n + 100 - 1) / 100 = S ((n - 100 + 100 - 1) / 100))%nat.
Proof.
  intros Hn. destruct (Nat.le_gt_cases 100 n) as [Hge | Hlt].
  - replace (n + 100 - 1)%nat with ((n - 100 + 100 - 1) + 1 * 100)%nat by lia.
    rewrite Nat.div_add by lia. lia.
  - replace (n - 100 + 100 - 1)%nat with 99%nat by lia.
    change (99 / 100)%nat with 0%nat.
    symmetry. apply (Nat.div_unique _ _ _ (n - 1)); lia.
Qed.

Lemma list_chunked_cons l :
  l <> [] -> list_chunked l = take 100 l :: list_chunked (drop 100 l).
Proof.
  intros Hl. unfold list_chunked, py_range.
  rewrite length_drop.
  rewrite (chunk_count_succ (length l)) by (destruct l; simpl; [done | lia]).
  rewrite <- cons_seq, <- seq_shift. cbn [map].
  f_equal.
  rewrite !map_map. apply map_ext. intros k.
  unfold py_slice. rewrite drop_drop.
  replace (S k * 100 + 100 - S k * 100)%nat with (k * 100 + 100 - k * 100)%nat
    by lia.
  by replace (100 + k * 100)%nat with (S k * 100)%nat by lia.
Qed.

Lemma list_chunked_ind (P : list A -> Prop) :
  P [] -> (forall l, l <> [] -> P (drop 100 l) -> P l) -> forall l, P l.
Proof.
  intros Hnil Hstep l.
  remember (length l) as n eqn:Hn. revert l Hn.
  induction n as [n IH] using lt_wf_ind. intros l ->.
  destruct l as [|x l]; [exact Hnil |].
  apply Hstep; [done |]. apply (IH (length (drop 100 (x :: l)))); [| done].
  rewrite length_drop. simpl. lia.
Qed.

Lemma list_chunked_concat l : concat (list_chunked l) = l.
Proof.
  induction l as [| l Hl IH] using list_chunked_ind; [done |].
  rewrite list_chunked_cons by done. simpl. rewrite IH. apply take_drop.
Qed.

Lemma list_chunked_bounds l :
  Forall (fun b => (0 < length b <= 100)%nat) (list_chunked l).
Proof.
  induction l as [| l Hl IH] using list_chunked_ind; [constructor |].
  rewrite list_chunked_cons by done. constructor; [| exact IH].
  rewrite length_take. destruct l; [done | cbn [length]; lia].
Qed.

(** All the batches but the last are full. *)
Lemma list_chunked_full l bs b :
  list_chunked l = (bs ++ [b])%list -> Forall (fun c => length c = 100%nat) bs.
Proof.
  revert bs. induction l as [| l Hl IH] using list_chunked_ind; intros bs.
  - destruct bs; discriminate.
  - rewrite list_chunked_cons by done.
    destruct bs as [| c bs]; [constructor |].
    simpl. intros [= <- Hrest]. constructor; [| by apply IH].
    rewrite length_take.
    assert (drop 100 l <> []) as Hd
      by (intros Hd; rewrite Hd in Hrest; by destruct bs).
    assert (100 < length l)%nat; [| lia].
    destruct (Nat.le_gt_cases (length l) 100) as [Hle | ?]; [| done].
    exfalso. apply Hd. by apply drop_ge.
Qed.
End Chunking.



(** ** The monad *)

Section Monad.
Context {St : Type}.
Implicit Types w : World St.

Lemma bind_Return {A B} (m : Run St A) (k : A -> Run St B) w a w' :
  m w = (Return a, w') -> bind m k w = k a w'.
Proof. unfold bind. by intros ->. Qed.

Lemma bind_Raise {A B} (m : Run St A) (k : A -> Run St B) w e w' :
  m w = (Raise e, w') -> bind m k w = (Raise e, w').
Proof. unfold bind. by intros ->. Qed.

Lemma bind_SysExit {A B} (m : Run St A) (k : A -> Run St B) w w' :
  m w = (SysExit, w') -> bind m k w = (SysExit, w').
Proof. unfold bind. by intros ->. Qed.

Lemma extends_ret {A} (a : A) : extends (@ret St A a).
Proof. intros w. exists [], []. by rewrite !app_nil_r. Qed.

Lemma extends_raise {A} e : extends (@raise St A e).
Proof. intros w. exists [], []. by rewrite !app_nil_r. Qed.

Lemma extends_sys_exit {A} : extends (@sys_exit St A).
Proof. intros w. exists [], []. by rewrite !app_nil_r. Qed.

Lemma extends_logger lvl m : extends (@logger St lvl m).
Proof. intros w. exists [mkLog lvl m], []. by rewrite app_nil_r. Qed.

Lemma extends_record c : extends (@record St c).
Proof. intros w. exists [], [c]. by rewrite app_nil_r. Qed.

Lemma extends_bind {A B} (m : Run St A) (k : A -> Run St B) :
  extends m -> (forall a, extends (k a)) -> extends (bind m k).
Proof.
  intros Hm Hk w. destruct (Hm w) as (dl & dc & Hl & Hc).
  unfold bind. destruct (m w) as [[a | e |] w1]; simpl in *; eauto.
  destruct (Hk a w1) as (dl' & dc' & Hl' & Hc').
  exists (dl ++ dl')%list, (dc ++ dc')%list.
  rewrite Hl', Hc', Hl, Hc, !app_assoc. done.
Qed.

Lemma extends_try_except {A} (m : Run St A) h :
  extends m -> (forall e, extends (h e)) -> extends (try_except m h).
Proof.
  intros Hm Hh w. destruct (Hm w) as (dl & dc & Hl & Hc).
  unfold try_except. destruct (m w) as [[a | e |] w1]; simpl in *; eauto.
  destruct (Hh e w1) as (dl' & dc' & Hl' & Hc').
  exists (dl ++ dl')%list, (dc ++ dc')%list.
  rewrite Hl', Hc', Hl, Hc, !app_assoc. done.
Qed.

Lemma extends_api {A} c (r : Result A) : extends (@api St A c r).
Proof.
  unfold api. apply extends_bind; [apply extends_record |].
  intros _. destruct r; [apply extends_raise | apply extends_ret].
Qed.

Lemma extends_hub_call {A} c (f : St -> Result A) : extends (hub_call c f).
Proof.
  intros w. exists [], [c]. unfold hub_call.
  destruct (f (hub w)); simpl; by rewrite app_nil_r.
Qed.

Lemma extends_hub_update {A} c (f : St -> Result (St * A)) :
  extends (hub_update c f).
Proof.
  intros w. exists [], [c]. unfold hub_update.
  destruct (f (hub w)) as [e | [st a]]; simpl; by rewrite app_nil_r.
Qed.

Lemma extends_for_each {A} (l : list A) body :
  (forall x, extends (body x)) -> extends (@for_each St A l body).
Proof.
  intros Hb. induction l as [| x l IH]; simpl.
  - apply extends_ret.
  - apply extends_bind; auto.
Qed.

Lemma extends_critical_exit {A} e : extends (@critical_exit St A e).
Proof.
  unfold critical_exit. apply extends_bind; [apply extends_logger |].
  intros _. apply extends_sys_exit.
Qed.

Lemma no_exit_ret {A} (a : A) : no_exit (@ret St A a).
Proof. by intros w. Qed.

Lemma no_exit_raise {A} e : no_exit (@raise St A e).
Proof. by intros w. Qed.

Lemma no_exit_logger lvl m : no_exit (@logger St lvl m).
Proof. by intros w. Qed.

Lemma no_exit_bind {A B} (m : Run St A) (k : A -> Run St B) :
  no_exit m -> (forall a, no_exit (k a)) -> no_exit (bind m k).
Proof.
  intros Hm Hk w. specialize (Hm w). unfold bind.
  destruct (m w) as [[a | e |] w1]; simpl in *; [apply Hk | done | done].
Qed.

Lemma no_exit_try_except {A} (m : Run St A) h :
  no_exit m -> (forall e, no_exit (h e)) -> no_exit (try_except m h).
Proof.
  intros Hm Hh w. specialize (Hm w). unfold try_except.
  destruct (m w) as [[a | e |] w1]; simpl in *; [done | apply Hh | done].
Qed.

Lemma no_exit_hub_call {A} c (f : St -> Result A) : no_exit (hub_call c f).
Proof. intros w. unfold hub_call. by destruct (f (hub w)). Qed.

Lemma no_exit_hub_update {A} c (f : St -> Result (St * A)) :
  no_exit (hub_update c f).
Proof. intros w. unfold hub_update. by destruct (f (hub w)) as [e | [st a]]. Qed.

Lemma no_exit_for_each {A} (l : list A) body :
  (forall x, no_exit (body x)) -> no_exit (@for_each St A l body).
Proof.
  intros Hb. induction l as [| x l IH]; simpl.
  - apply no_exit_ret.
  - apply no_exit_bind; auto.
Qed.

Lemma new_calls_app w w' dc :
  calls w' = (calls w ++ dc)%list -> new_calls w w' = dc.
Proof. unfold new_calls. intros ->. by rewrite drop_app_length. Qed.

Lemma new_logs_app w w' dl :
  logs w' = (logs w ++ dl)%list -> new_logs w w' = dl.
Proof. unfold new_logs. intros ->. by rewrite drop_app_length. Qed.

Lemma extends_calls {A} (m : Run St A) w :
  extends m -> calls (m w).2 = (calls w ++ new_calls w (m w).2)%list.
Proof.
  intros Hm. destruct (Hm w) as (dl & dc & _ & Hc).
  by rewrite (new_calls_app _ _ _ Hc).
Qed.

Lemma extends_logs {A} (m : Run St A) w :
  extends m -> logs (m w).2 = (logs w ++ new_logs w (m w).2)%list.
Proof.
  intros Hm. destruct (Hm w) as (dl & dc & Hl & _).
  by rewrite (new_logs_app _ _ _ Hl).
Qed.
End Monad.

Create HintDb run_shape.
#[export] Hint Resolve extends_ret extends_raise extends_sys_exit
  extends_logger extends_record extends_api extends_hub_call
  extends_hub_update extends_critical_exit : run_shape.
#[export] Hint Resolve no_exit_ret no_exit_raise no_exit_logger
  no_exit_hub_call no_exit_hub_update : run_shape.

(** Shape goals follow the structure of the program. *)
Ltac shape :=
  repeat first
    [ progress intros
    | solve [eauto with run_shape]
    | apply extends_bind | apply extends_try_except | apply extends_for_each
    | apply no_exit_bind | apply no_exit_try_except | apply no_exit_for_each
    | match goal with
      | |- extends (match ?x with _ => _ end) => destruct x
      | |- no_exit (match ?x with _ => _ end) => destruct x
      end ].

Lemma extends_report_failed_import {St} resp :
  extends (@report_failed_import St resp).
Proof. unfold report_failed_import, logger_error. shape. Qed.

Lemma no_exit_report_failed_import {St} resp :
  no_exit (@report_failed_import St resp).
Proof. unfold report_failed_import, logger_error. shape. Qed.

#[export] Hint Resolve extends_report_failed_import
  no_exit_report_failed_import : run_shape.

Lemma extends_submit_findings {St} (sh : SecurityHubApi St) region findings :
  extends (submit_findings sh region findings).
Proof. unfold submit_findings. shape. Qed.

Lemma no_exit_submit_findings {St} (sh : SecurityHubApi St) region findings :
  no_exit (submit_findings sh region findings).
Proof. unfold submit_findings. shape. Qed.

Lemma extends_session_hub_client {St} (sh : SecurityHubApi St) s region :
  extends (session_hub_client sh s region).
Proof. unfold session_hub_client. shape. Qed.

Lemma no_exit_session_hub_client {St} (sh : SecurityHubApi St) s region :
  no_exit (session_hub_client sh s region).
Proof. unfold session_hub_client. shape. Qed.

#[export] Hint Resolve extends_submit_findings no_exit_submit_findings
  extends_session_hub_client no_exit_session_hub_client : run_shape.

Lemma extends_archive_previous_findings {St} (sh : SecurityHubApi St)
  ai ts region cur :
  extends (archive_previous_findings sh ai ts region cur).
Proof. unfold archive_previous_findings, logger_info. shape. Qed.

Lemma no_exit_archive_previous_findings {St} (sh : SecurityHubApi St)
  ai ts region cur :
  no_exit (archive_previous_findings sh ai ts region cur).
Proof. unfold archive_previous_findings, logger_info. shape. Qed.

#[export] Hint Resolve extends_archive_previous_findings
  no_exit_archive_previous_findings : run_shape.

Lemma extends_resolve_group {St} (sh : SecurityHubApi St) ai ts group :
  extends (resolve_group sh ai ts group).
Proof.
  unfold resolve_group, logger_error. destruct group as [arn cur]. shape.
Qed.

Lemma no_exit_resolve_group {St} (sh : SecurityHubApi St) ai ts group :
  no_exit (resolve_group sh ai ts group).
Proof.
  unfold resolve_group, logger_error. destruct group as [arn cur]. shape.
Qed.

#[export] Hint Resolve extends_resolve_group no_exit_resolve_group : run_shape.

Lemma extends_resolve {St} (sh : SecurityHubApi St) json ai ts :
  extends (resolve_security_hub_previous_findings sh json ai ts).
Proof.
  unfold resolve_security_hub_previous_findings, logger_info. shape.
Qed.

Lemma extends_send_to_security_hub {St} (sh : SecurityHubApi St) r f s :
  extends (send_to_security_hub sh r f s).
Proof. unfold send_to_security_hub, logger_info, logger_error. shape. Qed.

#[export] Hint Resolve extends_resolve extends_send_to_security_hub : run_shape.

(** ** Reconciliation: the pure parts *)

Lemma fold_left_snoc_map {A B} (f : A -> B) (l : list A) (acc : list B) :
  fold_left (fun ids x => (ids ++ [f x])%list) l acc = (acc ++ map f l)%list.
Proof.
  revert acc. induction l as [| x l IH]; intros acc; simpl.
  - by rewrite app_nil_r.
  - by rewrite IH, <- app_assoc.
Qed.

Lemma current_findings_ids_map (current_findings : list Finding) :
  current_findings_ids current_findings = map Id current_findings.
Proof. unfold current_findings_ids. by rewrite fold_left_snoc_map. Qed.

Lemma not_in_true x (ids : list string) : not_in x ids = true <-> x ∉ ids.
Proof.
  unfold not_in. rewrite negb_true_iff, <- not_true_iff_false, existsb_exists.
  split.
  - intros Hn Hin. apply Hn. exists x. split; [by apply list_elem_of_In |].
    apply String.eqb_refl.
  - intros Hn (y & Hin & Heq). apply String.eqb_eq in Heq as <-.
    by apply Hn, list_elem_of_In.
Qed.

Lemma not_in_false x (ids : list string) : not_in x ids = false <-> x ∈ ids.
Proof.
  rewrite <- not_true_iff_false, not_in_true.
  destruct (decide (x ∈ ids)); naive_solver.
Qed.

Lemma findings_to_archive_page ts ids (page acc : list Finding) :
  fold_left
    (fun acc finding =>
       if not_in (Id finding) ids then (acc ++ [archived ts finding])%list
       else acc) page acc
  = (acc ++ map (archived ts) (filter (fun f => Id f ∉ ids) page))%list.
Proof.
  revert acc. induction page as [| f page IH]; intros acc; simpl.
  - by rewrite app_nil_r.
  - rewrite IH, filter_cons. destruct (not_in (Id f) ids) eqn:Hf.
    + apply not_in_true in Hf. rewrite decide_True by done.
      simpl. by rewrite <- app_assoc.
    + apply not_in_false in Hf. rewrite decide_False by (by intros ?). done.
Qed.

(** The two loops of lines 374-384 select, in the order of the pages, the
    stored findings whose identifier is not a current one, and mark them. *)
Lemma findings_to_archive_filter ts ids (pages : list (list Finding)) :
  findings_to_archive ts ids pages
  = map (archived ts) (filter (fun f => Id f ∉ ids) (concat pages)).
Proof.
  unfold findings_to_archive.
  enough (forall acc,
    fold_left
      (fun acc page =>
         fold_left
           (fun acc finding =>
              if not_in (Id finding) ids
              then (acc ++ [archived ts finding])%list else acc) page acc)
      pages acc
    = (acc ++ map (archived ts)
               (filter (fun f => Id f ∉ ids) (concat pages)))%list) as H
    by apply (H []).
  induction pages as [| page pages IH]; intros acc; simpl.
  - by rewrite app_nil_r.
  - rewrite IH, findings_to_archive_page, filter_app, map_app, app_assoc. done.
Qed.

Lemma archived_RecordState ts f : RecordState (archived ts f) = "ARCHIVED".
Proof. reflexivity. Qed.

Lemma archived_Id ts f : Id (archived ts f) = Id f.
Proof. reflexivity. Qed.

Lemma archived_ProductArn ts f : ProductArn (archived ts f) = ProductArn f.
Proof. reflexivity. Qed.

(** *** Sorting and grouping on the product ARN *)

Lemma insert_by_ProductArn_perm x l : insert_by_ProductArn x l ≡ₚ x :: l.
Proof.
  induction l as [| y l IH]; simpl; [done |].
  destruct (String.leb _ _); [done |].
  rewrite IH. apply Permutation_swap.
Qed.

Lemma sorted_perm l : sorted l ≡ₚ l.
Proof.
  induction l as [| x l IH]; simpl; [done |].
  unfold sorted in *. simpl. by rewrite insert_by_ProductArn_perm, IH.
Qed.

Lemma le_ProductArn_total f g : le_ProductArn f g \/ le_ProductArn g f.
Proof. unfold le_ProductArn. destruct (total String.le (ProductArn f) (ProductArn g)); auto. Qed.

Lemma insert_by_ProductArn_sorted x l :
  StronglySorted le_ProductArn l ->
  StronglySorted le_ProductArn (insert_by_ProductArn x l).
Proof.
  induction 1 as [| y l Hl IH Hy]; simpl.
  - repeat constructor.
  - destruct (String.leb (ProductArn x) (ProductArn y)) eqn:Hxy.
    + constructor; [by constructor |].
      assert (le_ProductArn x y) as Hle
        by (unfold le_ProductArn, String.le; by rewrite Hxy).
      constructor; [done |].
      eapply Forall_impl; [exact Hy |]. intros z Hz.
      unfold le_ProductArn in *. by etrans.
    + constructor; [done |].
      assert (le_ProductArn y x) as Hle.
      { destruct (le_ProductArn_total x y) as [H | H]; [| done].
        unfold le_ProductArn, String.le in H. by rewrite Hxy in H. }
      rewrite insert_by_ProductArn_perm. by constructor.
Qed.

Lemma sorted_sorted l : StronglySorted le_ProductArn (sorted l).
Proof.
  induction l as [| x l IH]; [constructor |].
  by apply insert_by_ProductArn_sorted.
Qed.

Lemma groupby_concat l : concat (map snd (groupby l)) = l.
Proof.
  induction l as [| x l IH]; [done |]. simpl.
  destruct (groupby l) as [| [k g] gs]; simpl in *; [by rewrite <- IH |].
  destruct (String.eqb _ _); simpl; by rewrite <- IH.
Qed.

Lemma groupby_cons x l :
  groupby (x :: l)
  = match groupby l with
    | (k, g) :: gs =>
        if String.eqb (ProductArn x) k then (k, x :: g) :: gs
        else (ProductArn x, [x]) :: (k, g) :: gs
    | [] => [(ProductArn x, [x])]
    end.
Proof. reflexivity. Qed.

Lemma groupby_head x l :
  exists g gs, groupby (x :: l) = (ProductArn x, x :: g) :: gs.
Proof.
  simpl. destruct (groupby l) as [| [k g] gs]; [by eauto |].
  destruct (String.eqb _ _) eqn:Hx; [| by eauto].
  apply String.eqb_eq in Hx as <-. eauto.
Qed.

Lemma groupby_groups l :
  Forall (fun g => g.2 <> [] /\ Forall (fun f => ProductArn f = g.1) g.2)
         (groupby l).
Proof.
  induction l as [| x l IH]; [constructor |]. simpl.
  destruct (groupby l) as [| [k g] gs].
  - repeat constructor; done.
  - apply Forall_cons in IH as [[Hne Hk] IH]. simpl in *.
    destruct (String.eqb (ProductArn x) k) eqn:Hx.
    + apply String.eqb_eq in Hx. constructor; [| done]. simpl.
      split; [done |]. by constructor.
    + constructor; [simpl; by repeat constructor |].
      constructor; [| done]. done.
Qed.

Lemma groupby_keys l k :
  k ∈ map fst (groupby l) -> exists f, f ∈ l /\ ProductArn f = k.
Proof.
  intros Hk. apply list_elem_of_fmap in Hk as ([k' g] & -> & Hg).
  pose proof (groupby_groups l) as Hall.
  rewrite Forall_forall in Hall. destruct (Hall _ Hg) as [Hne Hkeys].
  simpl in *. destruct g as [| f g]; [done |].
  apply Forall_cons in Hkeys as [Hf _]. exists f. split; [| done].
  rewrite <- (groupby_concat l). apply list_elem_of_In, in_concat.
  exists (f :: g). split; [| by left].
  apply list_elem_of_In, list_elem_of_fmap. by exists (k', f :: g).
Qed.

(** After sorting, no product ARN heads two groups. *)
Lemma groupby_sorted_NoDup l :
  StronglySorted le_ProductArn l -> NoDup (map fst (groupby l)).
Proof.
  induction 1 as [| x l Hl IH Hx]; [constructor |].
  destruct l as [| y l'].
  - simpl. repeat constructor. by intros ?%elem_of_nil.
  - rewrite (groupby_cons x (y :: l')).
    remember (groupby (y :: l')) as G eqn:HG.
    assert (exists g gs, G = (ProductArn y, y :: g) :: gs) as (g & gs & Hg)
      by (subst G; apply groupby_head).
    rewrite Hg in IH |- *.
    destruct (String.eqb (ProductArn x) (ProductArn y)) eqn:Hxy; [done |].
    apply String.eqb_neq in Hxy. cbn [map fst] in *.
    constructor; [| done].
    intros Hin. apply elem_of_cons in Hin as [Heq | Hin]; [done |].
    assert (ProductArn x ∈ map fst (groupby (y :: l'))) as Hin'
      by (rewrite <- HG, Hg; cbn [map fst]; by right).
    apply groupby_keys in Hin' as (f & Hf & Hkey).
    apply elem_of_cons in Hf as [-> | Hf]; [done |].
    apply StronglySorted_cons in Hl as [Hy _].
    rewrite Forall_forall in Hy, Hx.
    assert (le_ProductArn y f) as H1 by auto.
    assert (le_ProductArn x y) as H2 by (apply Hx; left).
    unfold le_ProductArn in *. rewrite Hkey in H1.
    apply Hxy. by apply (anti_symm String.le).
Qed.

(** ** Reconciliation: the runs *)

Section Reconcile.
Context {St : Type} (sh : SecurityHubApi St).
Implicit Types w : World St.

Lemma new_calls_trans {A B} (m : Run St A) (k : World St -> Outcome B * World St)
  w :
  extends m ->
  (exists dl dc, logs (k (m w).2).2 = (logs (m w).2 ++ dl)%list
                 /\ calls (k (m w).2).2 = (calls (m w).2 ++ dc)%list) ->
  new_calls w (k (m w).2).2
  = (new_calls w (m w).2 ++ new_calls (m w).2 (k (m w).2).2)%list.
Proof.
  intros Hm (dl & dc & _ & Hc).
  destruct (Hm w) as (dl1 & dc1 & _ & Hc1).
  rewrite (new_calls_app _ _ _ Hc1), (new_calls_app _ _ _ Hc).
  apply new_calls_app. by rewrite Hc, Hc1, app_assoc.
Qed.

Lemma report_failed_import_none resp w :
  (FailedCount resp <= 0)%Z -> report_failed_import resp w = (Return tt, w).
Proof.
  intros H. unfold report_failed_import.
  destruct (Z.ltb_spec 0 (FailedCount resp)); [lia | done].
Qed.

Lemma report_failed_import_first resp failed more w :
  (0 < FailedCount resp)%Z -> FailedFindings resp = failed :: more ->
  report_failed_import resp w
  = (Return tt,
     mkWorld (logs w ++
              [mkLog ERROR
                 ("Failed to send archived findings to AWS Security Hub -- "
                  ++ ErrorCode failed ++ " -- " ++ ErrorMessage failed)])
             (calls w) (hub w)).
Proof.
  intros H Hf. unfold report_failed_import.
  destruct (Z.ltb_spec 0 (FailedCount resp)); [| lia]. by rewrite Hf.
Qed.

Lemma report_failed_import_calls resp w :
  calls (report_failed_import resp w).2 = calls w
  /\ hub (report_failed_import resp w).2 = hub w.
Proof.
  unfold report_failed_import.
  destruct (0 <? FailedCount resp)%Z; [| done].
  by destruct (FailedFindings resp !! 0%nat).
Qed.

Lemma submit_findings_unfold region findings w :
  submit_findings sh region findings w
  = match batch_import_findings sh (hub w) region findings with
    | inl e =>
        (Raise e,
         mkWorld (logs w)
           (calls w ++ [Call_batch_import_findings region findings]) (hub w))
    | inr (st, resp) =>
        report_failed_import resp
          (mkWorld (logs w)
             (calls w ++ [Call_batch_import_findings region findings]) st)
    end.
Proof.
  unfold submit_findings, bind, hub_update.
  by destruct (batch_import_findings sh (hub w) region findings)
    as [e | [st resp]].
Qed.

Lemma submit_findings_calls region findings w :
  calls (submit_findings sh region findings w).2
  = (calls w ++ [Call_batch_import_findings region findings])%list.
Proof.
  rewrite submit_findings_unfold.
  destruct (batch_import_findings sh (hub w) region findings)
    as [e | [st resp]]; [done |].
  by rewrite (proj1 (report_failed_import_calls _ _)).
Qed.

(** The loop over the batches submits a prefix of them, in order, and all
    of them when it is not interrupted. *)
Lemma submit_loop_calls region batches w :
  exists k,
    calls (for_each batches (submit_findings sh region) w).2
    = (calls w ++ map (Call_batch_import_findings region) (take k batches))%list
    /\ ((for_each batches (submit_findings sh region) w).1 = Return tt ->
        take k batches = batches).
Proof.
  revert w. induction batches as [| b bs IH]; intros w.
  - exists 0%nat. simpl. by rewrite app_nil_r.
  - cbn [for_each].
    pose proof (submit_findings_calls region b w) as Hc.
    destruct (submit_findings sh region b w) as [[[] | e |] w1] eqn:Hb;
      simpl in Hc.
    + rewrite (bind_Return _ _ _ _ _ Hb).
      destruct (IH w1) as (k & Hk & Hall).
      exists (S k). simpl. rewrite Hk, Hc, <- app_assoc. split; [done |].
      intros Hr. f_equal. by apply Hall.
    + rewrite (bind_Raise _ _ _ _ _ Hb).
      exists 1%nat. simpl. by rewrite take_0.
    + rewrite (bind_SysExit _ _ _ _ Hb).
      exists 1%nat. simpl. by rewrite take_0.
Qed.

Lemma submissions_app cs1 cs2 :
  submissions (cs1 ++ cs2) = (submissions cs1 ++ submissions cs2)%list.
Proof. apply omap_app. Qed.

Lemma queries_app cs1 cs2 :
  queries (cs1 ++ cs2) = (queries cs1 ++ queries cs2)%list.
Proof. apply omap_app. Qed.

Lemma submissions_batches region (bs : list (list Finding)) :
  submissions (map (Call_batch_import_findings region) bs)
  = map (fun b => (region, b)) bs.
Proof. induction bs as [| b bs IH]; simpl; [done | by rewrite <- IH]. Qed.

Lemma queries_batches region (bs : list (list Finding)) :
  queries (map (Call_batch_import_findings region) bs) = [].
Proof. induction bs as [| b bs IH]; simpl; done. Qed.

Lemma archive_previous_findings_unfold ai ts region cur w :
  archive_previous_findings sh ai ts region cur w
  = match audit_session ai with
    | None =>
        (Raise (mkExc "AttributeError"
                  "'NoneType' object has no attribute 'client'"), w)
    | Some _ =>
        match securityhub_client sh (hub w) region with
        | Some e =>
            (Raise e,
             mkWorld (logs w)
               (calls w ++ [Call_client "securityhub" (Some region)]) (hub w))
        | None =>
            match describe_hub sh (hub w) region with
            | Some e =>
                (Raise e,
                 mkWorld (logs w)
                   (calls w ++ [Call_client "securityhub" (Some region);
                                Call_describe_hub region]) (hub w))
            | None =>
                match get_findings sh (hub w) region
                        (findings_filter (audited_account ai) region) with
                | inl e =>
                    (Raise e,
                     mkWorld (logs w) (calls w ++ group_prelude ai region)
                             (hub w))
                | inr pages =>
                    for_each
                      (list_chunked
                         (findings_to_archive ts (current_findings_ids cur)
                            pages))
                      (submit_findings sh region)
                      (mkWorld
                         (logs w ++
                          [mkLog INFO
                             ("Archiving "
                              ++ str_of_nat
                                   (length
                                      (findings_to_archive ts
                                         (current_findings_ids cur) pages))
                              ++ " findings.")])
                         (calls w ++ group_prelude ai region) (hub w))
                end
            end
        end
    end.
Proof.
  unfold archive_previous_findings, session_hub_client, bind, hub_call,
    logger_info, logger, raise, group_prelude.
  destruct (audit_session ai) as [s |]; [| done]. simpl.
  destruct (securityhub_client sh (hub w) region) as [e |] eqn:Hc; simpl;
    [done |].
  destruct (describe_hub sh (hub w) region) as [e |]; simpl;
    rewrite <- ?app_assoc; [done |].
  rewrite Hc. simpl. rewrite <- ?app_assoc. simpl.
  destruct (get_findings sh (hub w) region _) as [e | pages]; simpl;
    rewrite <- ?app_assoc; done.
Qed.

(** What the body of the [try] does, by the answers of the store. *)
Lemma archive_previous_findings_run ai ts region cur w :
  let m := archive_previous_findings sh ai ts region cur in
  let flt := findings_filter (audited_account ai) region in
  (exists e dc, m w = (Raise e, mkWorld (logs w) (calls w ++ dc) (hub w))
     /\ queries dc = [] /\ submissions dc = []
     /\ (audit_session ai = None
         \/ securityhub_client sh (hub w) region <> None
         \/ describe_hub sh (hub w) region <> None))
  \/ (exists e, get_findings sh (hub w) region flt = inl e
        /\ m w = (Raise e, mkWorld (logs w)
                             (calls w ++ group_prelude ai region) (hub w)))
  \/ (exists pages, get_findings sh (hub w) region flt = inr pages
        /\ m w
           = for_each
               (list_chunked
                  (findings_to_archive ts (current_findings_ids cur) pages))
               (submit_findings sh region)
               (mkWorld
                  (logs w ++
                   [mkLog INFO
                      ("Archiving "
                       ++ str_of_nat
                            (length (findings_to_archive ts
                                       (current_findings_ids cur) pages))
                       ++ " findings.")])
                  (calls w ++ group_prelude ai region) (hub w))).
Proof.
  intros m flt. subst m flt. rewrite archive_previous_findings_unfold.
  destruct (audit_session ai) as [s |].
  2:{ left. eexists _, []. rewrite app_nil_r. destruct w.
      simpl. split_and!; auto. }
  destruct (securityhub_client sh (hub w) region) as [e |] eqn:Hc.
  { left. eexists _, _. split_and!; [done .. |]. right. left. congruence. }
  destruct (describe_hub sh (hub w) region) as [e |] eqn:Hd.
  { left. eexists _, _. split_and!; [done .. |]. right. right. congruence. }
  destruct (get_findings sh (hub w) region _) as [e | pages] eqn:Hq.
  - right. left. by exists e.
  - right. right. by exists pages.
Qed.
End Reconcile.

Section ReconcileCalls.
Context {St : Type} (sh : SecurityHubApi St).
Implicit Types w : World St.

Lemma queries_group_prelude ai region :
  queries (group_prelude ai region)
  = [(region, findings_filter (audited_account ai) region)].
Proof. reflexivity. Qed.

Lemma submissions_group_prelude ai region :
  submissions (group_prelude ai region) = [].
Proof. reflexivity. Qed.

(** The queries and the submissions of one group. *)
Lemma archive_previous_findings_calls ai ts region cur w :
  let r := archive_previous_findings sh ai ts region cur w in
  let flt := findings_filter (audited_account ai) region in
  (exists e, r.1 = Raise e
     /\ queries (new_calls w r.2) = [] /\ submissions (new_calls w r.2) = []
     /\ hub r.2 = hub w /\ logs r.2 = logs w
     /\ (audit_session ai = None
         \/ securityhub_client sh (hub w) region <> None
         \/ describe_hub sh (hub w) region <> None))
  \/ (exists e, get_findings sh (hub w) region flt = inl e
        /\ r.1 = Raise e
        /\ queries (new_calls w r.2) = [(region, flt)]
        /\ submissions (new_calls w r.2) = []
        /\ hub r.2 = hub w /\ logs r.2 = logs w)
  \/ (exists pages k, get_findings sh (hub w) region flt = inr pages
        /\ queries (new_calls w r.2) = [(region, flt)]
        /\ submissions (new_calls w r.2)
           = map (fun b => (region, b))
               (take k (list_chunked
                          (findings_to_archive ts (current_findings_ids cur)
                             pages)))
        /\ (r.1 = Return tt ->
            take k (list_chunked
                      (findings_to_archive ts (current_findings_ids cur)
                         pages))
            = list_chunked
                (findings_to_archive ts (current_findings_ids cur) pages))).
Proof.
  intros r flt. subst r.
  destruct (archive_previous_findings_run sh ai ts region cur w)
    as [(e & dc & -> & Hq & Hs & Hwhy) | [(e & Hg & ->) | (pages & Hg & ->)]].
  - left. exists e. simpl. rewrite (new_calls_app w _ dc) by done.
    split_and!; auto.
  - right. left. exists e. simpl.
    rewrite (new_calls_app w _ (group_prelude ai region)) by done.
    split_and!; auto.
  - right. right.
    match goal with
    | |- context [for_each ?bs ?f ?w1] =>
        destruct (submit_loop_calls sh region bs w1) as (k & Hk & Hall)
    end.
    exists pages, k. split; [done |]. simpl in Hk.
    rewrite <- app_assoc in Hk. rewrite (new_calls_app w _ _ Hk).
    rewrite queries_app, submissions_app, queries_batches,
      submissions_batches.
    split_and!; auto.
Qed.

Lemma resolve_group_unfold ai ts arn cur w :
  resolve_group sh ai ts (arn, cur) w
  = match region_of arn with
    | None => (Raise (mkExc "IndexError" "list index out of range"), w)
    | Some region =>
        match archive_previous_findings sh ai ts region cur w with
        | (Raise error, w') =>
            (Return tt,
             mkWorld (logs w' ++
                      [mkLog ERROR
                         (exc_class error ++ " -- " ++ exc_msg error
                          ++ " in region " ++ region)])
                     (calls w') (hub w'))
        | r => r
        end
    end.
Proof.
  unfold resolve_group. destruct (region_of arn) as [region |]; [| done].
  unfold try_except.
  by destruct (archive_previous_findings sh ai ts region cur w)
    as [[a | e |] w1].
Qed.

Lemma resolve_group_calls ai ts arn cur region w :
  region_of arn = Some region ->
  calls (resolve_group sh ai ts (arn, cur) w).2
  = calls (archive_previous_findings sh ai ts region cur w).2
  /\ hub (resolve_group sh ai ts (arn, cur) w).2
     = hub (archive_previous_findings sh ai ts region cur w).2.
Proof.
  intros Hr. rewrite resolve_group_unfold, Hr.
  by destruct (archive_previous_findings sh ai ts region cur w)
    as [[a | e |] w1].
Qed.

Lemma resolve_group_calls_None ai ts arn cur w :
  region_of arn = None ->
  resolve_group sh ai ts (arn, cur) w
  = (Raise (mkExc "IndexError" "list index out of range"), w).
Proof. intros Hr. by rewrite resolve_group_unfold, Hr. Qed.

Lemma new_calls_same w : new_calls w w = [].
Proof. unfold new_calls. by rewrite drop_all. Qed.

Lemma new_calls_eq w w1 w2 : calls w1 = calls w2 -> new_calls w w1 = new_calls w w2.
Proof. unfold new_calls. by intros ->. Qed.

Lemma resolve_group_queries ai ts group w :
  let r := resolve_group sh ai ts group w in
  queries (new_calls w r.2) = []
  \/ (exists q, group_query ai group = Some q /\ queries (new_calls w r.2) = [q]).
Proof.
  destruct group as [arn cur]. cbv zeta. unfold group_query. cbn [fst].
  destruct (region_of arn) as [region |] eqn:Hr.
  - rewrite (new_calls_eq _ _ _ (proj1 (resolve_group_calls ai ts arn cur region w Hr))).
    destruct (archive_previous_findings_calls ai ts region cur w)
      as [(e & _ & Hq & _) | [(e & _ & _ & Hq & _) | (pages & k & _ & Hq & _)]];
      eauto.
  - rewrite resolve_group_calls_None by done. simpl.
    left. by rewrite new_calls_same.
Qed.


(** Over a loop, the new calls are those of the first turn followed by
    those of the rest. *)
Lemma for_each_new_calls {A} (x : A) l (body : A -> Run St unit) w :
  (forall y, extends (body y)) ->
  new_calls w (for_each (x :: l) body w).2
  = (new_calls w (body x w).2
     ++ match (body x w).1 with
        | Return _ => new_calls (body x w).2 (for_each l body (body x w).2).2
        | _ => []
        end)%list.
Proof.
  intros Hb. cbn [for_each]. unfold bind.
  destruct (Hb x w) as (dl & dc & _ & Hc).
  destruct (body x w) as [[[] | e |] w1] eqn:Hx; simpl in *;
    [| by rewrite app_nil_r ..].
  destruct (extends_for_each l body Hb w1) as (dl' & dc' & _ & Hc').
  rewrite (new_calls_app w w1 dc Hc), (new_calls_app w1 _ dc' Hc').
  apply new_calls_app. by rewrite Hc', Hc, app_assoc.
Qed.


Lemma resolve_groups_queries ai ts groups w :
  sublist
    (queries (new_calls w (for_each groups (resolve_group sh ai ts) w).2))
    (omap (group_query ai) groups).
Proof.
  revert w. induction groups as [| g gs IH]; intros w.
  - simpl. rewrite new_calls_same. constructor.
  - rewrite for_each_new_calls by apply extends_resolve_group.
    rewrite queries_app.
    assert (sublist
              (queries
                 match (resolve_group sh ai ts g w).1 with
                 | Return _ =>
                     new_calls (resolve_group sh ai ts g w).2
                       (for_each gs (resolve_group sh ai ts)
                          (resolve_group sh ai ts g w).2).2
                 | _ => []
                 end)
              (omap (group_query ai) gs)) as Hrest.
    { destruct (resolve_group sh ai ts g w).1;
        [apply IH | apply sublist_nil_l ..]. }
    change (omap (group_query ai) (g :: gs))
      with (match group_query ai g with
            | Some q => q :: omap (group_query ai) gs
            | None => omap (group_query ai) gs
            end).
    destruct (resolve_group_queries ai ts g w) as [Hq | (q & Hg & Hq)];
      rewrite Hq.
    + simpl. destruct (group_query ai g); [by apply sublist_cons | done].
    + rewrite Hg. simpl. by apply sublist_skip.
Qed.

Lemma resolve_new_calls json ai ts w :
  new_calls w (resolve_security_hub_previous_findings sh json ai ts w).2
  = new_calls
      (mkWorld (logs w ++
                [mkLog INFO
                   "Checking previous findings in Security Hub to archive them."])
               (calls w) (hub w))
      (for_each (groupby (sorted json)) (resolve_group sh ai ts)
         (mkWorld (logs w ++
                   [mkLog INFO
                      "Checking previous findings in Security Hub to archive them."])
                  (calls w) (hub w))).2.
Proof. reflexivity. Qed.
End ReconcileCalls.

(** ** Batches (claim C4) *)

Lemma take_prefix_of {A} (k : nat) (l : list A) : take k l `prefix_of` l.
Proof. exists (drop k l). by rewrite take_drop. Qed.

(** The submissions of a group whose query was answered. *)
Lemma group_submissions_prefix {St} (sh : SecurityHubApi St)
  ai ts region cur (w : World St) pages :
  get_findings sh (hub w) region
    (findings_filter (audited_account ai) region) = inr pages ->
  map snd (submissions
    (new_calls w (archive_previous_findings sh ai ts region cur w).2))
    `prefix_of` list_chunked
                  (findings_to_archive ts (current_findings_ids cur) pages)
  /\ ((archive_previous_findings sh ai ts region cur w).1 = Return tt ->
      map snd (submissions
        (new_calls w (archive_previous_findings sh ai ts region cur w).2))
      = list_chunked (findings_to_archive ts (current_findings_ids cur) pages)).
Proof.
  intros Hq.
  destruct (archive_previous_findings_calls sh ai ts region cur w)
    as [(e & Hout & _ & Hs & _)
       | [(e & Hq' & _) | (pages' & k & Hq' & _ & Hs & Hall)]].
  - rewrite Hs, Hout. split; [apply prefix_nil | done].
  - congruence.
  - assert (pages' = pages) as -> by congruence.
    rewrite Hs, map_map. simpl. rewrite map_id.
    split; [apply take_prefix_of | done].
Qed.



(** ** Grouping, queries and the findings to archive (claim C2) *)

Section Grouping.
Context {St : Type} (sh : SecurityHubApi St).
Implicit Types w : World St.

(** A group whose product ARN encodes a region never stops the loop. *)
Lemma resolve_group_Return ai ts arn cur region w :
  region_of arn = Some region ->
  (resolve_group sh ai ts (arn, cur) w).1 = Return tt.
Proof.
  intros Hr. rewrite resolve_group_unfold, Hr.
  pose proof (no_exit_archive_previous_findings sh ai ts region cur w) as Hne.
  by destruct (archive_previous_findings sh ai ts region cur w)
    as [[[] | e |] w1].
Qed.

Lemma archive_previous_findings_query ai ts region cur w :
  audit_session ai <> None ->
  securityhub_client sh (hub w) region = None ->
  describe_hub sh (hub w) region = None ->
  queries (new_calls w (archive_previous_findings sh ai ts region cur w).2)
  = [(region, findings_filter (audited_account ai) region)].
Proof.
  intros Hs Hc Hd.
  destruct (archive_previous_findings_calls sh ai ts region cur w)
    as [(e & _ & _ & _ & _ & _ & Hwhy)
       | [(e & _ & _ & Hq & _) | (pages & k & _ & Hq & _)]]; [| done ..].
  destruct Hwhy as [? | [? | ?]]; congruence.
Qed.

Lemma resolve_groups_queries_all ai ts groups w :
  audit_session ai <> None ->
  (forall st region, securityhub_client sh st region = None
                     /\ describe_hub sh st region = None) ->
  Forall (fun g => is_Some (region_of g.1)) groups ->
  queries (new_calls w (for_each groups (resolve_group sh ai ts) w).2)
  = omap (group_query ai) groups
  /\ (for_each groups (resolve_group sh ai ts) w).1 = Return tt.
Proof.
  intros Hs Hok Hall. revert w.
  induction Hall as [| [arn cur] gs [region Hr] Hgs IH]; intros w.
  - simpl. by rewrite new_calls_same.
  - simpl in Hr.
    rewrite for_each_new_calls by apply extends_resolve_group.
    cbn [for_each]. unfold bind.
    pose proof (resolve_group_Return ai ts arn cur region w Hr) as Hret.
    pose proof (resolve_group_calls sh ai ts arn cur region w Hr) as [Hc _].
    pose proof (archive_previous_findings_query ai ts region cur w Hs
                  (proj1 (Hok _ _)) (proj2 (Hok _ _))) as Hq.
    rewrite <- (new_calls_eq _ _ _ Hc) in Hq.
    destruct (resolve_group sh ai ts (arn, cur) w) as [o w1].
    cbn [fst snd] in *. subst o.
    destruct (IH w1) as [IHq IHr].
    rewrite queries_app, Hq, IHq. split; [| done].
    change (omap (group_query ai) ((arn, cur) :: gs))
      with (match group_query ai (arn, cur) with
            | Some q => q :: omap (group_query ai) gs
            | None => omap (group_query ai) gs
            end).
    unfold group_query at 2. cbn [fst]. by rewrite Hr.
Qed.
End Grouping.

(** X19. The current findings are grouped on their
    product ARN: the groups have pairwise distinct keys, are not empty, hold
    the findings of their key, and together hold the findings of the run.
    The store is queried at most once per group, in the order of the groups,
    for the region the group's product ARN encodes (its 4th colon-delimited
    segment) with the filter on product name, ACTIVE state, audited account
    and region; it is queried exactly once per group when every product ARN
    encodes a region and the hub check succeeds everywhere. For a group
    whose query is answered with [pages], the findings submitted are, in
    order, the stored findings of [pages] whose identifier is not an
    identifier of the group's current findings, marked ARCHIVED: a prefix of
    them, and all of them when the group ends without an exception. *)
Theorem reconcile_groups_by_product_arn {St} (sh : SecurityHubApi St)
  (ai : AWS_Audit_Info) (ts : string) :
  (forall json,
     NoDup (map fst (groupby (sorted json)))
     /\ concat (map snd (groupby (sorted json))) ≡ₚ json
     /\ Forall (fun g => g.2 <> [] /\ Forall (fun f => ProductArn f = g.1) g.2)
               (groupby (sorted json)))
  /\ (forall json (w : World St),
        sublist
          (queries
             (new_calls w
                (resolve_security_hub_previous_findings sh json ai ts w).2))
          (omap (group_query ai) (groupby (sorted json))))
  /\ (forall json (w : World St),
        audit_session ai <> None ->
        (forall st region, securityhub_client sh st region = None
                           /\ describe_hub sh st region = None) ->
        Forall (fun f => is_Some (region_of (ProductArn f))) json ->
        queries
          (new_calls w
             (resolve_security_hub_previous_findings sh json ai ts w).2)
        = omap (group_query ai) (groupby (sorted json)))
  /\ (forall region cur (w : World St) pages,
        get_findings sh (hub w) region
          (findings_filter (audited_account ai) region) = inr pages ->
        let to_archive :=
          map (archived ts)
              (filter (fun f => Id f ∉ map Id cur) (concat pages)) in
        let r := archive_previous_findings sh ai ts region cur w in
        concat (map snd (submissions (new_calls w r.2))) `prefix_of` to_archive
        /\ (r.1 = Return tt ->
            concat (map snd (submissions (new_calls w r.2))) = to_archive)).
Proof.
  split_and!.
  - intros json. split_and!.
    + apply groupby_sorted_NoDup, sorted_sorted.
    + rewrite groupby_concat. apply sorted_perm.
    + apply groupby_groups.
  - intros json w. rewrite resolve_new_calls. apply resolve_groups_queries.
  - intros json w Hs Hok Hall. rewrite resolve_new_calls.
    apply resolve_groups_queries_all; [done | done |].
    apply Forall_forall. intros [k g] Hg. simpl.
    destruct (groupby_keys (sorted json) k) as (f & Hf & <-).
    { apply list_elem_of_fmap. by exists (k, g). }
    rewrite Forall_forall in Hall. apply Hall. by rewrite <- (sorted_perm json).
  - intros region cur w pages Hq to_archive r. subst r.
    destruct (group_submissions_prefix sh ai ts region cur w pages Hq)
      as [Hpre Hall].
    rewrite findings_to_archive_filter, current_findings_ids_map in Hpre, Hall.
    fold to_archive in Hpre, Hall.
    split.
    + destruct Hpre as [rest Hrest].
      rewrite <- (list_chunked_concat to_archive), Hrest, concat_app.
      by eexists.
    + intros Hr. rewrite (Hall Hr). apply list_chunked_concat.
Qed.

Lemma reconcile_groups_by_product_arn_witness :
  queries
    (new_calls (world0 [Sample.f1; Sample.f2])
       (resolve_security_hub_previous_findings (ListStore Sample.accepting)
          [Sample.f1] Sample.audit_info "2022-11-02T00:00:00Z"
          (world0 [Sample.f1; Sample.f2])).2)
  = [("us-east-1", findings_filter (Some "111111111111") "us-east-1")]
  /\ concat (map snd (submissions
       (new_calls (world0 [Sample.f1; Sample.f2])
          (archive_previous_findings (ListStore Sample.accepting)
             Sample.audit_info "2022-11-02T00:00:00Z" "us-east-1" [Sample.f1]
             (world0 [Sample.f1; Sample.f2])).2)))
     = [archived "2022-11-02T00:00:00Z" Sample.f2].
Proof.
  destruct (reconcile_groups_by_product_arn (ListStore Sample.accepting)
              Sample.audit_info "2022-11-02T00:00:00Z")
    as (_ & _ & Hq & Harch).
  split.
  - rewrite Hq.
    + vm_compute. reflexivity.
    + discriminate.
    + intros st region. split; reflexivity.
    + repeat constructor. vm_compute. eauto.
  - edestruct (Harch "us-east-1" [Sample.f1] (world0 [Sample.f1; Sample.f2]))
      as [_ Hall]; [vm_compute; reflexivity |].
    rewrite Hall by (vm_compute; reflexivity).
    vm_compute. reflexivity.
Defined.


(** ** Failures during reconciliation (claims C5 and C10) *)

Section Failures.
Context {St : Type} (sh : SecurityHubApi St).
Implicit Types w : World St.

Lemma submit_findings_failed region findings w st resp failed more :
  batch_import_findings sh (hub w) region findings = inr (st, resp) ->
  (0 < FailedCount resp)%Z ->
  FailedFindings resp = failed :: more ->
  submit_findings sh region findings w
  = (Return tt,
     mkWorld (logs w ++
              [mkLog ERROR
                 ("Failed to send archived findings to AWS Security Hub -- "
                  ++ ErrorCode failed ++ " -- " ++ ErrorMessage failed)])
             (calls w ++ [Call_batch_import_findings region findings]) st).
Proof.
  intros Hb Hc Hf. rewrite submit_findings_unfold, Hb.
  by rewrite (report_failed_import_first resp failed more).
Qed.

Lemma resolve_group_Raise ai ts arn cur region w e w' :
  region_of arn = Some region ->
  archive_previous_findings sh ai ts region cur w = (Raise e, w') ->
  resolve_group sh ai ts (arn, cur) w
  = (Return tt,
     mkWorld (logs w' ++
              [mkLog ERROR (exc_class e ++ " -- " ++ exc_msg e
                            ++ " in region " ++ region)])
             (calls w') (hub w')).
Proof. intros Hr Ha. by rewrite resolve_group_unfold, Hr, Ha. Qed.

Lemma client_regions_app service cs1 cs2 :
  client_regions service (cs1 ++ cs2)
  = (client_regions service cs1 ++ client_regions service cs2)%list.
Proof. apply omap_app. Qed.

(** Every group starts by constructing the client of its region. *)
Lemma archive_previous_findings_client ai ts region cur w :
  audit_session ai <> None ->
  region ∈ client_regions "securityhub"
             (new_calls w
                (archive_previous_findings sh ai ts region cur w).2).
Proof.
  intros Hs.
  destruct (extends_archive_previous_findings sh ai ts region cur w)
    as (dl & dc & _ & Hc).
  rewrite (new_calls_app _ _ _ Hc).
  assert (exists dc', dc = Call_client "securityhub" (Some region) :: dc')
    as [dc' ->]; [| simpl; left].
  revert Hc. rewrite archive_previous_findings_unfold.
  destruct (audit_session ai) as [s |]; [| done].
  destruct (securityhub_client sh (hub w) region) as [e |].
  { simpl. intros <-%app_inv_head. eauto. }
  destruct (describe_hub sh (hub w) region) as [e |].
  { simpl. intros <-%app_inv_head. eauto. }
  destruct (get_findings sh (hub w) region _) as [e | pages].
  { simpl. intros <-%app_inv_head. eauto. }
  match goal with
  | |- context [for_each ?bs ?f ?w1] =>
      destruct (submit_loop_calls sh region bs w1) as (k & -> & _)
  end.
  simpl. rewrite <- app_assoc. intros <-%app_inv_head. eauto.
Qed.

Lemma resolve_groups_all_attempted ai ts groups w :
  audit_session ai <> None ->
  Forall (fun g => is_Some (region_of g.1)) groups ->
  (for_each groups (resolve_group sh ai ts) w).1 = Return tt
  /\ Forall (fun g => exists region, region_of g.1 = Some region
               /\ region ∈ client_regions "securityhub"
                    (new_calls w
                       (for_each groups (resolve_group sh ai ts) w).2))
            groups.
Proof.
  intros Hs Hall. revert w.
  induction Hall as [| [arn cur] gs [region Hr] Hgs IH]; intros w.
  - by split.
  - simpl in Hr.
    rewrite for_each_new_calls by apply extends_resolve_group.
    cbn [for_each]. unfold bind.
    pose proof (resolve_group_Return sh ai ts arn cur region w Hr) as Hret.
    pose proof (resolve_group_calls sh ai ts arn cur region w Hr) as [Hc _].
    pose proof (archive_previous_findings_client ai ts region cur w Hs) as Hin.
    rewrite <- (new_calls_eq _ _ _ Hc) in Hin.
    destruct (resolve_group sh ai ts (arn, cur) w) as [o w1].
    cbn [fst snd] in *. subst o.
    destruct (IH w1) as [IHr IHall]. split; [done |].
    constructor.
    + exists region. split; [done |].
      rewrite client_regions_app. apply elem_of_app. by left.
    + eapply Forall_impl; [exact IHall |].
      intros g (r & Hg & Hin'). exists r. split; [done |].
      rewrite client_regions_app. apply elem_of_app. by right.
Qed.
End Failures.

(** The loop over the batches stops at the first batch whose submission
    raises. *)
Lemma submit_loop_raise {St} (sh : SecurityHubApi St) region bs1 b bs2 e
  (w : World St) :
  (forall st b', b' ∈ bs1 ->
     exists st' resp, batch_import_findings sh st region b' = inr (st', resp)
                      /\ (0 < FailedCount resp -> FailedFindings resp <> [])%Z) ->
  (forall st, batch_import_findings sh st region b = inl e) ->
  let r := for_each (bs1 ++ b :: bs2)%list (submit_findings sh region) w in
  r.1 = Raise e
  /\ calls r.2
     = (calls w ++ map (Call_batch_import_findings region) (bs1 ++ [b]))%list.
Proof.
  intros Hok Hfail. cbv zeta. revert w.
  induction bs1 as [| b1 bs1 IH]; intros w.
  - cbn [app for_each]. unfold bind.
    rewrite submit_findings_unfold, Hfail. done.
  - cbn [app for_each]. unfold bind.
    destruct (Hok (hub w) b1) as (st' & resp & Hb1 & Hresp); [left |].
    pose proof (submit_findings_calls sh region b1 w) as Hc.
    assert ((submit_findings sh region b1 w).1 = Return tt) as Hret.
    { rewrite submit_findings_unfold, Hb1. unfold report_failed_import.
      destruct (Z.ltb_spec 0 (FailedCount resp)) as [Hpos | Hneg]; [| done].
      specialize (Hresp Hpos). by destruct (FailedFindings resp). }
    destruct (submit_findings sh region b1 w) as [o w1].
    cbn [fst snd] in *. subst o.
    destruct (IH (fun st b' Hb' => Hok st b' (list_elem_of_further _ _ _ Hb')) w1)
      as [Hr Hcalls].
    split; [done |]. rewrite Hcalls, Hc, <- app_assoc. done.
Qed.

(** A group whose query was answered and one of whose batches raises: the
    body of the [try] raises that exception, after the submissions up to
    that batch. *)
Lemma archive_previous_findings_batch_raise {St} (sh : SecurityHubApi St)
  ai ts region cur (w : World St) s pages bs1 b bs2 e :
  audit_session ai = Some s ->
  securityhub_client sh (hub w) region = None ->
  describe_hub sh (hub w) region = None ->
  get_findings sh (hub w) region (findings_filter (audited_account ai) region)
  = inr pages ->
  list_chunked (findings_to_archive ts (current_findings_ids cur) pages)
  = (bs1 ++ b :: bs2)%list ->
  (forall st b', b' ∈ bs1 ->
     exists st' resp, batch_import_findings sh st region b' = inr (st', resp)
                      /\ (0 < FailedCount resp -> FailedFindings resp <> [])%Z) ->
  (forall st, batch_import_findings sh st region b = inl e) ->
  exists w',
    archive_previous_findings sh ai ts region cur w = (Raise e, w')
    /\ submissions (new_calls w w') = map (fun x => (region, x)) (bs1 ++ [b]).
Proof.
  intros Hs Hc Hd Hq Hchunks Hok Hfail.
  destruct (archive_previous_findings_run sh ai ts region cur w)
    as [(e' & dc & _ & _ & _ & Hwhy) | [(e' & Hq' & _) | (pages' & Hq' & Hrun)]].
  { destruct Hwhy as [? | [? | ?]]; congruence. }
  { congruence. }
  rewrite Hq in Hq'. injection Hq' as <-.
  rewrite Hchunks in Hrun.
  match type of Hrun with _ = for_each _ _ ?w0 =>
    destruct (submit_loop_raise sh region bs1 b bs2 e w0 Hok Hfail)
      as [Hraise Hcalls]
  end.
  rewrite <- Hrun in Hraise, Hcalls.
  destruct (archive_previous_findings sh ai ts region cur w) as [o w'].
  cbn [fst snd] in Hraise, Hcalls. subst o.
  exists w'. split; [done |].
  rewrite (new_calls_app w _
             (group_prelude ai region
              ++ map (Call_batch_import_findings region) (bs1 ++ [b]))%list).
  - rewrite submissions_app, submissions_group_prelude. cbn [app].
    generalize (bs1 ++ [b])%list. intros l.
    induction l as [| x l IH]; [done |]. simpl. by f_equal.
  - rewrite Hcalls. cbn [calls]. by rewrite <- app_assoc.
Qed.

(** C5, as the code has it. A batch for which the store reports failed
    findings is logged as an error with the error code and message of the
    failed finding, and the loop goes on with the remaining batches of the
    region. A batch whose submission raises ends the work of its group: the
    batches up to it were submitted, those after it are not. An exception
    in the work of one group, that one included, is logged as an error
    naming the exception and the region, and the loop goes on with the
    remaining groups; in particular, when every product ARN encodes a
    region, the run ends normally and the client of every group's region is
    constructed, whatever failed in other regions. *)
Theorem reconcile_failures_do_not_abort {St} (sh : SecurityHubApi St)
  (ai : AWS_Audit_Info) (ts : string) :
  (forall region findings rest (w : World St) st resp failed more,
     batch_import_findings sh (hub w) region findings = inr (st, resp) ->
     (0 < FailedCount resp)%Z ->
     FailedFindings resp = failed :: more ->
     for_each (findings :: rest) (submit_findings sh region) w
     = for_each rest (submit_findings sh region)
         (mkWorld (logs w ++
                   [mkLog ERROR
                      ("Failed to send archived findings to AWS Security Hub -- "
                       ++ ErrorCode failed ++ " -- " ++ ErrorMessage failed)])
                  (calls w ++ [Call_batch_import_findings region findings]) st))
  /\ (forall region cur (w : World St) s pages bs1 b bs2 e,
        audit_session ai = Some s ->
        securityhub_client sh (hub w) region = None ->
        describe_hub sh (hub w) region = None ->
        get_findings sh (hub w) region
          (findings_filter (audited_account ai) region) = inr pages ->
        list_chunked (findings_to_archive ts (current_findings_ids cur) pages)
        = (bs1 ++ b :: bs2)%list ->
        (forall st b', b' ∈ bs1 ->
           exists st' resp,
             batch_import_findings sh st region b' = inr (st', resp)
             /\ (0 < FailedCount resp -> FailedFindings resp <> [])%Z) ->
        (forall st, batch_import_findings sh st region b = inl e) ->
        exists w',
          archive_previous_findings sh ai ts region cur w = (Raise e, w')
          /\ submissions (new_calls w w')
             = map (fun x => (region, x)) (bs1 ++ [b]))
  /\ (forall arn cur region rest (w : World St) e w',
        region_of arn = Some region ->
        archive_previous_findings sh ai ts region cur w = (Raise e, w') ->
        for_each ((arn, cur) :: rest) (resolve_group sh ai ts) w
        = for_each rest (resolve_group sh ai ts)
            (mkWorld (logs w' ++
                      [mkLog ERROR (exc_class e ++ " -- " ++ exc_msg e
                                    ++ " in region " ++ region)])
                     (calls w') (hub w')))
  /\ (forall json (w : World St),
        audit_session ai <> None ->
        Forall (fun f => is_Some (region_of (ProductArn f))) json ->
        let r := resolve_security_hub_previous_findings sh json ai ts w in
        r.1 = Return tt
        /\ forall f, f ∈ json ->
             exists region, region_of (ProductArn f) = Some region
               /\ region ∈ client_regions "securityhub" (new_calls w r.2)).
Proof.
  split_and!.
  - intros region findings rest w st resp failed more Hb Hc Hf.
    cbn [for_each].
    by rewrite (bind_Return _ _ _ _ _
                  (submit_findings_failed sh region findings w st resp failed
                     more Hb Hc Hf)).
  - intros region cur w s pages bs1 b bs2 e.
    apply archive_previous_findings_batch_raise.
  - intros arn cur region rest w e w' Hr Ha. cbn [for_each].
    by rewrite (bind_Return _ _ _ _ _
                  (resolve_group_Raise sh ai ts arn cur region w e w' Hr Ha)).
  - intros json w Hs Hall r. subst r. rewrite resolve_new_calls.
    unfold resolve_security_hub_previous_findings, bind, logger_info, logger.
    simpl.
    match goal with
    | |- context [for_each ?gs ?f ?w1] =>
        destruct (resolve_groups_all_attempted sh ai ts gs w1 Hs) as [Hr Hatt]
    end.
    { apply Forall_forall. intros [k g] Hg. simpl.
      destruct (groupby_keys (sorted json) k) as (f & Hf & <-).
      { apply list_elem_of_fmap. by exists (k, g). }
      rewrite Forall_forall in Hall. apply Hall.
      by rewrite <- (sorted_perm json). }
    split; [done |]. intros f Hf.
    rewrite Forall_forall in Hatt.
    assert (f ∈ concat (map snd (groupby (sorted json)))) as Hin
      by (rewrite groupby_concat; by rewrite (sorted_perm json)).
    apply list_elem_of_In, in_concat in Hin as (g & Hg & Hfg).
    apply list_elem_of_In, list_elem_of_fmap in Hg as ([k g'] & -> & Hkg).
    destruct (Hatt _ Hkg) as (region & Hreg & Hin'). simpl in *.
    pose proof (groupby_groups (sorted json)) as Hgroups.
    rewrite Forall_forall in Hgroups. destruct (Hgroups _ Hkg) as [_ Hkeys].
    rewrite Forall_forall in Hkeys. simpl in Hkeys.
    rewrite (Hkeys f) by (by apply list_elem_of_In).
    eauto.
Qed.

Lemma reconcile_failures_do_not_abort_witness :
  for_each [[Sample.f2]; [Sample.f1]]
    (submit_findings (ListStore Sample.picky) "us-east-1") (world0 [])
  = for_each [[Sample.f1]]
      (submit_findings (ListStore Sample.picky) "us-east-1")
      (mkWorld [SampleFailures.f2_rejected]
         [Call_batch_import_findings "us-east-1" [Sample.f2]] [])
  /\ for_each [(Sample.prowler_arn "ap-south-1", [SampleFailures.h1]);
               (Sample.prowler_arn "us-east-1", [Sample.f1])]
       (resolve_group (ListStore Sample.picky) Sample.audit_info
          "2022-11-02T00:00:00Z") (world0 [])
     = for_each [(Sample.prowler_arn "us-east-1", [Sample.f1])]
         (resolve_group (ListStore Sample.picky) Sample.audit_info
            "2022-11-02T00:00:00Z")
         (mkWorld
            [mkLog ERROR
               "InvalidAccessException -- Account is not subscribed to AWS Security Hub in region ap-south-1"]
            [Call_client "securityhub" (Some "ap-south-1");
             Call_describe_hub "ap-south-1"] [])
  /\ (resolve_security_hub_previous_findings (ListStore Sample.picky)
        [SampleFailures.h1; Sample.f1] Sample.audit_info
        "2022-11-02T00:00:00Z" (world0 [])).1 = Return tt
  /\ exists w',
       archive_previous_findings SampleThrottled.throttled_hub
         Sample.audit_info "2022-11-02T00:00:00Z" "us-east-1" [Sample.f1]
         (world0 tt)
       = (Raise (mkExc "ClientError" "ThrottlingException"), w')
       /\ map (fun x => length x.2) (submissions (new_calls (world0 tt) w'))
          = [100; 100]%nat.
Proof.
  destruct (reconcile_failures_do_not_abort (ListStore Sample.picky)
              Sample.audit_info "2022-11-02T00:00:00Z")
    as (Hb & _ & Hg & Hall).
  destruct (reconcile_failures_do_not_abort SampleThrottled.throttled_hub
              Sample.audit_info "2022-11-02T00:00:00Z")
    as (_ & Hraise & _ & _).
  split_and!.
  - exact (Hb "us-east-1" [Sample.f2] [[Sample.f1]] (world0 []) []
             (mkBatchResponse 1 0
                [mkFailed "f2" "InvalidInput" "Finding rejected"])
             (mkFailed "f2" "InvalidInput" "Finding rejected") []
             eq_refl eq_refl eq_refl).
  - exact (Hg (Sample.prowler_arn "ap-south-1") [SampleFailures.h1]
             "ap-south-1" [(Sample.prowler_arn "us-east-1", [Sample.f1])]
             (world0 [])
             (mkExc "InvalidAccessException"
                "Account is not subscribed to AWS Security Hub")
             (mkWorld [] [Call_client "securityhub" (Some "ap-south-1");
                          Call_describe_hub "ap-south-1"] [])
             eq_refl eq_refl).
  - apply (Hall [SampleFailures.h1; Sample.f1] (world0 [])).
    + discriminate.
    + repeat constructor; vm_compute; eauto.
  - assert (list_chunked
              (findings_to_archive "2022-11-02T00:00:00Z"
                 (current_findings_ids [Sample.f1])
                 (list_chunked SampleRuns.store250))
            = ([take 100 SampleThrottled.archived250]
               ++ take 100 (drop 100 SampleThrottled.archived250)
               :: [drop 200 SampleThrottled.archived250])%list) as Hchunks
      by (vm_compute; reflexivity).
    destruct (Hraise "us-east-1" [Sample.f1] (world0 tt) Sample.base_session
                (list_chunked SampleRuns.store250)
                [take 100 SampleThrottled.archived250]
                (take 100 (drop 100 SampleThrottled.archived250))
                [drop 200 SampleThrottled.archived250]
                (mkExc "ClientError" "ThrottlingException"))
      as (w' & Ha & Hsub).
    + reflexivity.
    + reflexivity.
    + reflexivity.
    + reflexivity.
    + exact Hchunks.
    + intros st b' Hb'. apply list_elem_of_singleton in Hb'. subst b'.
      exists tt, (mkBatchResponse 0 100 []).
      split; [vm_compute; reflexivity |]. simpl. lia.
    + intros st. vm_compute. reflexivity.
    + exists w'. split; [exact Ha |]. rewrite Hsub. vm_compute. reflexivity.
Defined.

(** C5, as stated, fails for a batch whose submission raises: the exception
    leaves the loop over the batches, which is inside the [try] of the
    group. Here the store holds 250 findings to archive and raises on the
    second batch: of the three batches the first two are submitted and the
    third is not, and the only ERROR record names the exception and the
    region, not the error code and message of a failed finding. *)
Lemma reconcile_raising_batch_stops_the_region :
  map length
    (list_chunked
       (findings_to_archive "2022-11-02T00:00:00Z"
          (current_findings_ids [Sample.f1])
          (list_chunked SampleRuns.store250)))
  = [100; 100; 50]%nat
  /\ map (fun x => length x.2)
       (submissions
          (calls
             (resolve_security_hub_previous_findings
                SampleThrottled.throttled_hub [Sample.f1] Sample.audit_info
                "2022-11-02T00:00:00Z" (world0 tt)).2))
     = [100; 100]%nat
  /\ errors
       (logs
          (resolve_security_hub_previous_findings
             SampleThrottled.throttled_hub [Sample.f1] Sample.audit_info
             "2022-11-02T00:00:00Z" (world0 tt)).2)
     = [mkLog ERROR "ClientError -- ThrottlingException in region us-east-1"].
Proof. vm_compute. done. Qed.

(** C10. When a batch import reports a positive [FailedCount], one error
    record is logged, made of the error code and message of the first failed
    finding; the further failed findings of the response appear nowhere in
    the world the run leaves. This holds for the loop body of the
    reconciliation and for [send_to_security_hub] alike. *)
Theorem failed_import_logs_first_failure_only {St} (sh : SecurityHubApi St)
  (region : string) (w : World St) (st : St) (resp : BatchImportResponse)
  (failed : FailedFinding) (more : list FailedFinding) :
  (0 < FailedCount resp)%Z ->
  FailedFindings resp = failed :: more ->
  let record :=
    mkLog ERROR ("Failed to send archived findings to AWS Security Hub -- "
                 ++ ErrorCode failed ++ " -- " ++ ErrorMessage failed) in
  report_failed_import resp w
  = (Return tt, mkWorld (logs w ++ [record]) (calls w) (hub w))
  /\ (forall findings,
        batch_import_findings sh (hub w) region findings = inr (st, resp) ->
        submit_findings sh region findings w
        = (Return tt,
           mkWorld (logs w ++ [record])
             (calls w ++ [Call_batch_import_findings region findings]) st))
  /\ (forall finding_output session products,
        securityhub_client sh (hub w) region = None ->
        describe_hub sh (hub w) region = None ->
        list_enabled_products_for_import sh (hub w) region = inr products ->
        batch_import_findings sh (hub w) region [finding_output]
        = inr (st, resp) ->
        send_to_security_hub sh region finding_output (Some session) w
        = (Return tt,
           mkWorld
             (logs w
              ++ [mkLog INFO "Sending findings to Security Hub."]
              ++ (if str_contains "prowler/prowler" products then []
                  else [mkLog ERROR
                          ("Security Hub is enabled in " ++ region
                           ++ " but Prowler integration does not accept findings. More info: https://github.com/prowler-cloud/prowler/#security-hub-integration")])
              ++ [record])
             (calls w
              ++ [Call_client "securityhub" (Some region);
                  Call_describe_hub region;
                  Call_list_enabled_products_for_import region;
                  Call_batch_import_findings region [finding_output]])
             st)).
Proof.
  intros Hc Hf record. subst record. split_and!.
  - by apply report_failed_import_first with more.
  - intros findings Hb. by apply submit_findings_failed with resp more.
  - intros finding_output session products Hcl Hd Hp Hb.
    unfold send_to_security_hub, try_except, bind, session_hub_client,
      hub_call, hub_update, logger_info, logger_error, logger, ret.
    simpl. rewrite Hcl. simpl. rewrite Hd. simpl. rewrite Hp. simpl.
    destruct (str_contains "prowler/prowler" products); simpl;
      rewrite Hb; simpl;
      rewrite (report_failed_import_first resp failed more) by done;
      simpl; rewrite <- ?app_assoc; reflexivity.
Qed.

Lemma failed_import_logs_first_failure_only_witness :
  report_failed_import SampleFailures.two_failed (world0 tt)
  = (Return tt, mkWorld [SampleFailures.f2_rejected] [] tt)
  /\ send_to_security_hub SampleFailures.failing_hub "us-east-1" Sample.f2
       (Some Sample.base_session) (world0 tt)
     = (Return tt,
        mkWorld [mkLog INFO "Sending findings to Security Hub.";
                 SampleFailures.f2_rejected]
                [Call_client "securityhub" (Some "us-east-1");
                 Call_describe_hub "us-east-1";
                 Call_list_enabled_products_for_import "us-east-1";
                 Call_batch_import_findings "us-east-1" [Sample.f2]] tt).
Proof.
  destruct (failed_import_logs_first_failure_only SampleFailures.failing_hub
              "us-east-1" (world0 tt) tt SampleFailures.two_failed
              (mkFailed "f2" "InvalidInput" "Finding rejected")
              [mkFailed "f3" "LimitExceeded" "Too many requests"])
    as (Hr & _ & Hsend); [reflexivity | reflexivity |].
  split.
  - exact Hr.
  - exact (Hsend Sample.f2 Sample.base_session "prowler/prowler"
             eq_refl eq_refl eq_refl eq_refl).
Defined.

(** ** The store model *)

Lemma condition_holds_eq v w :
  condition_holds v (mkStringFilter (VStr w) "EQUALS") = true -> v = w.
Proof.
  unfold condition_holds. simpl. intros H%bool_decide_eq_true. congruence.
Qed.

(** What the filter of lines 365-372 selects in the store model. *)
Lemma finding_matches_findings_filter account region f :
  finding_matches (findings_filter account region) f = true ->
  ProductName f = "Prowler" /\ RecordState f = "ACTIVE"
  /\ account = Some (AwsAccountId f) /\ Region f = region.
Proof.
  unfold finding_matches, findings_filter, field_matches. simpl.
  rewrite !andb_true_iff, !orb_false_r.
  intros [[[H1 H2] H3] H4].
  apply condition_holds_eq in H1, H2, H4.
  unfold condition_holds in H3. simpl in H3.
  apply bool_decide_eq_true in H3.
  destruct account; simpl in H3; [| done].
  split_and!; congruence.
Qed.

Lemma upsert_elem store g e : e ∈ upsert store g -> e = g \/ e ∈ store.
Proof.
  unfold upsert. destruct (existsb (same_finding g) store).
  - intros (f & -> & Hf)%list_elem_of_fmap.
    destruct (same_finding g f); auto.
  - intros [He | He]%elem_of_app; [by right |].
    apply list_elem_of_singleton in He. by left.
Qed.

Lemma upsert_archived_in a store :
  RecordState a = "ARCHIVED" -> archived_in a (upsert store a).
Proof.
  intros Ha e He Hsame. unfold upsert in He.
  destruct (existsb (same_finding a) store) eqn:Hex.
  - apply list_elem_of_fmap in He as (f & -> & Hf).
    destruct (same_finding a f) eqn:Hf'; [done | congruence].
  - apply elem_of_app in He as [He | He].
    + assert (existsb (same_finding a) store = true); [| congruence].
      apply existsb_exists. exists e. split; [by apply list_elem_of_In | done].
    + apply list_elem_of_singleton in He. by subst.
Qed.

Lemma archived_in_upsert a store x :
  archived_in a store -> RecordState x = "ARCHIVED" ->
  archived_in a (upsert store x).
Proof.
  intros Ha Hx e He Hsame.
  apply upsert_elem in He as [-> | He]; [done | by apply Ha].
Qed.

Lemma archived_in_fold a store xs :
  archived_in a store -> Forall (fun x => RecordState x = "ARCHIVED") xs ->
  archived_in a (fold_left upsert xs store).
Proof.
  intros Ha Hxs. revert store Ha.
  induction Hxs as [| x xs Hx Hxs IH]; intros store Ha; [done |].
  simpl. by apply IH, archived_in_upsert.
Qed.

Lemma fold_upsert_archived_in a store xs :
  a ∈ xs -> Forall (fun x => RecordState x = "ARCHIVED") xs ->
  archived_in a (fold_left upsert xs store).
Proof.
  intros Ha Hxs. revert store.
  induction Hxs as [| x xs Hx Hxs IH]; intros store.
  - by apply elem_of_nil in Ha.
  - simpl. apply elem_of_cons in Ha as [-> | Ha].
    + apply archived_in_fold; [| done]. by apply upsert_archived_in.
    + by apply IH.
Qed.

Lemma fold_upsert_elem store xs e :
  e ∈ fold_left upsert xs store -> e ∈ xs \/ e ∈ store.
Proof.
  revert store. induction xs as [| x xs IH]; intros store; simpl; [by right |].
  intros [He | He]%IH; [left; by right |].
  apply upsert_elem in He as [-> | He]; [left; by left | by right].
Qed.

Lemma active_within_refl store : active_within store store.
Proof. by intros f. Qed.

Lemma active_within_trans s1 s2 s3 :
  active_within s1 s2 -> active_within s2 s3 -> active_within s1 s3.
Proof. intros H12 H23 f Hf Ha. apply H12; [| done]. by apply H23. Qed.

Lemma fold_upsert_active_within store xs :
  Forall (fun x => RecordState x = "ARCHIVED") xs ->
  active_within store (fold_left upsert xs store).
Proof.
  intros Hxs f Hf Ha. apply fold_upsert_elem in Hf as [Hf | Hf]; [| done].
  rewrite Forall_forall in Hxs. apply Hxs in Hf. congruence.
Qed.

Lemma nothing_to_archive_active_within ai s s' group :
  nothing_to_archive ai s group -> active_within s s' ->
  nothing_to_archive ai s' group.
Proof.
  intros Hn Hs region f Hr Hf Hm. apply (Hn region f Hr); [| done].
  apply Hs; [done |].
  by apply finding_matches_findings_filter in Hm as (_ & ? & _).
Qed.

Lemma errors_app l1 l2 : errors (l1 ++ l2) = (errors l1 ++ errors l2)%list.
Proof. apply filter_app. Qed.

Lemma errors_nil_app l1 l2 : errors (l1 ++ l2) = [] -> errors l1 = [].
Proof. rewrite errors_app. by intros [? _]%app_eq_nil. Qed.

Lemma extends_errors {St A} (m : Run St A) w :
  extends m -> errors (logs (m w).2) = [] -> errors (logs w) = [].
Proof.
  intros Hm. destruct (Hm w) as (dl & dc & -> & _). apply errors_nil_app.
Qed.

Section StoreRuns.
Context (o : StoreOracle).
Implicit Types w : World (list Finding).

Lemma failed_none batch :
  omap (failed_finding o) batch = [] ->
  filter (fun f => is_rejected o f = false) batch = batch.
Proof.
  induction batch as [| f batch IH]; [done |]. intros H.
  change (omap (failed_finding o) (f :: batch))
    with (match failed_finding o f with
          | Some y => y :: omap (failed_finding o) batch
          | None => omap (failed_finding o) batch
          end) in H.
  assert (rejected o f = None) as Hf.
  { unfold failed_finding in H at 1.
    by destruct (rejected o f) as [[code msg] |]. }
  unfold failed_finding in H at 1. rewrite Hf in H.
  rewrite filter_cons_True by (unfold is_rejected; by rewrite Hf).
  by rewrite IH.
Qed.

(** A batch the store takes without an error record is stored whole. *)
Lemma submit_findings_stored region batch w w' :
  submit_findings (ListStore o) region batch w = (Return tt, w') ->
  errors (logs w') = [] ->
  hub w' = fold_left upsert batch (hub w) /\ errors (logs w) = [].
Proof.
  rewrite submit_findings_unfold. simpl. unfold store_batch_import.
  destruct (_ || _); [done |].
  set (failed := omap (failed_finding o) batch).
  destruct failed as [| x failed'] eqn:Hfailed.
  - subst failed. rewrite (failed_none batch Hfailed).
    rewrite report_failed_import_none by (simpl; lia).
    intros [= <-]. simpl. auto.
  - rewrite (report_failed_import_first _ x failed')
      by (simpl; first [lia | done]).
    intros [= <-]. simpl. rewrite errors_app. simpl.
    intros [_ H]%app_eq_nil. discriminate.
Qed.

Lemma submit_loop_stored region batches w w' :
  for_each batches (submit_findings (ListStore o) region) w
  = (Return tt, w') ->
  errors (logs w') = [] ->
  hub w' = fold_left upsert (concat batches) (hub w)
  /\ errors (logs w) = [].
Proof.
  revert w. induction batches as [| b bs IH]; intros w.
  - simpl. unfold ret. intros [= <-]. auto.
  - cbn [for_each]. unfold bind.
    destruct (submit_findings (ListStore o) region b w)
      as [[[] | e |] w1] eqn:Hb; [| done ..].
    intros Hrest Herr.
    destruct (IH w1 Hrest Herr) as [Hhub Herr1].
    destruct (submit_findings_stored region b w w1 Hb Herr1) as [Hhub1 Herr0].
    split; [| done].
    simpl. by rewrite fold_left_app, <- Hhub1.
Qed.

(** The findings a group archives in the store model. *)
Lemma to_archive_store ai ts cur region store :
  findings_to_archive ts (current_findings_ids cur)
    (list_chunked
       (filter (fun f => finding_matches
                           (findings_filter (audited_account ai) region) f
                         = true) store))
  = map (archived ts)
      (filter (fun f => Id f ∉ map Id cur)
         (filter (fun f => finding_matches
                             (findings_filter (audited_account ai) region) f
                           = true) store)).
Proof.
  by rewrite findings_to_archive_filter, current_findings_ids_map,
    list_chunked_concat.
Qed.

Lemma archived_all ts (l : list Finding) :
  Forall (fun x => RecordState x = "ARCHIVED") (map (archived ts) l).
Proof. apply Forall_fmap, Forall_forall. by intros. Qed.

Lemma same_finding_archived ts f : same_finding (archived ts f) f = true.
Proof. unfold same_finding. simpl. by rewrite !String.eqb_refl. Qed.

(** After a group went through without an error record, it has nothing
    left to archive. *)
Lemma resolve_group_first ai ts group w w' :
  resolve_group (ListStore o) ai ts group w = (Return tt, w') ->
  errors (logs w') = [] ->
  active_within (hub w) (hub w')
  /\ nothing_to_archive ai (hub w') group
  /\ errors (logs w) = [].
Proof.
  destruct group as [arn cur]. rewrite resolve_group_unfold.
  destruct (region_of arn) as [region |] eqn:Hr; [| done].
  destruct (archive_previous_findings (ListStore o) ai ts region cur w)
    as [[[] | e |] w1] eqn:Ha; [| | done].
  2:{ intros [= <-]. simpl. rewrite errors_app. simpl.
      intros [_ H]%app_eq_nil. discriminate. }
  intros [= <-] Herr.
  rewrite archive_previous_findings_unfold in Ha. simpl in Ha.
  destruct (audit_session ai) as [s |]; [| done].
  destruct (hub_not_enabled o region); [done |].
  rewrite to_archive_store in Ha.
  apply submit_loop_stored in Ha as [Hhub Herr0]; [| done].
  simpl in Hhub, Herr0. rewrite list_chunked_concat in Hhub.
  apply errors_nil_app in Herr0.
  assert (active_within (hub w) (hub w1)) as Hact
    by (rewrite Hhub; apply fold_upsert_active_within, archived_all).
  split_and!; [done | | done].
  intros region' f Hr' Hf Hm. simpl in Hr'.
  assert (region' = region) as -> by congruence.
  destruct (decide (Id f ∈ map Id cur)) as [| Hnot]; [done | exfalso].
  pose proof (finding_matches_findings_filter _ _ _ Hm) as (_ & Hactive & _).
  assert (f ∈ hub w) as Hf0 by (by apply Hact).
  assert (archived_in (archived ts f) (hub w1)) as Harch.
  { rewrite Hhub. apply fold_upsert_archived_in; [| apply archived_all].
    apply list_elem_of_fmap. exists f. split; [done |].
    apply list_elem_of_filter. split; [done |].
    by apply list_elem_of_filter. }
  specialize (Harch f Hf (same_finding_archived ts f)). congruence.
Qed.

Lemma resolve_groups_first ai ts groups w w' :
  for_each groups (resolve_group (ListStore o) ai ts) w = (Return tt, w') ->
  errors (logs w') = [] ->
  active_within (hub w) (hub w')
  /\ Forall (nothing_to_archive ai (hub w')) groups.
Proof.
  revert w. induction groups as [| g gs IH]; intros w.
  - simpl. unfold ret. intros [= <-] _. split; [apply active_within_refl | done].
  - cbn [for_each]. unfold bind.
    destruct (resolve_group (ListStore o) ai ts g w)
      as [[[] | e |] w1] eqn:Hg; [| done ..].
    intros Hrest Herr.
    destruct (IH w1 Hrest Herr) as [Hact Hall].
    assert (errors (logs w1) = []) as Herr1.
    { pose proof (extends_errors
                    (for_each gs (resolve_group (ListStore o) ai ts)) w1) as H.
      rewrite Hrest in H. apply H; [| done].
      apply extends_for_each. intros. apply extends_resolve_group. }
    destruct (resolve_group_first ai ts g w w1 Hg Herr1)
      as (Hact1 & Hnone & _).
    split; [by eapply active_within_trans |].
    constructor; [| done].
    by eapply nothing_to_archive_active_within.
Qed.

(** A group with nothing to archive submits nothing and leaves the store
    as it is. *)
Lemma resolve_group_second ai ts group w :
  nothing_to_archive ai (hub w) group ->
  hub (resolve_group (ListStore o) ai ts group w).2 = hub w
  /\ submissions
       (new_calls w (resolve_group (ListStore o) ai ts group w).2) = [].
Proof.
  destruct group as [arn cur]. intros Hnone.
  destruct (region_of arn) as [region |] eqn:Hr.
  2:{ rewrite resolve_group_calls_None by done. simpl.
      by rewrite new_calls_same. }
  destruct (resolve_group_calls (ListStore o) ai ts arn cur region w Hr)
    as [Hc Hh].
  rewrite Hh, (new_calls_eq _ _ _ Hc).
  assert (findings_to_archive ts (current_findings_ids cur)
            (list_chunked
               (filter (fun f => finding_matches
                          (findings_filter (audited_account ai) region) f
                        = true) (hub w))) = []) as Hnil.
  { rewrite to_archive_store.
    destruct (filter (fun f => Id f ∉ map Id cur) _) as [| f l] eqn:Hfil;
      [done | exfalso].
    assert (f ∈ f :: l) as Hin by left.
    rewrite <- Hfil in Hin.
    apply list_elem_of_filter in Hin as [Hnot [Hm Hf]%list_elem_of_filter].
    apply Hnot. by apply (Hnone region f). }
  destruct (archive_previous_findings_run (ListStore o) ai ts region cur w)
    as [(e & dc & Hrun & Hq & Hs & _)
       | [(e & _ & Hrun) | (pages & Hq & Hrun)]]; rewrite Hrun.
  - simpl. by rewrite (new_calls_app w _ dc).
  - simpl. by rewrite (new_calls_app w _ (group_prelude ai region)).
  - simpl in Hq. injection Hq as <-. rewrite Hnil. simpl. unfold ret. simpl.
    by rewrite (new_calls_app w _ (group_prelude ai region)).
Qed.

Lemma resolve_groups_second ai ts groups w :
  Forall (nothing_to_archive ai (hub w)) groups ->
  hub (for_each groups (resolve_group (ListStore o) ai ts) w).2 = hub w
  /\ submissions
       (new_calls w
          (for_each groups (resolve_group (ListStore o) ai ts) w).2) = [].
Proof.
  intros Hall. revert w Hall.
  induction groups as [| g gs IH]; intros w Hall.
  - simpl. by rewrite new_calls_same.
  - apply Forall_cons in Hall as [Hg Hgs].
    rewrite for_each_new_calls by apply extends_resolve_group.
    destruct (resolve_group_second ai ts g w Hg) as [Hh Hs].
    cbn [for_each]. unfold bind.
    destruct (resolve_group (ListStore o) ai ts g w) as [[[] | e |] w1];
      simpl in *; rewrite submissions_app, Hs; [| by rewrite Hh ..].
    rewrite <- Hh in Hgs. destruct (IH w1 Hgs) as [IHh IHs].
    by rewrite IHh, IHs.
Qed.
End StoreRuns.

(** ** Idempotence (claim C3) *)

(** C3. In the store model, when a first run of the reconciliation ends
    with no error record (no region failed and the store took every batch),
    a second run with the same current findings on the store the first run
    left submits nothing and leaves the store as it is: the query selects
    ACTIVE findings only, and every finding the first run submitted is now
    stored ARCHIVED. *)
Theorem reconcile_second_run_archives_nothing (o : StoreOracle)
  (json : list Finding) (ai : AWS_Audit_Info) (ts1 ts2 : string)
  (store : list Finding) (w1 : World (list Finding)) :
  resolve_security_hub_previous_findings (ListStore o) json ai ts1
    (world0 store) = (Return tt, w1) ->
  errors (logs w1) = [] ->
  submissions
    (calls (resolve_security_hub_previous_findings (ListStore o) json ai ts2
              (world0 (hub w1))).2) = []
  /\ hub (resolve_security_hub_previous_findings (ListStore o) json ai ts2
            (world0 (hub w1))).2 = hub w1.
Proof.
  unfold resolve_security_hub_previous_findings, bind, logger_info, logger.
  simpl. intros Hrun Herr.
  destruct (resolve_groups_first o ai ts1 _ _ _ Hrun Herr) as [_ Hall].
  match goal with
  | |- context [for_each ?gs ?f ?w2] =>
      destruct (resolve_groups_second o ai ts2 gs w2 Hall) as [Hh Hs]
  end.
  split; [| done].
  unfold new_calls in Hs. simpl in Hs. by rewrite drop_0 in Hs.
Qed.

Lemma reconcile_second_run_archives_nothing_witness :
  submissions (calls SampleRuns.run_f1_again.2) = []
  /\ hub SampleRuns.run_f1_again.2 = hub SampleRuns.run_f1.2.
Proof.
  apply (reconcile_second_run_archives_nothing Sample.accepting [Sample.f1]
           Sample.audit_info "2022-11-02T00:00:00Z" "2022-11-03T00:00:00Z"
           [Sample.f1; Sample.f2] SampleRuns.run_f1.2).
  - vm_compute. reflexivity.
  - vm_compute. reflexivity.
Defined.

(** ** Regional clients (claim C8) *)

Section Fanout.
Context {St : Type} (env : AwsEnv).
Implicit Types w : World St.

Lemma extends_new_client service region :
  extends (@new_client St env service region).
Proof. unfold new_client. shape. Qed.

Lemma extends_regional_clients_loop service ai regions acc :
  extends (@regional_clients_loop St env service ai regions acc).
Proof.
  revert acc. induction regions as [| region regions IH]; intros acc; simpl.
  - shape.
  - destruct (audit_session ai); [| shape].
    apply extends_bind; [apply extends_new_client | auto].
Qed.

Lemma regions_for_elem json requested region :
  region ∈ regions_for json requested
  <-> region ∈ json
      /\ (truthy_list requested = true -> region ∈ default [] requested).
Proof.
  unfold regions_for. destruct (truthy_list requested).
  - rewrite elem_of_elements, elem_of_intersection, !elem_of_list_to_set.
    split; [intros [? ?]; auto | intros [? Hreq]; auto].
  - split; [intros ?; split; [done | discriminate] | by intros [? _]].
Qed.

Lemma regions_for_empty json requested :
  truthy_list requested = true ->
  (forall region, region ∈ json -> region ∉ default [] requested) ->
  regions_for json requested = [].
Proof.
  intros Ht Hdisj. unfold regions_for. rewrite Ht.
  apply elements_empty_iff. intros region. split.
  - rewrite elem_of_intersection, !elem_of_list_to_set.
    intros [Hj Hr]. by destruct (Hdisj region Hj).
  - by intros ?%elem_of_empty.
Qed.

Lemma client_regions_single service region :
  client_regions service [Call_client service (Some region)] = [region].
Proof. simpl. by rewrite String.eqb_refl. Qed.

Lemma new_client_run service region w :
  new_client env service region w
  = (match boto3_client env service region with
     | Some e => Raise e
     | None => Return tt
     end,
     mkWorld (logs w) (calls w ++ [Call_client service region]) (hub w)).
Proof.
  unfold new_client, api, bind, record.
  by destruct (boto3_client env service region).
Qed.

(** The loop constructs clients for a prefix of the regions, in order,
    and for all of them when it returns. *)
Lemma regional_clients_loop_run service ai regions acc w :
  let r := regional_clients_loop env service ai regions acc w in
  client_regions service (new_calls w r.2) `prefix_of` regions
  /\ (forall clients, r.1 = Return clients ->
        client_regions service (new_calls w r.2) = regions
        /\ exists built,
             clients = (acc ++ built)%list
             /\ map client_region built = regions
             /\ Forall (fun c => client_service c = service
                                 /\ Some (client_session c) = audit_session ai)
                       built)
  /\ (forall s, audit_session ai = Some s ->
        (forall region, region ∈ regions ->
           boto3_client env service (Some region) = None) ->
        r.1 = Return (acc ++ map (mkClient service s) regions)%list).
Proof.
  revert acc w. induction regions as [| region regions IH]; intros acc w.
  - simpl. rewrite new_calls_same. split_and!.
    + done.
    + intros clients [= <-]. split; [done |]. exists [].
      by rewrite app_nil_r.
    + intros. by rewrite app_nil_r.
  - cbn [regional_clients_loop]. destruct (audit_session ai) as [s |] eqn:Hs.
    2:{ simpl. rewrite new_calls_same. split_and!; [apply prefix_nil | done ..]. }
    unfold bind. rewrite new_client_run.
    destruct (boto3_client env service (Some region)) as [e |] eqn:Hc.
    { cbn [fst snd].
      rewrite (new_calls_app w _ [Call_client service (Some region)]) by done.
      rewrite client_regions_single. split_and!.
      - by apply prefix_cons, prefix_nil.
      - done.
      - intros s' _ Hall. rewrite Hall in Hc by left. done. }
    match goal with
    | |- context [regional_clients_loop env service ai regions ?acc' ?w1] =>
        destruct (IH acc' w1) as (Hpre & Hret & Hall);
        destruct (extends_regional_clients_loop service ai regions acc' w1)
          as (dl & dc & _ & Hdc)
    end.
    rewrite (new_calls_app _ _ _ Hdc) in Hpre, Hret.
    simpl in Hdc. rewrite <- app_assoc in Hdc.
    cbv zeta. rewrite (new_calls_app w _ _ Hdc).
    change (Call_client service (Some region) :: dc)
      with ([Call_client service (Some region)] ++ dc)%list.
    rewrite client_regions_app, client_regions_single. simpl.
    split_and!.
    + by apply prefix_cons.
    + intros clients Hr. destruct (Hret clients Hr) as (-> & built & -> & <- & Hb).
      split; [done |].
      exists (mkClient service s region :: built).
      rewrite <- app_assoc. split_and!; [done | done |].
      constructor; [by split | done].
    + intros s' [= <-] Hok. rewrite (Hall s eq_refl).
      * by rewrite <- app_assoc.
      * intros r Hr. apply Hok. by right.
Qed.
End Fanout.

(** C8. The regions for which [generate_regional_clients] constructs a
    client all belong to the catalog's list for the service and the audited
    partition and, when regions were requested, to the requested ones; the
    clients returned are those constructed. When the catalog has the
    service and partition and no catalog region is requested, the result is
    the empty list and nothing else happens; and when the catalog has the
    entry and every construction succeeds, the function returns clients for
    exactly the regions in both sets. *)
Theorem regional_clients_within_catalog {St} (env : AwsEnv)
  (data : gmap string (gmap string (list string))) (service : string)
  (ai : AWS_Audit_Info) (w : World St) :
  let r := generate_regional_clients env data service ai w in
  let requested := default [] (audited_regions ai) in
  (forall region,
     region ∈ client_regions service (new_calls w r.2) ->
     exists regions_of_service p l,
       data !! service = Some regions_of_service
       /\ audited_partition ai = Some p
       /\ regions_of_service !! p = Some l
       /\ region ∈ l
       /\ (truthy_list (audited_regions ai) = true -> region ∈ requested))
  /\ (forall clients,
        r.1 = Return clients ->
        map client_region clients = client_regions service (new_calls w r.2)
        /\ Forall (fun c => client_service c = service
                            /\ Some (client_session c) = audit_session ai)
                  clients)
  /\ (forall regions_of_service p l,
        data !! service = Some regions_of_service ->
        audited_partition ai = Some p ->
        regions_of_service !! p = Some l ->
        (truthy_list (audited_regions ai) = true ->
         (forall region, region ∈ l -> region ∉ requested) ->
         r = (Return [], w))
        /\ (forall s, audit_session ai = Some s ->
              (forall region, boto3_client env service (Some region) = None) ->
              exists clients,
                r.1 = Return clients
                /\ forall region,
                     region ∈ map client_region clients
                     <-> region ∈ l
                         /\ (truthy_list (audited_regions ai) = true ->
                             region ∈ requested))).
Proof.
  intros r requested. subst r requested.
  unfold generate_regional_clients, json_regions_of, bind, raise, ret.
  destruct (data !! service) as [regions_of_service |] eqn:Hd.
  2:{ simpl. rewrite new_calls_same. split_and!; [| done | done].
      intros region []%elem_of_nil. }
  destruct (audited_partition ai) as [p |] eqn:Hp.
  2:{ simpl. rewrite new_calls_same. split_and!; [| done | done].
      intros region []%elem_of_nil. }
  destruct (regions_of_service !! p) as [l |] eqn:Hl.
  2:{ simpl. rewrite new_calls_same. split_and!; [| done |].
      - intros region []%elem_of_nil.
      - intros ? ? ? [= <-] [= <-]. congruence. }
  destruct (regional_clients_loop_run env service ai
              (regions_for l (audited_regions ai)) [] w)
    as (Hpre & Hret & Hall).
  split_and!.
  - intros region Hin. exists regions_of_service, p, l.
    split_and!; [done | done | done | ..];
      destruct Hpre as [rest Hrest];
      assert (region ∈ regions_for l (audited_regions ai)) as Hreg
        by (rewrite Hrest; apply elem_of_app; by left);
      apply regions_for_elem in Hreg as [? ?]; done.
  - intros clients Hr. destruct (Hret clients Hr) as (-> & built & -> & <- & Hb).
    done.
  - intros ? ? ? [= <-] [= <-] Hl'. assert (l0 = l) as -> by congruence.
    split.
    + intros Ht Hdisj. by rewrite (regions_for_empty l _ Ht Hdisj).
    + intros s Hs Hok. eexists. split; [by apply (Hall s) |].
      intros region. simpl. rewrite <- list_fmap_compose.
      change (client_region ∘ mkClient service s) with (@id string).
      rewrite list_fmap_id. apply regions_for_elem.
Qed.

Lemma regional_clients_within_catalog_witness :
  generate_regional_clients (St := unit) Sample.env Sample.services_json "ec2"
    (set_audited_regions (Some ["sa-east-1"]) Sample.audit_info) (world0 tt)
  = (Return [], world0 tt)
  /\ exists clients,
       (generate_regional_clients (St := unit) Sample.env Sample.services_json
          "ec2" (set_audited_regions (Some ["us-east-1"; "sa-east-1"])
                   Sample.audit_info) (world0 tt)).1 = Return clients
       /\ "us-east-1" ∈ map client_region clients.
Proof.
  split.
  - destruct (regional_clients_within_catalog (St := unit) Sample.env
                Sample.services_json "ec2"
                (set_audited_regions (Some ["sa-east-1"]) Sample.audit_info)
                (world0 tt)) as (_ & _ & H).
    edestruct H as [Hempty _]; [reflexivity | reflexivity | reflexivity |].
    apply Hempty; [reflexivity |].
    intros region Hin Hreq. simpl in Hreq.
    apply list_elem_of_singleton in Hreq as ->.
    revert Hin. clear. intros Hin.
    repeat (apply elem_of_cons in Hin as [Hin | Hin]; [discriminate |]).
    by apply elem_of_nil in Hin.
  - destruct (regional_clients_within_catalog (St := unit) Sample.env
                Sample.services_json "ec2"
                (set_audited_regions (Some ["us-east-1"; "sa-east-1"])
                   Sample.audit_info) (world0 tt)) as (_ & _ & H).
    edestruct H as [_ Hsome]; [reflexivity | reflexivity | reflexivity |].
    destruct (Hsome Sample.base_session eq_refl (fun _ => eq_refl))
      as (clients & Hr & Hiff).
    exists clients. split; [exact Hr |].
    apply Hiff. split.
    + right. left.
    + intros _. left.
Defined.

(** ** The bootstrap: shapes *)

Lemma extends_session_client {St} env s service :
  extends (@session_client St env s service).
Proof. unfold session_client. shape. Qed.

Lemma extends_getattr_original_session {St} o :
  extends (@getattr_original_session St o).
Proof. unfold getattr_original_session. shape. Qed.

Lemma extends_getattr_assumed_role_info {St} o :
  extends (@getattr_assumed_role_info St o).
Proof. unfold getattr_assumed_role_info. shape. Qed.

#[export] Hint Resolve extends_new_client extends_session_client
  extends_getattr_original_session extends_getattr_assumed_role_info
  : run_shape.

Lemma extends_assume_role {St} env o : extends (@assume_role St env o).
Proof. unfold assume_role. shape. Qed.

Lemma extends_set_session {St} env m ai : extends (@set_session St env m ai).
Proof. unfold set_session, logger_info. shape. Qed.

Lemma extends_validate_credentials {St} env s :
  extends (@validate_credentials St env s).
Proof. unfold validate_credentials. shape. Qed.

#[export] Hint Resolve extends_assume_role extends_set_session
  extends_validate_credentials : run_shape.

Lemma extends_refresh {St} env ri : extends (@refresh St env ri).
Proof. unfold refresh, logger_info. shape. Qed.

Lemma extends_AWS_Provider_init {St} env ai :
  extends (@AWS_Provider_init St env ai).
Proof. unfold AWS_Provider_init, logger_info. shape. Qed.

Lemma extends_get_organizations_metadata {St} env a c :
  extends (@get_organizations_metadata St env a c).
Proof.
  unfold get_organizations_metadata. apply extends_bind; [shape |].
  intros [md tags]. shape.
Qed.

#[export] Hint Resolve extends_refresh extends_AWS_Provider_init
  extends_get_organizations_metadata : run_shape.

Lemma extends_organizations_link {St} env dur org ai :
  extends (@organizations_link St env dur org ai).
Proof. unfold organizations_link, logger_info. shape. Qed.

Lemma extends_workload_link {St} env role dur ext ai parsed :
  extends (@workload_link St env role dur ext ai parsed).
Proof. unfold workload_link, logger_info. shape. Qed.

#[export] Hint Resolve extends_organizations_link extends_workload_link
  : run_shape.

Lemma extends_provider_set_session {St} env p role dur ext regions org :
  extends (@provider_set_session St env p role dur ext regions org).
Proof.
  unfold provider_set_session, logger_info.
  repeat first
    [ progress intros
    | solve [eauto with run_shape]
    | apply extends_bind
    | match goal with
      | |- extends (match ?x with _ => _ end) => destruct x
      end ].
Qed.

(** ** The bootstrap: failed calls (claim C9) *)

Section Fatal.
Context {St : Type} (env : AwsEnv).
Implicit Types w : World St.

Lemma raises_no_calls {A} (m : Run St A) :
  (forall w, calls (m w).2 = calls w) -> raises_on_failure env m.
Proof.
  intros Hm w c e Hin. rewrite (new_calls_eq w _ w (Hm w)), new_calls_same in Hin.
  by apply elem_of_nil in Hin.
Qed.

Lemma fatal_no_calls {A} (m : Run St A) :
  (forall w, calls (m w).2 = calls w) -> fatal_on_failure env m.
Proof.
  intros Hm w c e Hin. rewrite (new_calls_eq w _ w (Hm w)), new_calls_same in Hin.
  by apply elem_of_nil in Hin.
Qed.

Lemma raises_ret {A} (a : A) : raises_on_failure env (@ret St A a).
Proof. by apply raises_no_calls. Qed.

Lemma raises_raise {A} e : raises_on_failure env (@raise St A e).
Proof. by apply raises_no_calls. Qed.

Lemma raises_logger lvl m : raises_on_failure env (@logger St lvl m).
Proof. by apply raises_no_calls. Qed.

Lemma fatal_ret {A} (a : A) : fatal_on_failure env (@ret St A a).
Proof. by apply fatal_no_calls. Qed.

Lemma fatal_raise {A} e : fatal_on_failure env (@raise St A e).
Proof. by apply fatal_no_calls. Qed.

Lemma fatal_logger lvl m : fatal_on_failure env (@logger St lvl m).
Proof. by apply fatal_no_calls. Qed.

Lemma raises_api {A} c (r : Result A) :
  call_failure env c = match r with inl e => Some e | inr _ => None end ->
  raises_on_failure env (@api St A c r).
Proof.
  intros Hc w c' e Hin Hf.
  assert ((api c r w).2 = mkWorld (logs w) (calls w ++ [c]) (hub w)) as Hw
    by (unfold api, bind, record; by destruct r).
  rewrite Hw in Hin |- *.
  rewrite (new_calls_app w _ [c]) in Hin |- * by done.
  apply list_elem_of_singleton in Hin as ->.
  split; [| done].
  rewrite Hf in Hc. unfold api, bind, record. destruct r; simpl; congruence.
Qed.

Lemma new_calls_bind {A B} (m : Run St A) (k : A -> Run St B) w a w1 :
  extends m -> (forall a, extends (k a)) ->
  m w = (Return a, w1) ->
  new_calls w (k a w1).2
  = (new_calls w w1 ++ new_calls w1 (k a w1).2)%list.
Proof.
  intros Hm Hk Hw.
  destruct (Hm w) as (dl & dc & _ & Hc). rewrite Hw in Hc. simpl in Hc.
  destruct (Hk a w1) as (dl' & dc' & _ & Hc').
  rewrite (new_calls_app w w1 dc Hc), (new_calls_app w1 _ dc' Hc').
  apply new_calls_app. by rewrite Hc', Hc, app_assoc.
Qed.

Lemma last_app_Some {A} (l1 l2 : list A) x :
  last l2 = Some x -> last (l1 ++ l2) = Some x.
Proof. intros H. by rewrite last_app, H. Qed.

Lemma raises_bind {A B} (m : Run St A) (k : A -> Run St B) :
  extends m -> (forall a, extends (k a)) ->
  raises_on_failure env m -> (forall a, raises_on_failure env (k a)) ->
  raises_on_failure env (bind m k).
Proof.
  intros Em Ek Hm Hk w c e Hin Hf. specialize (Hm w c e).
  unfold bind in *. destruct (m w) as [[a | e' |] w1] eqn:Hw;
    simpl in *.
  - rewrite (new_calls_bind m k w a w1 Em Ek Hw) in Hin |- *.
    apply elem_of_app in Hin as [Hin | Hin].
    + by destruct (Hm Hin Hf).
    + destruct (Hk a w1 c e Hin Hf) as [Hr Hl].
      split; [done | by apply last_app_Some].
  - destruct (Hm Hin Hf) as [[= ->] Hl]. by split.
  - by destruct (Hm Hin Hf).
Qed.

Lemma fatal_bind {A B} (m : Run St A) (k : A -> Run St B) :
  extends m -> (forall a, extends (k a)) ->
  fatal_on_failure env m -> (forall a, fatal_on_failure env (k a)) ->
  fatal_on_failure env (bind m k).
Proof.
  intros Em Ek Hm Hk w c e Hin Hf. specialize (Hm w c e).
  unfold bind in *. destruct (m w) as [[a | e' |] w1] eqn:Hw;
    simpl in *.
  - rewrite (new_calls_bind m k w a w1 Em Ek Hw) in Hin |- *.
    apply elem_of_app in Hin as [Hin | Hin].
    + by destruct (Hm Hin Hf).
    + destruct (Hk a w1 c e Hin Hf) as (Hr & Hl & Hlog).
      split_and!; [done | by apply last_app_Some | done].
  - by destruct (Hm Hin Hf).
  - destruct (Hm Hin Hf) as (_ & Hl & Hlog). by split_and!.
Qed.

(** The handler shared by the fatal paths turns a propagating failure
    into a logged exit. *)
Lemma fatal_try_except {A} (m : Run St A) :
  raises_on_failure env m ->
  fatal_on_failure env (try_except m critical_exit).
Proof.
  intros Hm w c e Hin Hf. specialize (Hm w c e).
  unfold try_except in *. destruct (m w) as [[a | e' |] w1] eqn:Hw;
    simpl in *.
  - by destruct (Hm Hin Hf).
  - change (new_calls w (critical_exit e' w1).2) with (new_calls w w1)
      in Hin |- *.
    destruct (Hm Hin Hf) as [[= ->] Hl].
    split_and!; [done | done |].
    unfold critical_exit, bind, logger_critical, logger, sys_exit. simpl.
    by rewrite last_snoc.
  - by destruct (Hm Hin Hf).
Qed.
End Fatal.

#[export] Hint Resolve raises_ret raises_raise raises_logger fatal_ret
  fatal_raise fatal_logger : run_shape.

(** Failure goals follow the structure of the program too. *)
Ltac failure_shape :=
  repeat first
    [ progress intros
    | solve [eauto with run_shape]
    | apply raises_api; simpl;
      solve [ reflexivity
            | match goal with
              | |- context [match ?x with _ => _ end] => by destruct x
              end ]
    | apply fatal_try_except
    | apply raises_bind | apply fatal_bind
    | match goal with
      | |- raises_on_failure _ (match ?x with _ => _ end) => destruct x
      | |- fatal_on_failure _ (match ?x with _ => _ end) => destruct x
      | |- extends (match ?x with _ => _ end) => destruct x
      | |- extends _ => solve [shape]
      end ].

Section FatalBootstrap.
Context {St : Type} (env : AwsEnv).

Lemma raises_new_client service region :
  raises_on_failure env (@new_client St env service region).
Proof. unfold new_client. failure_shape. Qed.

Lemma raises_session_client s service :
  raises_on_failure env (@session_client St env s service).
Proof.
  unfold session_client. destruct s; [| failure_shape].
  apply raises_bind; [shape | shape | apply raises_new_client | failure_shape].
Qed.

Lemma raises_getattr_original_session o :
  raises_on_failure env (@getattr_original_session St o).
Proof. unfold getattr_original_session. failure_shape. Qed.

Lemma raises_getattr_assumed_role_info o :
  raises_on_failure env (@getattr_assumed_role_info St o).
Proof. unfold getattr_assumed_role_info. failure_shape. Qed.
End FatalBootstrap.

#[export] Hint Resolve raises_new_client raises_session_client
  raises_getattr_original_session raises_getattr_assumed_role_info
  : run_shape.

Lemma fatal_assume_role {St} env o :
  fatal_on_failure env (@assume_role St env o).
Proof. unfold assume_role. failure_shape. Qed.

Lemma fatal_set_session {St} env m ai :
  fatal_on_failure env (@set_session St env m ai).
Proof. unfold set_session, logger_info. failure_shape. Qed.

Lemma fatal_validate_credentials {St} env s :
  fatal_on_failure env (@validate_credentials St env s).
Proof. unfold validate_credentials. failure_shape. Qed.

#[export] Hint Resolve fatal_assume_role fatal_set_session
  fatal_validate_credentials : run_shape.

Lemma fatal_AWS_Provider_init {St} env ai :
  fatal_on_failure env (@AWS_Provider_init St env ai).
Proof. unfold AWS_Provider_init, logger_info. failure_shape. Qed.

Lemma fatal_get_organizations_metadata {St} env a c :
  fatal_on_failure env (@get_organizations_metadata St env a c).
Proof.
  unfold get_organizations_metadata.
  apply fatal_bind; [shape | intros [? ?]; shape | failure_shape |].
  intros [md tags]. failure_shape.
Qed.

#[export] Hint Resolve fatal_AWS_Provider_init
  fatal_get_organizations_metadata : run_shape.

Lemma fatal_organizations_link {St} env dur org ai :
  fatal_on_failure env (@organizations_link St env dur org ai).
Proof. unfold organizations_link, logger_info. failure_shape. Qed.

Lemma fatal_workload_link {St} env role dur ext ai parsed :
  fatal_on_failure env (@workload_link St env role dur ext ai parsed).
Proof. unfold workload_link, logger_info. failure_shape. Qed.

#[export] Hint Resolve fatal_organizations_link fatal_workload_link
  : run_shape.




(** ** The request of a role assumption (claim C6) *)

Lemma assume_role_requests_run {St} (env : AwsEnv) (ai : AWS_Audit_Info)
  (w : World St) :
  let ri := assumed_role_info ai in
  let kw :=
    ([("RoleArn", val_of_str (role_arn ri));
      ("RoleSessionName", VStr "ProwlerProAsessmentSession");
      ("DurationSeconds", val_of_int (session_duration ri))]
     ++ (if truthy_str (external_id ri)
         then [("ExternalId", val_of_str (external_id ri))] else []))%list in
  assume_role_requests
    (new_calls w (assume_role env (Obj_Audit_Info ai) w).2)
  = match original_session ai with
    | Some _ =>
        match boto3_client env "sts" None with
        | None => [kw]
        | Some _ => []
        end
    | None => []
    end.
Proof.
  intros ri kw. subst ri kw.
  unfold assume_role, try_except, bind, getattr_original_session,
    getattr_assumed_role_info, session_client, new_client, api, record,
    critical_exit, logger_critical, logger, sys_exit, raise, ret, new_calls.
  simpl.
  destruct (original_session ai) as [s |]; simpl;
    [| by rewrite drop_all].
  destruct (boto3_client env "sts" None) as [e |]; simpl;
    [by rewrite drop_app_length |].
  destruct (truthy_str (external_id (assumed_role_info ai))); simpl;
    match goal with
    | |- context [sts_assume_role env ?s ?kw] =>
        destruct (sts_assume_role env s kw)
    end; simpl; rewrite <- ?app_assoc, drop_app_length; reflexivity.
Qed.

(** C6, as the code has it. A request for a role assumption carries no
    external-id field when the external id of the role description is
    absent or is the empty string, and carries the external id unchanged
    when it is a non-empty string; with a base session and a client of the
    token service, exactly one request is sent. *)
Theorem assume_role_external_id {St} (env : AwsEnv) (ai : AWS_Audit_Info)
  (w : World St) :
  (forall kw,
     kw ∈ assume_role_requests
            (new_calls w (assume_role env (Obj_Audit_Info ai) w).2) ->
     kwarg "ExternalId" kw
     = match external_id (assumed_role_info ai) with
       | Some x => if String.eqb x "" then None else Some (VStr x)
       | None => None
       end)
  /\ (forall s,
        original_session ai = Some s ->
        boto3_client env "sts" None = None ->
        length (assume_role_requests
                  (new_calls w (assume_role env (Obj_Audit_Info ai) w).2))
        = 1%nat).
Proof.
  rewrite assume_role_requests_run. split.
  - intros kw Hin.
    destruct (original_session ai); [| by apply elem_of_nil in Hin].
    destruct (boto3_client env "sts" None); [by apply elem_of_nil in Hin |].
    apply list_elem_of_singleton in Hin as ->.
    destruct (external_id (assumed_role_info ai)) as [x |]; simpl; [| done].
    by destruct (String.eqb x "").
  - intros s -> ->. done.
Qed.

Lemma assume_role_external_id_witness :
  map (kwarg "ExternalId")
    (assume_role_requests
       (new_calls (world0 tt)
          (assume_role Sample.env
             (Obj_Audit_Info
                (SampleBootstrap.info_with_external_id (Some "shared-secret")))
             (world0 tt)).2))
  = [Some (VStr "shared-secret")].
Proof.
  destruct (assume_role_external_id (St := unit) Sample.env
              (SampleBootstrap.info_with_external_id (Some "shared-secret"))
              (world0 tt)) as [Hkw Hone].
  specialize (Hone Sample.base_session eq_refl eq_refl).
  destruct (assume_role_requests _) as [| kw [| ? ?]]; try discriminate Hone.
  simpl. f_equal. apply Hkw. left.
Defined.

(** C6, as stated, fails for an external id that is present and empty: the
    request carries no external-id field, where the claim has it sent as
    given. *)
Lemma assume_role_empty_external_id_omitted :
  external_id
    (assumed_role_info (SampleBootstrap.info_with_external_id (Some "")))
  = Some ""
  /\ map (kwarg "ExternalId")
       (assume_role_requests
          (calls (assume_role Sample.env
                    (Obj_Audit_Info
                       (SampleBootstrap.info_with_external_id (Some "")))
                    (world0 tt)).2))
     = [None].
Proof. vm_compute. done. Qed.

(** ** The audit identity context (claim C7) *)

(** Case analysis on a run that is known to return: every scrutinee is
    destructed, innermost first, and the branches that do not return are
    dropped. *)
Ltac destruct_run H :=
  repeat (simpl in H;
          match type of H with
          | context [match ?x with _ => _ end] =>
              lazymatch x with
              | context [match _ with _ => _ end] => fail
              | _ => destruct x eqn:?; try discriminate H
              end
          end).

Ltac unfold_bootstrap H :=
  unfold provider_set_session, organizations_link, workload_link,
    get_organizations_metadata, AWS_Provider_init, set_session,
    validate_credentials, assume_role, session_client, new_client,
    getattr_original_session, getattr_assumed_role_info, get_session,
    api, record, try_except, critical_exit, bind, ret, raise, sys_exit,
    logger_info, logger_critical, logger in H.

(** C7. When the bootstrap returns a context: its base session is the
    profile session, the one the identity check was made with. With no
    workload role, the audit session is the base session, and the account
    and partition are those of the caller identity. With a workload role,
    the audit session is a session other than the base session, carrying
    the credentials of the role assumption and the renewal callback of the
    workload role, and the account and partition are those of the parsed
    role ARN. *)
Theorem audit_context_attribution {St} (env : AwsEnv)
  (input_profile input_role : option string) (input_session_duration : option Z)
  (input_external_id : option string) (input_regions : option (list string))
  (organizations_role_arn : option string) (w w' : World St)
  (ctx : AWS_Audit_Info) :
  provider_set_session env input_profile input_role input_session_duration
    input_external_id input_regions organizations_role_arn w
  = (Return ctx, w') ->
  exists base identity caller_arn,
    original_session ctx = Some base
    /\ botocore_credentials base = None
    /\ sts_get_caller_identity env base = inr identity
    /\ arnparse env (Arn identity) = inr caller_arn
    /\ (truthy_str input_role = false ->
        audit_session ctx = Some base
        /\ audited_account ctx = Some (Account identity)
        /\ audited_partition ctx = Some (partition caller_arn))
    /\ (truthy_str input_role = true ->
        exists role parsed kw response assumed,
          input_role = Some role
          /\ arn_parsing env role = inr parsed
          /\ sts_assume_role env base kw = inr response
          /\ audit_session ctx = Some assumed
          /\ assumed <> base
          /\ botocore_credentials assumed
             = Some (mkRefreshable
                       (AccessKeyId (Credentials response))
                       (SecretAccessKey (Credentials response))
                       (SessionToken (Credentials response))
                       (Expiration (Credentials response))
                       (AWS_Provider_refresh
                          (mkAssumeRole input_role input_session_duration
                             input_external_id))
                       "sts-assume-role")
          /\ audited_account ctx = Some (account_id parsed)
          /\ audited_partition ctx = Some (partition parsed)).
Proof.
  intros H. unfold_bootstrap H.
  destruct_run H; injection H as <- <-; simpl;
    eexists _, _, _;
    (split_and!; [reflexivity | reflexivity | eassumption | eassumption | ..]);
    intros Hrole; try congruence;
    try (split_and!; reflexivity).
  all: destruct input_role as [role |]; [| discriminate]; simpl in *.
  all: match goal with
       | Ha : sts_assume_role _ _ ?kw = inr ?a
         |- context [AccessKeyId (Credentials ?a)] =>
           exists role; eexists _; exists kw, a; eexists _
       end.
  all: split_and!;
     [reflexivity | eassumption | eassumption | reflexivity | discriminate
     | reflexivity | reflexivity | reflexivity].
Qed.

Lemma audit_context_attribution_witness :
  (exists ctx w',
     SampleBootstrap.run_base = (Return ctx, w')
     /\ audit_session ctx = original_session ctx
     /\ audited_account ctx = Some "111111111111")
  /\ (exists ctx w',
        SampleBootstrap.run_workload = (Return ctx, w')
        /\ audit_session ctx <> original_session ctx
        /\ audited_account ctx = Some "222222222222").
Proof.
  split.
  - eexists _, _. split; [vm_compute; reflexivity |].
    edestruct (audit_context_attribution (St := unit) Sample.env None None
                 None None None None (world0 tt))
      as (base & identity & caller_arn & Hb & _ & Hid & _ & Hno & _);
      [vm_compute; reflexivity |].
    destruct (Hno eq_refl) as (Hs & Ha & _).
    split; [congruence |].
    rewrite Ha. simpl in Hid. by injection Hid as <-.
  - eexists _, _. split; [vm_compute; reflexivity |].
    edestruct (audit_context_attribution (St := unit) Sample.env None
                 (Some Sample.workload_role) (Some 3600%Z)
                 (Some "shared-secret") None None (world0 tt))
      as (base & identity & caller_arn & Hb & _ & _ & _ & _ & Hyes);
      [vm_compute; reflexivity |].
    destruct (Hyes eq_refl)
      as (role & parsed & kw & response & assumed & Hrole & Hparsed & _
          & Hs & Hne & _ & Ha & _).
    split; [congruence |].
    rewrite Ha. injection Hrole as <-. vm_compute in Hparsed.
    by injection Hparsed as <-.
Defined.

(** ** The renewal callback (claim C1) *)

Lemma refresh_run {St} (env : AwsEnv) (role_info : AWS_Assume_Role)
  (w : World St) :
  refresh env role_info w
  = (SysExit,
     mkWorld
       (logs w ++
        [mkLog INFO "Refreshing assumed credentials...";
         mkLog CRITICAL
           "AttributeError -- 'AWS_Assume_Role' object has no attribute 'original_session'"])
       (calls w) (hub w)).
Proof.
  unfold refresh, assume_role, try_except, bind, getattr_original_session,
    critical_exit, logger_info, logger_critical, logger, raise, sys_exit.
  simpl. by rewrite <- app_assoc.
Qed.

(** C1, on the code. A provider built for credentials that carry an
    expiration hands botocore the credentials with that expiration and
    [self.refresh] as renewal callback; the callback passes the role
    description where [assume_role] reads an audit info, so that running
    it, from any world, sends no request to the token service, logs the
    [AttributeError] as critical and ends the process instead of returning
    fresh credentials. *)
Theorem renewal_callback_exits {St} (env : AwsEnv) (ai : AWS_Audit_Info)
  (c : AWS_Credentials) (p : AWS_Provider) (w0 w0' w : World St) :
  credentials ai = Some c ->
  AWS_Provider_init env ai w0 = (Return p, w0') ->
  exists rc,
    botocore_credentials (get_session p) = Some rc
    /\ expiry_time rc = expiration c
    /\ refresh_using rc = AWS_Provider_refresh (role_info p)
    /\ call_refresh_using env (refresh_using rc) w
       = (SysExit,
          mkWorld
            (logs w ++
             [mkLog INFO "Refreshing assumed credentials...";
              mkLog CRITICAL
                "AttributeError -- 'AWS_Assume_Role' object has no attribute 'original_session'"])
            (calls w) (hub w)).
Proof.
  intros Hc H.
  unfold AWS_Provider_init, set_session, api, record, try_except,
    critical_exit, bind, ret, raise, sys_exit, logger_info, logger_critical,
    logger in H.
  rewrite Hc in H. destruct_run H. injection H as <- <-. simpl.
  eexists. split_and!; [reflexivity | reflexivity | reflexivity |].
  apply refresh_run.
Qed.

Lemma renewal_callback_exits_witness :
  exists p w0' rc,
    AWS_Provider_init Sample.env SampleBootstrap.assumed_info (world0 tt)
    = (Return p, w0')
    /\ botocore_credentials (get_session p) = Some rc
    /\ expiry_time rc = 1000%Z
    /\ (call_refresh_using Sample.env (refresh_using rc) (world0 tt)).1
       = SysExit
    /\ calls (call_refresh_using Sample.env (refresh_using rc) (world0 tt)).2
       = [].
Proof.
  assert (exists p w0',
            AWS_Provider_init Sample.env SampleBootstrap.assumed_info
              (world0 tt) = (Return p, w0')) as (p & w0' & Hinit)
    by (eexists _, _; vm_compute; reflexivity).
  exists p, w0'.
  destruct (renewal_callback_exits (St := unit) Sample.env
              SampleBootstrap.assumed_info
              (mkCredentials "ASIAEXAMPLE" "token" "secret" 1000%Z)
              p (world0 tt) w0' (world0 tt) eq_refl Hinit)
    as (rc & Hrc & Hexp & _ & Hrun).
  exists rc. rewrite Hrun. by split_and!.
Defined.

(** * Further properties *)

(** ** Calls of a run *)

Lemma calls_all_no_calls {St A} (P : ApiCall -> Prop) (m : Run St A) :
  (forall w, calls (m w).2 = calls w) -> calls_all P m.
Proof.
  intros Hm w. rewrite (new_calls_eq w _ w (Hm w)), new_calls_same.
  constructor.
Qed.

Lemma calls_all_ret {St A} P (a : A) : calls_all P (@ret St A a).
Proof. by apply calls_all_no_calls. Qed.

Lemma calls_all_raise {St A} P e : calls_all P (@raise St A e).
Proof. by apply calls_all_no_calls. Qed.

Lemma calls_all_sys_exit {St A} P : calls_all P (@sys_exit St A).
Proof. by apply calls_all_no_calls. Qed.

Lemma calls_all_logger {St} P lvl m : calls_all P (@logger St lvl m).
Proof. by apply calls_all_no_calls. Qed.

Lemma calls_all_critical_exit {St A} P e : calls_all P (@critical_exit St A e).
Proof. by apply calls_all_no_calls. Qed.

Lemma calls_all_one {St A} (P : ApiCall -> Prop) (m : Run St A) c :
  (forall w, calls (m w).2 = (calls w ++ [c])%list) -> P c -> calls_all P m.
Proof.
  intros Hm Hc w. rewrite (new_calls_app w _ [c] (Hm w)). by repeat constructor.
Qed.

Lemma calls_all_api {St A} (P : ApiCall -> Prop) c (r : Result A) :
  P c -> calls_all P (@api St A c r).
Proof.
  apply calls_all_one. intros w. unfold api, bind, record. by destruct r.
Qed.

Lemma calls_all_hub_call {St A} (P : ApiCall -> Prop) c (f : St -> Result A) :
  P c -> calls_all P (hub_call c f).
Proof.
  apply calls_all_one. intros w. unfold hub_call. by destruct (f (hub w)).
Qed.

Lemma calls_all_hub_update {St A} (P : ApiCall -> Prop) c
  (f : St -> Result (St * A)) :
  P c -> calls_all P (hub_update c f).
Proof.
  apply calls_all_one. intros w. unfold hub_update.
  by destruct (f (hub w)) as [e | [st a]].
Qed.

Lemma calls_all_bind {St A B} P (m : Run St A) (k : A -> Run St B) :
  extends m -> (forall a, extends (k a)) ->
  calls_all P m -> (forall a, calls_all P (k a)) -> calls_all P (bind m k).
Proof.
  intros Em Ek Hm Hk w. specialize (Hm w). unfold bind.
  destruct (m w) as [[a | e |] w1] eqn:Hw; simpl in *; [| done ..].
  rewrite (new_calls_bind m k w a w1 Em Ek Hw).
  apply Forall_app. split; [done | apply Hk].
Qed.

Lemma calls_all_try_except {St A} P (m : Run St A) h :
  extends m -> (forall e, extends (h e)) ->
  calls_all P m -> (forall e, calls_all P (h e)) ->
  calls_all P (try_except m h).
Proof.
  intros Em Eh Hm Hh w. specialize (Hm w). unfold try_except.
  destruct (m w) as [[a | e |] w1] eqn:Hw; simpl in *; [done | | done].
  destruct (Em w) as (dl & dc & _ & Hc). rewrite Hw in Hc. simpl in Hc.
  destruct (Eh e w1) as (dl' & dc' & _ & Hc').
  specialize (Hh e w1).
  rewrite (new_calls_app w1 _ dc' Hc') in Hh.
  rewrite (new_calls_app w w1 dc Hc) in Hm.
  rewrite (new_calls_app w _ (dc ++ dc')); [by apply Forall_app |].
  by rewrite Hc', Hc, app_assoc.
Qed.

Lemma calls_all_for_each {St A} P (l : list A) (body : A -> Run St unit) :
  (forall x, extends (body x)) ->
  (forall x, x ∈ l -> calls_all P (body x)) ->
  calls_all P (for_each l body).
Proof.
  intros Eb. induction l as [| x l IH]; intros Hb; simpl.
  - apply calls_all_ret.
  - apply calls_all_bind; [done | | apply Hb; left |].
    + intros _. by apply extends_for_each.
    + intros _. apply IH. intros y Hy. apply Hb. by right.
Qed.

Lemma calls_all_impl {St A} (P Q : ApiCall -> Prop) (m : Run St A) :
  (forall c, P c -> Q c) -> calls_all P m -> calls_all Q m.
Proof. intros HPQ Hm w. eapply Forall_impl; [apply Hm | done]. Qed.

Create HintDb calls_shape_db.
#[export] Hint Resolve calls_all_ret calls_all_raise calls_all_sys_exit
  calls_all_logger calls_all_critical_exit : calls_shape_db.

(** Goals on the calls of a run follow the structure of the program. *)
Ltac calls_shape :=
  repeat first
    [ progress intros
    | solve [eauto with calls_shape_db]
    | apply calls_all_bind | apply calls_all_try_except
    | match goal with
      | |- calls_all _ (match ?x with _ => _ end) => destruct x
      | |- extends _ => solve [shape]
      end ].

(** ** Groups of the reconciliation *)

Lemma leb_ProductArn_refl (x y : Finding) :
  ProductArn x = ProductArn y ->
  String.leb (ProductArn x) (ProductArn y) = true.
Proof.
  intros ->. pose proof (reflexivity (R := String.le) (ProductArn y)) as H.
  unfold String.le in H. by destruct (String.leb _ _).
Qed.

(** Sorting is stable: the findings of one product ARN keep their order. *)
Lemma insert_by_ProductArn_filter k x l :
  filter (fun f => ProductArn f = k) (insert_by_ProductArn x l)
  = filter (fun f => ProductArn f = k) (x :: l).
Proof.
  induction l as [| y l IH]; [done |]. simpl.
  destruct (String.leb (ProductArn x) (ProductArn y)) eqn:Hxy; [done |].
  rewrite filter_cons, IH, !(filter_cons _ x), (filter_cons _ y).
  destruct (decide (ProductArn y = k)) as [Hy | Hy]; [| done].
  destruct (decide (ProductArn x = k)) as [Hx | Hx]; [| done].
  rewrite leb_ProductArn_refl in Hxy by congruence. done.
Qed.

Lemma sorted_filter k l :
  filter (fun f => ProductArn f = k) (sorted l)
  = filter (fun f => ProductArn f = k) l.
Proof.
  induction l as [| x l IH]; [done |].
  change (sorted (x :: l)) with (insert_by_ProductArn x (sorted l)).
  by rewrite insert_by_ProductArn_filter, !filter_cons, IH.
Qed.

Lemma filter_all {A} (P : A -> Prop) `{forall x, Decision (P x)} (l : list A) :
  Forall P l -> filter P l = l.
Proof.
  induction 1 as [| x l Hx Hl IH]; [done |].
  by rewrite filter_cons_True, IH.
Qed.

Lemma filter_none {A} (P : A -> Prop) `{forall x, Decision (P x)} (l : list A) :
  Forall (fun x => ~ P x) l -> filter P l = [].
Proof.
  induction 1 as [| x l Hx Hl IH]; [done |].
  by rewrite filter_cons_False, IH.
Qed.

Lemma groups_filter (groups : list (string * list Finding)) k g :
  NoDup (map fst groups) ->
  Forall (fun g => Forall (fun f => ProductArn f = g.1) g.2) groups ->
  (k, g) ∈ groups ->
  filter (fun f => ProductArn f = k) (concat (map snd groups)) = g.
Proof.
  induction groups as [| [k' g'] groups IH]; intros Hnd Hall Hin.
  - by apply elem_of_nil in Hin.
  - simpl in *. apply NoDup_cons in Hnd as [Hk' Hnd].
    apply Forall_cons in Hall as [Hg' Hall]. simpl in Hg'.
    rewrite filter_app.
    apply elem_of_cons in Hin as [[= -> ->] | Hin].
    + rewrite filter_all by done.
      rewrite filter_none; [by rewrite app_nil_r |].
      apply Forall_forall. intros f Hf Hkey.
      apply list_elem_of_In, in_concat in Hf as (g & Hg & Hfg).
      apply list_elem_of_In, list_elem_of_fmap in Hg as ([k g2] & -> & Hkg).
      rewrite Forall_forall in Hall. specialize (Hall _ Hkg).
      rewrite Forall_forall in Hall. simpl in Hall.
      apply Hk'. apply list_elem_of_fmap. exists (k, g2). split; [| done].
      simpl. rewrite <- Hkey. apply Hall. by apply list_elem_of_In.
    + rewrite (IH Hnd Hall Hin).
      rewrite filter_none; [done |].
      apply Forall_forall. intros f Hf Hkey.
      rewrite Forall_forall in Hg'. apply Hk'.
      apply list_elem_of_fmap. exists (k, g). split; [| done].
      simpl. rewrite <- Hkey. symmetry. by apply Hg'.
Qed.

Lemma groupby_sorted_group (json : list Finding) k g :
  (k, g) ∈ groupby (sorted json) ->
  g = filter (fun f => ProductArn f = k) json /\ g <> []
  /\ k ∈ map ProductArn json.
Proof.
  intros Hin. pose proof (groupby_groups (sorted json)) as Hgroups.
  assert (g <> [] /\ Forall (fun f => ProductArn f = k) g) as [Hne Hkeys].
  { rewrite Forall_forall in Hgroups. by destruct (Hgroups _ Hin). }
  assert (g = filter (fun f => ProductArn f = k) json) as Hg.
  { rewrite <- (sorted_filter k json), <- (groupby_concat (sorted json)).
    symmetry. apply groups_filter; [| | done].
    - apply groupby_sorted_NoDup, sorted_sorted.
    - eapply Forall_impl; [exact Hgroups |]. by intros ? [_ ?]. }
  split; [done |]. split; [done |].
  destruct g as [| f g]; [done |].
  assert (f ∈ json) as Hf.
  { assert (f ∈ filter (fun f => ProductArn f = k) json) as Hf
      by (rewrite <- Hg; apply list_elem_of_here).
    by apply list_elem_of_filter in Hf as [_ Hf]. }
  apply Forall_cons in Hkeys as [<- _].
  apply list_elem_of_fmap. by exists f.
Qed.

Lemma groupby_sorted_key (json : list Finding) f :
  f ∈ json -> ProductArn f ∈ map fst (groupby (sorted json)).
Proof.
  intros Hf. pose proof (groupby_groups (sorted json)) as Hgroups.
  assert (f ∈ concat (map snd (groupby (sorted json)))) as Hin
    by (rewrite groupby_concat; by rewrite (sorted_perm json)).
  apply list_elem_of_In, in_concat in Hin as (g & Hg & Hfg).
  apply list_elem_of_In, list_elem_of_fmap in Hg as ([k g'] & -> & Hkg).
  rewrite Forall_forall in Hgroups. destruct (Hgroups _ Hkg) as [_ Hkeys].
  rewrite Forall_forall in Hkeys. simpl in *.
  rewrite (Hkeys f) by (by apply list_elem_of_In).
  apply list_elem_of_fmap. by exists (k, g').
Qed.

(** X1. Each group of the reconciliation holds all the current findings
    with its product ARN, in the order of the findings file, and is not
    empty; the groups have pairwise different product ARNs; and every
    current finding's product ARN is the key of a group. *)
Theorem groups_hold_the_findings_of_their_product_arn (json : list Finding) :
  (forall k g,
     (k, g) ∈ groupby (sorted json) ->
     g = filter (fun f => ProductArn f = k) json /\ g <> [])
  /\ NoDup (map fst (groupby (sorted json)))
  /\ (forall f, f ∈ json -> ProductArn f ∈ map fst (groupby (sorted json))).
Proof.
  split; [| split].
  - intros k g Hin. by destruct (groupby_sorted_group json k g Hin) as (? & ? & _).
  - apply groupby_sorted_NoDup, sorted_sorted.
  - apply groupby_sorted_key.
Qed.

Lemma groups_hold_the_findings_of_their_product_arn_witness :
  (Sample.prowler_arn "us-east-1", [Sample.f1; Sample.f2])
    ∈ groupby (sorted [Sample.f1; Sample.g1; Sample.f2])
  /\ [Sample.f1; Sample.f2]
     = filter (fun f => ProductArn f = Sample.prowler_arn "us-east-1")
         [Sample.f1; Sample.g1; Sample.f2].
Proof.
  assert ((Sample.prowler_arn "us-east-1", [Sample.f1; Sample.f2])
            ∈ groupby (sorted [Sample.f1; Sample.g1; Sample.f2])) as Hin
    by (vm_compute; right; left).
  split; [exact Hin |].
  destruct (groups_hold_the_findings_of_their_product_arn
              [Sample.f1; Sample.g1; Sample.f2]) as (Hgroup & _ & _).
  exact (proj1 (Hgroup _ _ Hin)).
Defined.

(** ** What the reconciliation calls *)

Lemma calls_all_session_hub_client {St} (sh : SecurityHubApi St) P s region :
  P (Call_client "securityhub" (Some region)) ->
  calls_all P (session_hub_client sh s region).
Proof.
  intros HP. unfold session_hub_client. destruct s; [| calls_shape].
  by apply calls_all_hub_call.
Qed.

Lemma calls_all_submit_findings {St} (sh : SecurityHubApi St) P region b :
  P (Call_batch_import_findings region b) ->
  calls_all P (submit_findings sh region b).
Proof.
  intros HP w.
  rewrite (new_calls_app w _ [Call_batch_import_findings region b]
             (submit_findings_calls sh region b w)).
  by repeat constructor.
Qed.

Lemma chunk_elements {A} (l b : list A) x :
  b ∈ list_chunked l -> x ∈ b -> x ∈ l.
Proof.
  intros Hb Hx. rewrite <- (list_chunked_concat l).
  apply list_elem_of_In, in_concat. exists b.
  split; by apply list_elem_of_In.
Qed.

Lemma calls_all_archive_previous_findings {St} (sh : SecurityHubApi St)
  ai ts region cur :
  calls_all (group_call_ok ai ts region cur)
    (archive_previous_findings sh ai ts region cur).
Proof.
  unfold archive_previous_findings, logger_info.
  apply calls_all_bind; [shape | shape | |].
  { by apply calls_all_session_hub_client. }
  intros _. apply calls_all_bind; [shape | shape | |].
  { by apply calls_all_hub_call. }
  intros _. apply calls_all_bind; [shape | shape | |].
  { by apply calls_all_session_hub_client. }
  intros _. apply calls_all_bind; [shape | shape | |].
  { by apply calls_all_hub_call. }
  intros pages. apply calls_all_bind; [shape | shape | calls_shape |].
  intros _. apply calls_all_for_each; [shape |].
  intros b Hb. apply calls_all_submit_findings. simpl.
  split; [done |]. split.
  - pose proof (list_chunked_bounds
                  (findings_to_archive ts (current_findings_ids cur) pages))
      as Hbounds.
    rewrite Forall_forall in Hbounds. specialize (Hbounds b Hb).
    intros ->. simpl in Hbounds. lia.
  - apply Forall_forall. intros f Hf.
    pose proof (chunk_elements _ _ _ Hb Hf) as Hin.
    rewrite findings_to_archive_filter, current_findings_ids_map in Hin.
    apply list_elem_of_fmap in Hin as (f0 & -> & Hf0).
    apply list_elem_of_filter in Hf0 as [Hnot _]. done.
Qed.

Lemma calls_all_resolve_group {St} (sh : SecurityHubApi St) ai ts arn cur
  region :
  region_of arn = Some region ->
  calls_all (group_call_ok ai ts region cur)
    (resolve_group sh ai ts (arn, cur)).
Proof.
  intros Hr. unfold resolve_group. rewrite Hr.
  apply calls_all_try_except; [shape | unfold logger_error; shape | |].
  - apply calls_all_archive_previous_findings.
  - intros e. apply calls_all_logger.
Qed.

Lemma calls_all_resolve {St} (sh : SecurityHubApi St) json ai ts :
  calls_all (run_call_ok json ai ts)
    (resolve_security_hub_previous_findings sh json ai ts).
Proof.
  unfold resolve_security_hub_previous_findings, logger_info.
  apply calls_all_bind; [shape | shape | calls_shape |].
  intros _. apply calls_all_for_each; [shape |].
  intros [arn cur] Hg.
  destruct (groupby_sorted_group json arn cur Hg) as (-> & Hne & Hkey).
  destruct (region_of arn) as [region |] eqn:Hr.
  - eapply calls_all_impl; [| by apply calls_all_resolve_group].
    intros c Hc. by exists arn, region.
  - intros w. rewrite resolve_group_calls_None by done.
    cbn [snd]. rewrite new_calls_same. constructor.
Qed.

(** X2. Whatever the store answers, every call of a reconciliation is a
    Security Hub call for the region of the product ARN of one of the
    current findings: the construction of the client of that region, the
    hub check, the query for the ACTIVE Prowler findings of the audited
    account in that region, or the submission of a batch there. *)
Theorem reconcile_calls_only_regions_of_current_findings {St}
  (sh : SecurityHubApi St) (json : list Finding) (ai : AWS_Audit_Info)
  (ts : string) (w : World St) (c : ApiCall) :
  c ∈ new_calls w (resolve_security_hub_previous_findings sh json ai ts w).2 ->
  exists f region,
    f ∈ json
    /\ region_of (ProductArn f) = Some region
    /\ (c = Call_client "securityhub" (Some region)
        \/ c = Call_describe_hub region
        \/ c = Call_get_findings region
                 (findings_filter (audited_account ai) region)
        \/ exists b, c = Call_batch_import_findings region b).
Proof.
  intros Hc.
  pose proof (calls_all_resolve sh json ai ts w) as Hall.
  rewrite Forall_forall in Hall.
  destruct (Hall c Hc) as (arn & region & Harn & Hr & Hok).
  apply list_elem_of_fmap in Harn as (f & -> & Hf).
  exists f, region. split; [done |]. split; [done |].
  destruct c as [| s [r |] | | | | | r | r | r flt | r b]; try done; simpl in Hok.
  - destruct Hok as [-> ->]. by left.
  - subst r. right. by left.
  - destruct Hok as [-> ->]. right. right. by left.
  - destruct Hok as [-> _]. right. right. right. by exists b.
Qed.

Lemma reconcile_calls_only_regions_of_current_findings_witness :
  exists f, f ∈ [Sample.f1]
    /\ region_of (ProductArn f) = Some "us-east-1".
Proof.
  destruct (reconcile_calls_only_regions_of_current_findings
              (ListStore Sample.accepting) [Sample.f1] Sample.audit_info
              "2022-11-02T00:00:00Z" (world0 [Sample.f1; Sample.f2])
              (Call_describe_hub "us-east-1"))
    as (f & region & Hf & Hr & Hc).
  - vm_compute. right. left.
  - exists f. split; [exact Hf |].
    destruct Hc as [Hc | [Hc | [Hc | [b Hc]]]]; try discriminate Hc.
    injection Hc as <-. exact Hr.
Defined.

Lemma submissions_elem r b cs :
  (r, b) ∈ submissions cs -> Call_batch_import_findings r b ∈ cs.
Proof.
  unfold submissions. intros H.
  apply list_elem_of_omap in H as (c & Hc & Heq).
  destruct c; try discriminate. by injection Heq as -> ->.
Qed.

(** X3. A reconciliation never archives a finding that the current run
    reported under the product ARN of the group: every finding of every
    submitted batch is marked ARCHIVED with the timestamp of the run, and
    its identifier is not the identifier of any current finding of the
    product ARN for whose region the batch is submitted. No batch is
    empty. *)
Theorem reconcile_archives_only_findings_not_reported_again {St}
  (sh : SecurityHubApi St) (json : list Finding) (ai : AWS_Audit_Info)
  (ts : string) (w : World St) (region : string) (b : list Finding) :
  (region, b)
    ∈ submissions
        (new_calls w (resolve_security_hub_previous_findings sh json ai ts w).2) ->
  b <> []
  /\ exists arn,
       arn ∈ map ProductArn json
       /\ region_of arn = Some region
       /\ forall g, g ∈ b ->
            RecordState g = "ARCHIVED"
            /\ UpdatedAt g = ts
            /\ forall f, f ∈ json -> ProductArn f = arn -> Id f <> Id g.
Proof.
  intros Hb. apply submissions_elem in Hb.
  pose proof (calls_all_resolve sh json ai ts w) as Hall.
  rewrite Forall_forall in Hall.
  destruct (Hall _ Hb) as (arn & region' & Harn & Hr & Hok).
  simpl in Hok. destruct Hok as (<- & Hne & Hbatch).
  split; [done |]. exists arn. split; [done |]. split; [done |].
  intros g Hg. rewrite Forall_forall in Hbatch.
  destruct (Hbatch g Hg) as (Hstate & Hts & Hid).
  split; [done |]. split; [done |].
  intros f Hf Hkey Heq. apply Hid. rewrite <- Heq.
  apply list_elem_of_fmap. exists f. split; [done |].
  by apply list_elem_of_filter.
Qed.

Lemma reconcile_archives_only_findings_not_reported_again_witness :
  RecordState (archived "2022-11-02T00:00:00Z" Sample.f2) = "ARCHIVED"
  /\ Id Sample.f1 <> Id (archived "2022-11-02T00:00:00Z" Sample.f2).
Proof.
  destruct (reconcile_archives_only_findings_not_reported_again
              (ListStore Sample.accepting) [Sample.f1] Sample.audit_info
              "2022-11-02T00:00:00Z" (world0 [Sample.f1; Sample.f2])
              "us-east-1" [archived "2022-11-02T00:00:00Z" Sample.f2])
    as (_ & arn & Harn & _ & Hb).
  - vm_compute. left.
  - destruct (Hb (archived "2022-11-02T00:00:00Z" Sample.f2))
      as (Hstate & _ & Hid).
    + left.
    + split; [exact Hstate |].
      apply (Hid Sample.f1); [left |].
      apply list_elem_of_fmap in Harn as (f & -> & Hf).
      apply list_elem_of_singleton in Hf. by rewrite Hf.
Defined.

(** ** The outcome of the reconciliation *)

Lemma resolve_groups_outcome {St} (sh : SecurityHubApi St) ai ts groups
  (w : World St) :
  (for_each groups (resolve_group sh ai ts) w).1
  = if decide (Forall (fun g => is_Some (region_of g.1)) groups)
    then Return tt
    else Raise (mkExc "IndexError" "list index out of range").
Proof.
  revert w. induction groups as [| [arn cur] gs IH]; intros w.
  - rewrite decide_True by constructor. done.
  - cbn [for_each]. unfold bind.
    destruct (region_of arn) as [region |] eqn:Hr.
    + pose proof (resolve_group_Return sh ai ts arn cur region w Hr) as Hret.
      destruct (resolve_group sh ai ts (arn, cur) w) as [o w1].
      cbn [fst] in Hret. subst o. rewrite IH.
      destruct (decide (Forall _ gs)) as [Hgs | Hgs];
        destruct (decide (Forall _ ((arn, cur) :: gs))) as [Hall | Hall];
        try done.
      * destruct Hall. constructor; [by simpl; rewrite Hr | done].
      * apply Forall_cons in Hall as [_ ?]. done.
    + rewrite resolve_group_calls_None by done. cbn [fst].
      clear IH.
      destruct (decide (Forall _ ((arn, cur) :: gs))) as [Hall | Hall];
        [| reflexivity].
      apply Forall_cons in Hall as [[? Hsome] _]. simpl in Hsome. congruence.
Qed.

(** X4. The reconciliation ends normally exactly when the product ARN of
    every current finding has a fourth colon-delimited segment. Otherwise
    it raises [IndexError]: the region is read outside the [try], so no
    failure of the store can raise from it, and it never exits the
    process. *)
Theorem reconcile_outcome {St} (sh : SecurityHubApi St) (json : list Finding)
  (ai : AWS_Audit_Info) (ts : string) (w : World St) :
  (resolve_security_hub_previous_findings sh json ai ts w).1
  = if decide (Forall (fun f => is_Some (region_of (ProductArn f))) json)
    then Return tt
    else Raise (mkExc "IndexError" "list index out of range").
Proof.
  unfold resolve_security_hub_previous_findings, logger_info.
  rewrite (bind_Return _ _ w tt
             (mkWorld (logs w ++
                [mkLog INFO
                   "Checking previous findings in Security Hub to archive them."])
                (calls w) (hub w))) by done.
  rewrite resolve_groups_outcome.
  destruct (decide (Forall _ (groupby (sorted json)))) as [Hg | Hg];
    destruct (decide (Forall _ json)) as [Hj | Hj]; try done.
  - destruct Hj. apply Forall_forall. intros f Hf.
    pose proof (groupby_sorted_key json f Hf) as Hk.
    apply list_elem_of_fmap in Hk as ([k g] & -> & Hkg).
    rewrite Forall_forall in Hg. apply (Hg _ Hkg).
  - destruct Hg. apply Forall_forall. intros [k g] Hkg.
    destruct (groupby_sorted_group json k g Hkg) as (_ & _ & Hk).
    apply list_elem_of_fmap in Hk as (f & -> & Hf).
    rewrite Forall_forall in Hj. apply (Hj _ Hf).
Qed.

(** ** An exception while submitting a batch *)

(** X5. When the submission of a batch raises, the remaining batches of
    that product ARN are not submitted: the calls of the group end with the
    batch that failed, one ERROR record names the exception and the region,
    and the loop over the groups goes on. *)
Theorem batch_exception_skips_remaining_batches {St} (sh : SecurityHubApi St)
  (ai : AWS_Audit_Info) (ts arn region : string) (cur : list Finding)
  (w : World St) (s : Session) (pages : list (list Finding))
  (bs1 : list (list Finding)) (b : list Finding) (bs2 : list (list Finding))
  (e : PyExc) :
  region_of arn = Some region ->
  audit_session ai = Some s ->
  securityhub_client sh (hub w) region = None ->
  describe_hub sh (hub w) region = None ->
  get_findings sh (hub w) region (findings_filter (audited_account ai) region)
  = inr pages ->
  list_chunked (findings_to_archive ts (current_findings_ids cur) pages)
  = (bs1 ++ b :: bs2)%list ->
  (forall st b', b' ∈ bs1 ->
     exists st' resp, batch_import_findings sh st region b' = inr (st', resp)
                      /\ (0 < FailedCount resp -> FailedFindings resp <> [])%Z) ->
  (forall st, batch_import_findings sh st region b = inl e) ->
  let r := resolve_group sh ai ts (arn, cur) w in
  r.1 = Return tt
  /\ submissions (new_calls w r.2) = map (fun x => (region, x)) (bs1 ++ [b])
  /\ last (logs r.2)
     = Some (mkLog ERROR (exc_class e ++ " -- " ++ exc_msg e
                          ++ " in region " ++ region)).
Proof.
  intros Hr Hs Hc Hd Hq Hchunks Hok Hfail. cbv zeta.
  destruct (archive_previous_findings_run sh ai ts region cur w)
    as [(e' & dc & _ & _ & _ & Hwhy) | [(e' & Hq' & _) | (pages' & Hq' & Hrun)]].
  { destruct Hwhy as [? | [? | ?]]; congruence. }
  { congruence. }
  rewrite Hq in Hq'. injection Hq' as <-.
  rewrite Hchunks in Hrun.
  match type of Hrun with _ = for_each _ _ ?w0 =>
    destruct (submit_loop_raise sh region bs1 b bs2 e w0 Hok Hfail)
      as [Hraise Hcalls]
  end.
  rewrite <- Hrun in Hraise, Hcalls.
  destruct (archive_previous_findings sh ai ts region cur w) as [o w'] eqn:Ha.
  cbn [fst snd] in Hraise, Hcalls. subst o.
  rewrite (resolve_group_Raise sh ai ts arn cur region w e w' Hr Ha).
  cbn [fst snd logs calls]. split; [done |]. split.
  - rewrite (new_calls_app w _
               (group_prelude ai region
                ++ map (Call_batch_import_findings region) (bs1 ++ [b]))%list).
    + rewrite submissions_app, submissions_group_prelude. cbn [app].
      generalize (bs1 ++ [b])%list. intros l.
      induction l as [| x l IH]; [done |]. simpl. by f_equal.
    + cbn [calls]. rewrite Hcalls. cbn [calls]. by rewrite <- app_assoc.
  - by rewrite last_snoc.
Qed.

Lemma batch_exception_skips_remaining_batches_witness :
  map (fun x => length x.2)
    (submissions
       (new_calls (world0 tt)
          (resolve_group SampleThrottled.throttled_hub Sample.audit_info
             "2022-11-02T00:00:00Z"
             (Sample.prowler_arn "us-east-1", [Sample.f1]) (world0 tt)).2))
  = [100; 100]%nat.
Proof.
  assert (list_chunked
            (findings_to_archive "2022-11-02T00:00:00Z"
               (current_findings_ids [Sample.f1])
               (list_chunked SampleRuns.store250))
          = ([take 100 SampleThrottled.archived250]
             ++ take 100 (drop 100 SampleThrottled.archived250)
             :: [drop 200 SampleThrottled.archived250])%list) as Hchunks
    by (vm_compute; reflexivity).
  destruct (batch_exception_skips_remaining_batches
              SampleThrottled.throttled_hub Sample.audit_info
              "2022-11-02T00:00:00Z" (Sample.prowler_arn "us-east-1")
              "us-east-1" [Sample.f1] (world0 tt) Sample.base_session
              (list_chunked SampleRuns.store250)
              [take 100 SampleThrottled.archived250]
              (take 100 (drop 100 SampleThrottled.archived250))
              [drop 200 SampleThrottled.archived250]
              (mkExc "ClientError" "ThrottlingException"))
    as (_ & Hsub & _).
  - vm_compute; reflexivity.
  - reflexivity.
  - reflexivity.
  - reflexivity.
  - reflexivity.
  - exact Hchunks.
  - intros st b' Hb'. apply list_elem_of_singleton in Hb'. subst b'.
    exists tt, (mkBatchResponse 0 100 []). split; [vm_compute; reflexivity |].
    simpl. lia.
  - intros st. vm_compute. reflexivity.
  - rewrite Hsub. vm_compute. reflexivity.
Defined.

(** ** The sizes of the batches *)

(** X6. The batches of [n] findings are [n / 100] batches of 100 findings,
    followed by one batch of the remaining [n mod 100] findings when 100
    does not divide [n]. *)
Theorem list_chunked_sizes {A} (l : list A) :
  map length (list_chunked l)
  = (replicate (length l / 100) 100
     ++ (if (length l mod 100 =? 0) then [] else [length l mod 100]))%nat%list.
Proof.
  induction l as [| l Hl IH] using list_chunked_ind; [done |].
  rewrite list_chunked_cons by done. cbn [map]. rewrite IH.
  rewrite length_take, length_drop.
  assert (0 < length l)%nat as Hpos by (destruct l; [done | simpl; lia]).
  remember (length l) as n eqn:Hn. clear Hn.
  destruct (Nat.le_gt_cases 100 n) as [Hge | Hlt].
  - assert (n = (n - 100) + 1 * 100)%nat as Hn by lia.
    remember (n - 100)%nat as m eqn:Hm. clear Hm. subst n.
    rewrite Nat.div_add, Nat.Div0.mod_add by lia.
    rewrite Nat.min_l by lia.
    replace (m / 100 + 1)%nat with (S (m / 100)) by lia.
    done.
  - replace (n - 100)%nat with 0%nat by lia.
    rewrite Nat.min_r by lia.
    rewrite (Nat.div_small n), (Nat.mod_small n) by lia.
    cbn [Nat.div Nat.modulo Nat.divmod fst snd replicate app].
    destruct (Nat.eqb_spec n 0); [lia | done].
Qed.

(** ** Sending one finding *)

Lemma new_calls_mk {St} (w : World St) l dc st :
  new_calls w (mkWorld l (calls w ++ dc) st) = dc.
Proof. by apply new_calls_app. Qed.

Lemma new_logs_mk {St} (w : World St) dl cs st :
  new_logs w (mkWorld (logs w ++ dl) cs st) = dl.
Proof. by apply new_logs_app. Qed.

Lemma report_failed_import_Return_or_Raise {St} resp (w : World St) :
  calls (report_failed_import resp w).2 = calls w
  /\ ((report_failed_import resp w).1 = Return tt
      \/ exists e, report_failed_import resp w = (Raise e, w)).
Proof.
  unfold report_failed_import.
  destruct (0 <? FailedCount resp)%Z; [| by split; [| left]].
  destruct (FailedFindings resp !! 0%nat); [by split; [| left] |].
  split; [done |]. right. by eexists.
Qed.

Ltac send_unfold :=
  unfold send_to_security_hub, try_except, bind, session_hub_client,
    hub_call, hub_update, logger_info, logger_error, logger, raise, ret,
    unit_result.

(** X7. Sending a finding never raises and never exits: whatever fails, the
    function returns. Its calls are an initial part of the sequence: client
    of the region, hub check, list of the enabled products, one submission
    of the finding alone. *)
Theorem send_to_security_hub_always_returns {St} (sh : SecurityHubApi St)
  (region : string) (finding_output : Finding) (session : option Session)
  (w : World St) :
  let r := send_to_security_hub sh region finding_output session w in
  r.1 = Return tt
  /\ new_calls w r.2
       `prefix_of` [Call_client "securityhub" (Some region);
                    Call_describe_hub region;
                    Call_list_enabled_products_for_import region;
                    Call_batch_import_findings region [finding_output]].
Proof.
  cbv zeta. send_unfold. cbn [fst snd logs calls hub].
  destruct session as [s |]; cbn [fst snd logs calls hub].
  2:{ split; [done |]. rewrite new_calls_eq with (w2 := w) by done.
      rewrite new_calls_same. apply prefix_nil. }
  destruct (securityhub_client sh (hub w) region) as [e |];
    cbn [fst snd logs calls hub].
  { split; [done |]. rewrite new_calls_mk. by eexists. }
  destruct (describe_hub sh (hub w) region) as [e |];
    cbn [fst snd logs calls hub].
  { split; [done |]. rewrite <- !app_assoc, new_calls_mk. by eexists. }
  destruct (list_enabled_products_for_import sh (hub w) region)
    as [e | products]; cbn [fst snd logs calls hub].
  { split; [done |]. rewrite <- !app_assoc, new_calls_mk. by eexists. }
  destruct (negb (str_contains "prowler/prowler" products));
    cbn [fst snd logs calls hub];
    (destruct (batch_import_findings sh (hub w) region [finding_output])
       as [e | [st resp]]; cbn [fst snd logs calls hub];
     [ split; [done |]; rewrite <- !app_assoc, new_calls_mk; by exists []
     | match goal with
       | |- context [report_failed_import resp ?w0] =>
           destruct (report_failed_import_Return_or_Raise resp w0)
             as [Hc [Hr | [e He]]];
           [ destruct (report_failed_import resp w0) as [o w1];
             cbn [fst snd] in *; subst o
           | rewrite He ];
           cbn [fst snd logs calls hub] in *
       end;
       (split; [done |]);
       [ rewrite <- !app_assoc in Hc; rewrite (new_calls_app w _ _ Hc)
       | rewrite <- !app_assoc, new_calls_mk ];
       by exists [] ]).
Qed.

(** X8. When the client of the region cannot be constructed, the hub check
    fails or the enabled products cannot be listed, the finding is not
    submitted: the store is left as it was and the log gains the
    announcement and one ERROR record that names the exception and the
    region. *)
Theorem send_to_security_hub_check_failure {St} (sh : SecurityHubApi St)
  (region : string) (finding_output : Finding) (s : Session)
  (w : World St) (e : PyExc) :
  securityhub_client sh (hub w) region = Some e
  \/ (securityhub_client sh (hub w) region = None
      /\ describe_hub sh (hub w) region = Some e)
  \/ (securityhub_client sh (hub w) region = None
      /\ describe_hub sh (hub w) region = None
      /\ list_enabled_products_for_import sh (hub w) region = inl e) ->
  let r := send_to_security_hub sh region finding_output (Some s) w in
  submissions (new_calls w r.2) = []
  /\ hub r.2 = hub w
  /\ new_logs w r.2
     = [mkLog INFO "Sending findings to Security Hub.";
        mkLog ERROR (exc_class e ++ " -- " ++ exc_msg e
                     ++ " in region " ++ region)].
Proof.
  intros Hfail. cbv zeta. send_unfold. cbn [fst snd logs calls hub].
  destruct Hfail as [Hc | [[Hc Hd] | (Hc & Hd & Hp)]].
  - rewrite Hc. cbn [fst snd logs calls hub].
    by rewrite new_calls_mk, <- !app_assoc, new_logs_mk.
  - rewrite Hc. cbn [fst snd logs calls hub]. rewrite Hd.
    cbn [fst snd logs calls hub].
    by rewrite <- !app_assoc, new_calls_mk, new_logs_mk.
  - rewrite Hc. cbn [fst snd logs calls hub]. rewrite Hd.
    cbn [fst snd logs calls hub]. rewrite Hp.
    cbn [fst snd logs calls hub].
    by rewrite <- !app_assoc, new_calls_mk, new_logs_mk.
Qed.

Lemma send_to_security_hub_check_failure_witness :
  let r := send_to_security_hub (ListStore Sample.picky) "ap-south-1"
             SampleFailures.h1 (Some Sample.base_session)
             (world0 [Sample.f1]) in
  submissions (new_calls (world0 [Sample.f1]) r.2) = []
  /\ hub r.2 = [Sample.f1]
  /\ new_logs (world0 [Sample.f1]) r.2
     = [mkLog INFO "Sending findings to Security Hub.";
        mkLog ERROR
          "InvalidAccessException -- Account is not subscribed to AWS Security Hub in region ap-south-1"].
Proof.
  apply (send_to_security_hub_check_failure (ListStore Sample.picky)
           "ap-south-1" SampleFailures.h1 Sample.base_session
           (world0 [Sample.f1])
           (mkExc "InvalidAccessException"
              "Account is not subscribed to AWS Security Hub")).
  right. left. split; reflexivity.
Defined.

(** X9. A hub that does not list the Prowler integration does not stop the
    submission: the ERROR record about the integration is logged, and the
    finding is submitted all the same. *)
Theorem send_to_security_hub_submits_without_integration {St}
  (sh : SecurityHubApi St) (region : string) (finding_output : Finding)
  (s : Session) (w : World St) (products : string) :
  securityhub_client sh (hub w) region = None ->
  describe_hub sh (hub w) region = None ->
  list_enabled_products_for_import sh (hub w) region = inr products ->
  str_contains "prowler/prowler" products = false ->
  let r := send_to_security_hub sh region finding_output (Some s) w in
  submissions (new_calls w r.2) = [(region, [finding_output])]
  /\ take 2 (new_logs w r.2)
     = [mkLog INFO "Sending findings to Security Hub.";
        mkLog ERROR
          ("Security Hub is enabled in " ++ region
           ++ " but Prowler integration does not accept findings. More info: https://github.com/prowler-cloud/prowler/#security-hub-integration")].
Proof.
  intros Hc Hd Hp Hnot. cbv zeta. send_unfold. cbn [fst snd logs calls hub].
  rewrite Hc. cbn [fst snd logs calls hub]. rewrite Hd.
  cbn [fst snd logs calls hub]. rewrite Hp. cbn [fst snd logs calls hub].
  rewrite Hnot. cbn [negb fst snd logs calls hub].
  destruct (batch_import_findings sh (hub w) region [finding_output])
    as [e | [st resp]]; cbn [fst snd logs calls hub].
  - by rewrite <- !app_assoc, new_calls_mk, new_logs_mk.
  - match goal with
    | |- context [report_failed_import resp ?w0] =>
        pose proof (extends_report_failed_import resp w0) as (dl & dc & Hl & _);
        destruct (report_failed_import_Return_or_Raise resp w0)
          as [Hcalls [Hr | [e He]]];
        [ destruct (report_failed_import resp w0) as [o w1];
          cbn [fst snd] in *; subst o
        | rewrite He ];
        cbn [fst snd logs calls hub] in *
    end.
    + rewrite <- !app_assoc in Hcalls. rewrite <- !app_assoc in Hl.
      rewrite (new_calls_app w _ _ Hcalls), (new_logs_app w _ _ Hl). done.
    + by rewrite <- !app_assoc, new_calls_mk, new_logs_mk.
Qed.

Lemma send_to_security_hub_submits_without_integration_witness :
  submissions
    (new_calls (world0 [])
       (send_to_security_hub
          (ListStore (mkOracle (fun _ => None) (fun _ => None)
                        (fun _ => "[]")))
          "us-east-1" Sample.f1 (Some Sample.base_session) (world0 [])).2)
  = [("us-east-1", [Sample.f1])].
Proof.
  apply (send_to_security_hub_submits_without_integration
           (ListStore (mkOracle (fun _ => None) (fun _ => None)
                         (fun _ => "[]")))
           "us-east-1" Sample.f1 Sample.base_session (world0 []) "[]");
    reflexivity.
Defined.

(** ** The audit context the bootstrap returns *)

(** X10. The settings of a returned audit context: profile and requested
    regions are the inputs; the default region is the region of the audit
    session, or [us-east-1] when that session has none, so it is never
    empty; organization metadata are present exactly when an organizations
    role was given, assumed credentials exactly when a workload role was
    given; and the recorded role is the workload role with the external id
    when there is one, else the organizations role without an external id,
    else no role. *)
Theorem audit_context_settings {St} (env : AwsEnv)
  (input_profile input_role : option string) (input_session_duration : option Z)
  (input_external_id : option string) (input_regions : option (list string))
  (organizations_role_arn : option string) (w w' : World St)
  (ctx : AWS_Audit_Info) :
  provider_set_session env input_profile input_role input_session_duration
    input_external_id input_regions organizations_role_arn w
  = (Return ctx, w') ->
  profile ctx = input_profile
  /\ audited_regions ctx = input_regions
  /\ (exists s,
        audit_session ctx = Some s
        /\ profile_region ctx
           = (if truthy_str (region_name s) then region_name s
              else Some "us-east-1"))
  /\ truthy_str (profile_region ctx) = true
  /\ (organizations_metadata ctx = None
      <-> truthy_str organizations_role_arn = false)
  /\ (credentials ctx = None <-> truthy_str input_role = false)
  /\ assumed_role_info ctx
     = (if truthy_str input_role then
          mkAssumeRole input_role input_session_duration input_external_id
        else if truthy_str organizations_role_arn then
          mkAssumeRole organizations_role_arn input_session_duration None
        else mkAssumeRole None None None).
Proof.
  intros H. unfold_bootstrap H.
  destruct_run H; injection H as <- <-; simpl;
    repeat match goal with
           | Hb : truthy_str _ = _ |- _ => rewrite Hb
           end;
    (split_and!;
       [ reflexivity | reflexivity
       | eexists; split; [reflexivity |]; simpl;
         repeat match goal with
                | Hb : truthy_str _ = _ |- _ => rewrite Hb
                end; reflexivity
       | try reflexivity; try assumption
       | split; congruence | split; congruence | reflexivity ]).
Qed.

Lemma audit_context_settings_witness :
  exists ctx w',
    provider_set_session Sample.env None (Some Sample.workload_role)
      (Some 3600%Z) (Some "shared-secret") None
      (Some "arn:aws:iam::999999999999:role/org") (world0 tt)
    = (Return ctx, w')
    /\ profile_region ctx = Some "eu-west-1"
    /\ organizations_metadata ctx <> None
    /\ credentials ctx <> None
    /\ assumed_role_info ctx
       = mkAssumeRole (Some Sample.workload_role) (Some 3600%Z)
           (Some "shared-secret").
Proof.
  eexists _, _. split; [vm_compute; reflexivity |].
  edestruct (audit_context_settings (St := unit) Sample.env None
               (Some Sample.workload_role) (Some 3600%Z)
               (Some "shared-secret") None
               (Some "arn:aws:iam::999999999999:role/org") (world0 tt))
    as (_ & _ & (s & Hs & Hregion) & _ & Horg & Hcred & Hrole);
    [vm_compute; reflexivity |].
  split_and!.
  - reflexivity.
  - intros Hnone. apply Horg in Hnone. discriminate Hnone.
  - intros Hnone. apply Hcred in Hnone. discriminate Hnone.
  - exact Hrole.
Defined.

(** ** The requests of the bootstrap to the token service *)

(** X11. The role assumptions of a bootstrap are, in this order, one for
    the organizations role when one is given, and one for the workload role
    when one is given; a run that exits sends an initial part of them. The
    request for the organizations role never carries an external id; the
    request for the workload role carries the given external id when it is
    a non-empty string. *)
Theorem bootstrap_assume_role_requests {St} (env : AwsEnv)
  (input_profile input_role : option string) (input_session_duration : option Z)
  (input_external_id : option string) (input_regions : option (list string))
  (organizations_role_arn : option string) (w : World St) :
  let r :=
    provider_set_session env input_profile input_role input_session_duration
      input_external_id input_regions organizations_role_arn w in
  let organizations_request :=
    [("RoleArn", val_of_str organizations_role_arn);
     ("RoleSessionName", VStr "ProwlerProAsessmentSession");
     ("DurationSeconds", val_of_int input_session_duration)] in
  let workload_request :=
    ([("RoleArn", val_of_str input_role);
      ("RoleSessionName", VStr "ProwlerProAsessmentSession");
      ("DurationSeconds", val_of_int input_session_duration)]
     ++ (if truthy_str input_external_id
         then [("ExternalId", val_of_str input_external_id)] else []))%list in
  let expected :=
    ((if truthy_str organizations_role_arn then [organizations_request] else [])
     ++ (if truthy_str input_role then [workload_request] else []))%list in
  assume_role_requests (new_calls w r.2) `prefix_of` expected
  /\ (forall ctx, r.1 = Return ctx ->
        assume_role_requests (new_calls w r.2) = expected).
Proof.
  cbv zeta.
  destruct (provider_set_session env input_profile input_role
              input_session_duration input_external_id input_regions
              organizations_role_arn w) as [o w'] eqn:H.
  unfold_bootstrap H. cbn [fst snd].
  destruct_run H; injection H as <- <-;
    repeat match goal with
           | Hb : truthy_str _ = _ |- _ => rewrite Hb
           end;
    rewrite <- ?app_assoc, new_calls_mk;
    (split;
       [ first [ apply prefix_nil | by eexists ]
       | intros ctx Hret; first [ discriminate Hret | reflexivity ] ]).
Qed.

Lemma bootstrap_assume_role_requests_witness :
  map (kwarg "ExternalId")
    (assume_role_requests
       (new_calls (world0 tt)
          (provider_set_session Sample.env None (Some Sample.workload_role)
             (Some 3600%Z) (Some "shared-secret") None
             (Some "arn:aws:iam::999999999999:role/org") (world0 tt)).2))
  = [None; Some (VStr "shared-secret")].
Proof.
  destruct (bootstrap_assume_role_requests (St := unit) Sample.env None
              (Some Sample.workload_role) (Some 3600%Z)
              (Some "shared-secret") None
              (Some "arn:aws:iam::999999999999:role/org") (world0 tt))
    as [_ Hall].
  assert (exists ctx,
            (provider_set_session Sample.env None (Some Sample.workload_role)
               (Some 3600%Z) (Some "shared-secret") None
               (Some "arn:aws:iam::999999999999:role/org") (world0 tt)).1
            = Return ctx) as [ctx Hret]
    by (eexists; vm_compute; reflexivity).
  rewrite (Hall ctx Hret). reflexivity.
Defined.

(** ** Exceptions the bootstrap lets through *)

(** X12. The bootstrap catches every failure of a call and exits; the only
    exceptions it lets through are the one [arnparse] raises on the ARN of
    the caller identity, and the [IndexError] of an organizations account
    ARN without [/], both of which are read outside a [try]. *)
Theorem bootstrap_uncaught_exceptions {St} (env : AwsEnv)
  (input_profile input_role : option string) (input_session_duration : option Z)
  (input_external_id : option string) (input_regions : option (list string))
  (organizations_role_arn : option string) (w : World St) (e : PyExc) :
  (provider_set_session env input_profile input_role input_session_duration
     input_external_id input_regions organizations_role_arn w).1 = Raise e ->
  (exists base identity,
     sts_get_caller_identity env base = inr identity
     /\ arnparse env (Arn identity) = inl e)
  \/ (truthy_str organizations_role_arn = true
      /\ e = mkExc "IndexError" "list index out of range"
      /\ exists creds account_id account,
           organizations_describe_account env creds account_id = inr account
           /\ split "/" (OrgArn account) !! 1%nat = None).
Proof.
  destruct (provider_set_session env input_profile input_role
              input_session_duration input_external_id input_regions
              organizations_role_arn w) as [o w'] eqn:H.
  cbn [fst]. intros ->. unfold_bootstrap H.
  destruct_run H; injection H as <- <-.
  - left. eauto.
  - right. split; [done |]. split; [done |]. eauto.
Qed.

Lemma bootstrap_uncaught_exceptions_witness :
  exists identity,
    sts_get_caller_identity SampleMalformed.env_bad_caller Sample.base_session
    = inr identity
    /\ arnparse SampleMalformed.env_bad_caller (Arn identity)
       = inl (mkExc "MalformedArnError" "auditor").
Proof.
  destruct (bootstrap_uncaught_exceptions (St := unit)
              SampleMalformed.env_bad_caller None None None None None None
              (world0 tt) (mkExc "MalformedArnError" "auditor"))
    as [(base & identity & Hid & Harn) | (Hno & _)].
  - vm_compute. reflexivity.
  - exists identity. split; [| exact Harn].
    vm_compute in Hid. vm_compute. exact Hid.
  - discriminate Hno.
Defined.

(** ** The region of a product ARN *)

Lemma split_nonempty sep s : split sep s <> [].
Proof.
  induction s as [| c s IH]; [done |]. simpl.
  destruct (Ascii.eqb c sep); [done |]. by destruct (split sep s).
Qed.

Lemma split_length sep s : length (split sep s) = S (occurrences sep s).
Proof.
  induction s as [| c s IH]; [done |]. simpl.
  destruct (Ascii.eqb c sep); simpl; [by rewrite IH |].
  pose proof (split_nonempty sep s) as Hne.
  destruct (split sep s); [done |]. exact IH.
Qed.

Lemma split_free sep s : free_of sep s = true -> split sep s = [s].
Proof.
  induction s as [| c s IH]; [done |]. simpl.
  destruct (Ascii.eqb c sep); [done |]. simpl. intros Hs. by rewrite IH.
Qed.

Lemma split_segment sep s t :
  free_of sep s = true ->
  split sep (s ++ String sep "" ++ t) = s :: split sep t.
Proof.
  induction s as [| c s IH]; simpl.
  - intros _. by rewrite Ascii.eqb_refl.
  - destruct (Ascii.eqb c sep); [done |]. simpl. intros Hs. by rewrite IH.
Qed.

(** X13. The region read from a product ARN is its fourth colon-delimited
    segment: for an ARN [a:b:c:region], followed or not by [:] and more
    text, it is [region]; and an ARN has no region exactly when it has
    fewer than three colons. *)
Theorem region_of_product_arn :
  (forall a b c region rest,
     free_of ":" a = true -> free_of ":" b = true -> free_of ":" c = true ->
     free_of ":" region = true ->
     region_of (a ++ ":" ++ b ++ ":" ++ c ++ ":" ++ region) = Some region
     /\ region_of (a ++ ":" ++ b ++ ":" ++ c ++ ":" ++ region ++ ":" ++ rest)
        = Some region)
  /\ (forall arn, region_of arn = None <-> (occurrences ":" arn < 3)%nat).
Proof.
  split.
  - intros a b c region rest Ha Hb Hc Hr. unfold region_of.
    rewrite !split_segment by done.
    split.
    + by rewrite (split_free _ region).
    + done.
  - intros arn. unfold region_of.
    rewrite lookup_ge_None, split_length. lia.
Qed.

Lemma region_of_product_arn_witness :
  region_of "arn:aws:securityhub:eu-west-1::product/prowler/prowler"
  = Some "eu-west-1"
  /\ region_of "prowler" = None.
Proof.
  destruct region_of_product_arn as [Hsome Hnone]. split.
  - apply (Hsome "arn" "aws" "securityhub" "eu-west-1"
             ":product/prowler/prowler"); reflexivity.
  - apply Hnone. vm_compute. lia.
Defined.

(** ** Regional clients: order and failures *)

Lemma generate_regional_clients_unfold {St} (env : AwsEnv) data service ai
  (w : World St) regions_of_service p l :
  data !! service = Some regions_of_service ->
  audited_partition ai = Some p ->
  regions_of_service !! p = Some l ->
  generate_regional_clients env data service ai w
  = regional_clients_loop env service ai
      (regions_for l (audited_regions ai)) [] w.
Proof.
  intros Hd Hp Hl. unfold generate_regional_clients, json_regions_of, bind.
  by rewrite Hd, Hp, Hl.
Qed.

(** X14. The clients are returned in the order of the regions. When no
    region is requested ([None] or an empty list), there is one client for
    each entry of the catalog's list, in the order of that list; when
    regions are requested, no region gets two clients, also when it is
    requested or listed twice. *)
Theorem regional_clients_order {St} (env : AwsEnv)
  (data : gmap string (gmap string (list string))) (service : string)
  (ai : AWS_Audit_Info) (w : World St)
  (regions_of_service : gmap string (list string)) (p : string)
  (l : list string) (clients : list Client) :
  data !! service = Some regions_of_service ->
  audited_partition ai = Some p ->
  regions_of_service !! p = Some l ->
  (generate_regional_clients env data service ai w).1 = Return clients ->
  (truthy_list (audited_regions ai) = false -> map client_region clients = l)
  /\ (truthy_list (audited_regions ai) = true ->
      NoDup (map client_region clients)).
Proof.
  intros Hd Hp Hl.
  rewrite (generate_regional_clients_unfold env data service ai w _ _ _ Hd Hp Hl).
  intros Hr.
  destruct (regional_clients_loop_run env service ai
              (regions_for l (audited_regions ai)) [] w) as (_ & Hret & _).
  destruct (Hret clients Hr) as (_ & built & -> & Hregions & _).
  cbn [app]. rewrite Hregions. unfold regions_for. split; intros ->.
  - done.
  - apply NoDup_elements.
Qed.

Lemma regional_clients_order_witness :
  exists clients,
    (generate_regional_clients Sample.env Sample.services_json "ec2"
       Sample.audit_info (world0 tt)).1 = Return clients
    /\ map client_region clients = ["eu-west-1"; "us-east-1"; "ap-south-1"].
Proof.
  assert (exists clients,
            (generate_regional_clients Sample.env Sample.services_json "ec2"
               Sample.audit_info (world0 tt)).1 = Return clients)
    as [clients Hr] by (eexists; vm_compute; reflexivity).
  exists clients. split; [exact Hr |].
  destruct (regional_clients_order (St := unit) Sample.env
              Sample.services_json "ec2" Sample.audit_info (world0 tt)
              {[ "aws" := ["eu-west-1"; "us-east-1"; "ap-south-1"];
                 "aws-cn" := ["cn-north-1"] ]}
              "aws" ["eu-west-1"; "us-east-1"; "ap-south-1"] clients)
    as [Hall _].
  - vm_compute. reflexivity.
  - reflexivity.
  - vm_compute. reflexivity.
  - exact Hr.
  - apply Hall. reflexivity.
Defined.

Lemma regional_clients_loop_Raise {St} (env : AwsEnv) service ai regions acc
  (w : World St) :
  let r := regional_clients_loop env service ai regions acc w in
  r.1 <> SysExit
  /\ forall e, r.1 = Raise e ->
       (audit_session ai = None
        /\ e = mkExc "AttributeError"
                 "'NoneType' object has no attribute 'client'"
        /\ r.2 = w)
       \/ exists region,
            region ∈ regions
            /\ boto3_client env service (Some region) = Some e
            /\ last (new_calls w r.2) = Some (Call_client service (Some region)).
Proof.
  cbv zeta. revert acc w.
  induction regions as [| region regions IH]; intros acc w.
  - by split.
  - cbn [regional_clients_loop].
    destruct (audit_session ai) as [s |] eqn:Hs.
    2:{ split; [done |]. intros e [= <-]. by left. }
    unfold bind. rewrite new_client_run.
    destruct (boto3_client env service (Some region)) as [e0 |] eqn:Hc.
    { cbn [fst snd]. split; [done |]. intros e [= <-]. right.
      exists region. split; [left |]. split; [done |].
      by rewrite new_calls_mk. }
    match goal with
    | |- context [regional_clients_loop env service ai regions ?acc' ?w1] =>
        destruct (IH acc' w1) as [Hexit Hraise];
        pose proof (extends_regional_clients_loop env service ai regions
                      acc' w1) as (dl & dc & _ & Hdc);
        set (r := regional_clients_loop env service ai regions acc' w1) in *
    end.
    split; [done |]. intros e He.
    destruct (Hraise e He) as [(Hnone & _) | (region' & Hin & Hfail & Hlast)];
      [congruence |].
    right. exists region'. split; [by right |]. split; [done |].
    rewrite (new_calls_app _ _ _ Hdc) in Hlast.
    cbn [calls] in Hdc. rewrite <- app_assoc in Hdc.
    rewrite (new_calls_app w _ _ Hdc).
    destruct dc as [| c dc]; [done |].
    by rewrite last_app, Hlast.
Qed.

(** From the parsed table on, constructing the regional clients never
    exits the process. It raises [KeyError] when the table lacks the service
    or the partition and [AttributeError] when there is no audit session,
    in both cases without constructing any client; any other exception is
    the one of a client construction that failed, and that construction is
    the last one. *)
Lemma generate_regional_clients_outcomes {St} (env : AwsEnv)
  (data : gmap string (gmap string (list string))) (service : string)
  (ai : AWS_Audit_Info) (w : World St) :
  let r := generate_regional_clients env data service ai w in
  r.1 <> SysExit
  /\ ((data !! service ≫= fun regions_of_service =>
         audited_partition ai ≫= fun p => regions_of_service !! p) = None ->
      exists key, r = (Raise (mkExc "KeyError" key), w))
  /\ forall e, r.1 = Raise e ->
       (exc_class e = "KeyError" /\ r.2 = w)
       \/ (audit_session ai = None
           /\ e = mkExc "AttributeError"
                    "'NoneType' object has no attribute 'client'"
           /\ r.2 = w)
       \/ exists region,
            boto3_client env service (Some region) = Some e
            /\ last (new_calls w r.2) = Some (Call_client service (Some region)).
Proof.
  cbv zeta. unfold generate_regional_clients, json_regions_of, bind.
  destruct (data !! service) as [regions_of_service |] eqn:Hd; cbn [mbind option_bind].
  2:{ split; [done |]. split; [by eexists |]. intros e [= <-]. by left. }
  destruct (audited_partition ai) as [p |] eqn:Hp; cbn [mbind option_bind].
  2:{ split; [done |]. split; [by eexists |]. intros e [= <-]. by left. }
  destruct (regions_of_service !! p) as [l |] eqn:Hl.
  2:{ split; [done |]. split; [by eexists |]. intros e [= <-]. by left. }
  cbn [fst snd raise ret].
  destruct (regional_clients_loop_Raise env service ai
              (regions_for l (audited_regions ai)) [] w) as [Hexit Hraise].
  split; [done |]. split; [done |]. intros e He.
  destruct (Hraise e He) as [? | (region & _ & ? & ?)]; [by right; left |].
  right. right. by exists region.
Qed.

(** X15. With the reading of the table (lines 285-286) as a parameter:
    constructing the regional clients ends the process exactly when that
    reading does, and an exception of the reading propagates as it is, with
    nothing done after it. Once the table is read, the function raises
    [KeyError] when the table lacks the service or the partition and
    [AttributeError] when there is no audit session, in both cases without
    constructing any client; any other exception is the one of a client
    construction that failed, and that construction is the last call. *)
Theorem regional_clients_failures {St} (env : AwsEnv)
  (read_catalog : Run St (gmap string (gmap string (list string))))
  (service : string) (ai : AWS_Audit_Info) (w : World St) :
  let r := generate_regional_clients_reading env read_catalog service ai w in
  let w1 := (read_catalog w).2 in
  (r.1 = SysExit <-> (read_catalog w).1 = SysExit)
  /\ (forall e, (read_catalog w).1 = Raise e -> r = (Raise e, w1))
  /\ (forall data, (read_catalog w).1 = Return data ->
        ((data !! service ≫= fun regions_of_service =>
            audited_partition ai ≫= fun p => regions_of_service !! p) = None ->
         exists key, r = (Raise (mkExc "KeyError" key), w1))
        /\ forall e, r.1 = Raise e ->
             (exc_class e = "KeyError" /\ r.2 = w1)
             \/ (audit_session ai = None
                 /\ e = mkExc "AttributeError"
                          "'NoneType' object has no attribute 'client'"
                 /\ r.2 = w1)
             \/ exists region,
                  boto3_client env service (Some region) = Some e
                  /\ last (new_calls w1 r.2)
                     = Some (Call_client service (Some region))).
Proof.
  cbv zeta. unfold generate_regional_clients_reading, bind.
  destruct (read_catalog w) as [[data | e0 |] w1]; cbn [fst snd].
  - destruct (generate_regional_clients_outcomes env data service ai w1)
      as (Hexit & Hkey & Hraise).
    split_and!.
    + split; [by intros ? | discriminate].
    + discriminate.
    + intros data' [= <-]. split; [exact Hkey | exact Hraise].
  - split_and!.
    + split; discriminate.
    + by intros e [= <-].
    + discriminate.
  - split_and!.
    + done.
    + discriminate.
    + discriminate.
Qed.

Lemma regional_clients_failures_witness :
  generate_regional_clients_reading Sample.env (ret Sample.services_json) "s3"
    Sample.audit_info (world0 tt)
  = (Raise (mkExc "KeyError" "s3"), world0 tt)
  /\ (generate_regional_clients_reading Sample.env
        (critical_exit (mkExc "FileNotFoundError" "aws_services_json_file"))
        "ec2" Sample.audit_info (world0 tt)).1 = SysExit.
Proof.
  split.
  - destruct (regional_clients_failures (St := unit) Sample.env
                (ret Sample.services_json) "s3" Sample.audit_info (world0 tt))
      as (_ & _ & Hread).
    destruct (Hread Sample.services_json eq_refl) as [Hkey _].
    destruct Hkey as [key Hrun]; [vm_compute; reflexivity |].
    rewrite Hrun. vm_compute in Hrun. injection Hrun as <-. reflexivity.
  - destruct (regional_clients_failures (St := unit) Sample.env
                (critical_exit
                   (mkExc "FileNotFoundError" "aws_services_json_file"))
                "ec2" Sample.audit_info (world0 tt)) as (Hexit & _).
    apply Hexit. reflexivity.
Defined.

(** ** The organization metadata *)

Lemma append_assoc (s1 s2 s3 : string) : (s1 ++ s2) ++ s3 = s1 ++ (s2 ++ s3).
Proof.
  induction s1 as [| c s1 IH]; [reflexivity |].
  change (String c ((s1 ++ s2) ++ s3) = String c (s1 ++ (s2 ++ s3))).
  by rewrite IH.
Qed.

Lemma append_empty_r (s : string) : s ++ "" = s.
Proof.
  induction s as [| c s IH]; [reflexivity |].
  change (String c (s ++ "") = String c s). by rewrite IH.
Qed.

Lemma fold_left_tags (tags : list Tag) (acc : string) :
  fold_left (fun acc tag => acc ++ Key tag ++ ":" ++ Value tag ++ ",") tags acc
  = acc ++ foldr (fun tag rest => Key tag ++ ":" ++ Value tag ++ "," ++ rest)
             "" tags.
Proof.
  revert acc. induction tags as [| t tags IH]; intros acc.
  - cbn [fold_left foldr]. by rewrite append_empty_r.
  - cbn [fold_left foldr]. rewrite IH. by rewrite !append_assoc.
Qed.

(** X16. The metadata of the audited account, when returned, are read from
    the two answers of the organizations endpoint: email, name and ARN of
    the account, the organization id as the text between the first and the
    second [/] of that ARN, and the tags as [key:value,] one after the
    other. When the ARN has no [/], the function raises [IndexError] after
    both calls were made, since the record is built outside the [try]; it
    raises nothing else. *)
Theorem organizations_metadata_read {St} (env : AwsEnv)
  (metadata_account : option string) (assumed_credentials : AssumeRoleResponse)
  (w : World St) :
  let r := get_organizations_metadata env metadata_account assumed_credentials w in
  (forall md, r.1 = Return md ->
     exists account tags,
       organizations_describe_account env (Credentials assumed_credentials)
         metadata_account = inr account
       /\ organizations_list_tags_for_resource env
            (Credentials assumed_credentials) metadata_account = inr tags
       /\ account_details_email md = Email account
       /\ account_details_name md = Name account
       /\ account_details_arn md = OrgArn account
       /\ split "/" (OrgArn account) !! 1%nat = Some (account_details_org md)
       /\ account_details_tags md
          = foldr (fun tag rest => Key tag ++ ":" ++ Value tag ++ "," ++ rest)
              "" tags)
  /\ (forall e, r.1 = Raise e ->
        e = mkExc "IndexError" "list index out of range"
        /\ new_calls w r.2
           = [Call_client "organizations" None;
              Call_describe_account (Credentials assumed_credentials)
                metadata_account;
              Call_list_tags_for_resource (Credentials assumed_credentials)
                metadata_account]
        /\ exists account,
             organizations_describe_account env
               (Credentials assumed_credentials) metadata_account = inr account
             /\ occurrences "/" (OrgArn account) = 0%nat).
Proof.
  cbv zeta.
  destruct (get_organizations_metadata env metadata_account
              assumed_credentials w) as [o w'] eqn:H.
  cbn [fst snd].
  unfold get_organizations_metadata, new_client, api, record, try_except,
    critical_exit, bind, ret, raise, sys_exit, logger_critical, logger in H.
  split.
  - intros md ->. destruct_run H. injection H as <- <-.
    eexists _, _. split_and!; try reflexivity; try eassumption.
    cbn [account_details_tags]. rewrite fold_left_tags. done.
  - intros e ->. destruct_run H. injection H as <- <-.
    split; [done |]. split.
    + by rewrite <- !app_assoc, new_calls_mk.
    + match goal with
      | Hd : organizations_describe_account _ _ _ = inr ?a |- _ => exists a
      end.
      split; [done |].
      match goal with
      | Hs : split "/" _ !! 1%nat = None |- _ =>
          apply lookup_ge_None in Hs; rewrite split_length in Hs
      end.
      lia.
Qed.

Lemma organizations_metadata_read_witness :
  exists md,
    (get_organizations_metadata Sample.env (Some "111111111111")
       (mkAssumeRoleResponse Sample.sts_credentials) (world0 tt)).1
    = Return md
    /\ account_details_org md = "o-abc"
    /\ account_details_tags md = "env:prod,".
Proof.
  assert (exists md,
            (get_organizations_metadata Sample.env (Some "111111111111")
               (mkAssumeRoleResponse Sample.sts_credentials) (world0 tt)).1
            = Return md) as [md Hr] by (eexists; vm_compute; reflexivity).
  exists md. split; [exact Hr |].
  destruct (organizations_metadata_read (St := unit) Sample.env
              (Some "111111111111")
              (mkAssumeRoleResponse Sample.sts_credentials) (world0 tt))
    as [Hret _].
  destruct (Hret md Hr) as (account & tags & Ha & Ht & _ & _ & _ & Horg & Htags).
  vm_compute in Ha. injection Ha as <-.
  vm_compute in Ht. injection Ht as <-.
  change (Some "o-abc" = Some (account_details_org md)) in Horg.
  injection Horg as <-.
  split; [reflexivity |]. rewrite Htags. reflexivity.
Defined.

(** ** Helpers that return or exit *)

Lemma returns_or_exits_try {St A} (body : Run St A) :
  no_exit body -> returns_or_exits (try_except body critical_exit).
Proof.
  intros Hne w. specialize (Hne w). unfold try_except.
  destruct (body w) as [[a | e |] w1]; cbn [fst snd] in *; [done | | done].
  unfold critical_exit, bind, logger_critical, logger, sys_exit.
  cbn [fst snd logs]. exists e. by rewrite last_snoc.
Qed.

Lemma no_exit_api {St A} c (r : Result A) : no_exit (@api St A c r).
Proof. intros w. unfold api, record, bind. by destruct r. Qed.

#[export] Hint Resolve no_exit_api : run_shape.

(** X17. Creating a session, instantiating the provider, validating the
    credentials and assuming a role let no exception through, whatever the
    collaborators answer and whatever object is passed: each of them
    returns, or exits the process after a CRITICAL record that names the
    exception. *)
Theorem session_helpers_return_or_exit {St} (env : AwsEnv) :
  (forall self_refresh ai, returns_or_exits (@set_session St env self_refresh ai))
  /\ (forall ai, returns_or_exits (@AWS_Provider_init St env ai))
  /\ (forall s, returns_or_exits (@validate_credentials St env s))
  /\ (forall o, returns_or_exits (@assume_role St env o)).
Proof.
  assert (forall self_refresh ai,
            returns_or_exits (@set_session St env self_refresh ai)) as Hset.
  { intros self_refresh ai. apply returns_or_exits_try.
    destruct (credentials ai); unfold logger_info; shape. }
  split_and!.
  - exact Hset.
  - intros ai w. specialize (Hset (AWS_Provider_refresh (assumed_role_info ai)) ai).
    unfold AWS_Provider_init, bind, logger_info, logger, ret.
    cbn [fst snd]. 
    match goal with
    | |- context [set_session env ?cb ai ?w0] =>
        specialize (Hset w0); destruct (set_session env cb ai w0) as [[s | e |] w1]
    end; done.
  - intros s. apply returns_or_exits_try.
    unfold session_client, new_client. destruct s; shape.
  - intros o. apply returns_or_exits_try.
    unfold getattr_original_session, getattr_assumed_role_info,
      session_client, new_client.
    destruct o as [ai | ri]; shape.
Qed.

(** ** A region whose hub cannot be queried *)

(** X18. When the client of a group's region cannot be constructed, the hub
    check fails there, or the query for the stored findings fails, the
    reconciliation submits nothing for that product ARN and leaves the
    store as it was: it logs one ERROR record that names the exception and
    the region, and goes on to the next group. *)
Theorem reconcile_skips_region_on_failed_check {St} (sh : SecurityHubApi St)
  (ai : AWS_Audit_Info) (ts arn region : string) (cur : list Finding)
  (w : World St) (s : Session) (e : PyExc) :
  region_of arn = Some region ->
  audit_session ai = Some s ->
  securityhub_client sh (hub w) region = Some e
  \/ (securityhub_client sh (hub w) region = None
      /\ describe_hub sh (hub w) region = Some e)
  \/ (securityhub_client sh (hub w) region = None
      /\ describe_hub sh (hub w) region = None
      /\ get_findings sh (hub w) region
           (findings_filter (audited_account ai) region) = inl e) ->
  let r := resolve_group sh ai ts (arn, cur) w in
  r.1 = Return tt
  /\ submissions (new_calls w r.2) = []
  /\ hub r.2 = hub w
  /\ new_logs w r.2
     = [mkLog ERROR (exc_class e ++ " -- " ++ exc_msg e
                     ++ " in region " ++ region)].
Proof.
  intros Hr Hs Hfail. cbv zeta.
  pose proof (archive_previous_findings_unfold sh ai ts region cur w) as Ha.
  rewrite Hs in Ha.
  destruct Hfail as [Hc | [[Hc Hd] | (Hc & Hd & Hq)]].
  - rewrite Hc in Ha.
    rewrite (resolve_group_Raise sh ai ts arn cur region w e _ Hr Ha).
    cbn [fst snd logs calls hub]. by rewrite new_calls_mk, new_logs_mk.
  - rewrite Hc, Hd in Ha.
    rewrite (resolve_group_Raise sh ai ts arn cur region w e _ Hr Ha).
    cbn [fst snd logs calls hub]. by rewrite new_calls_mk, new_logs_mk.
  - rewrite Hc, Hd, Hq in Ha.
    rewrite (resolve_group_Raise sh ai ts arn cur region w e _ Hr Ha).
    cbn [fst snd logs calls hub]. by rewrite new_calls_mk, new_logs_mk.
Qed.

Lemma reconcile_skips_region_on_failed_check_witness :
  let r := resolve_group (ListStore Sample.picky) Sample.audit_info
             "2022-11-02T00:00:00Z"
             (Sample.prowler_arn "ap-south-1", [SampleFailures.h1])
             (world0 [Sample.f1]) in
  r.1 = Return tt
  /\ submissions (new_calls (world0 [Sample.f1]) r.2) = []
  /\ hub r.2 = [Sample.f1]
  /\ new_logs (world0 [Sample.f1]) r.2
     = [mkLog ERROR
          "InvalidAccessException -- Account is not subscribed to AWS Security Hub in region ap-south-1"].
Proof.
  apply (reconcile_skips_region_on_failed_check (ListStore Sample.picky)
           Sample.audit_info "2022-11-02T00:00:00Z"
           (Sample.prowler_arn "ap-south-1") "ap-south-1" [SampleFailures.h1]
           (world0 [Sample.f1]) Sample.base_session
           (mkExc "InvalidAccessException"
              "Account is not subscribed to AWS Security Hub")).
  - vm_compute. reflexivity.
  - reflexivity.
  - right. left. split; reflexivity.
Defined.
